(** * Verification of the portfolio optimizer

    Shallow embedding of [src/portfolio/optimizer.py]
    (class [FreePortfolioOptimizer]): [optimize_portfolio],
    [_calculate_diversification_ratio] and [calculate_portfolio_metrics].

    Numbers.  The program computes with numpy [float64].  We idealise a
    [float64] as an extended real: a finite real, one of the two infinities,
    or NaN.  Finite arithmetic is exact (no rounding, no overflow, no signed
    zero); the special values follow IEEE 754, because the program relies on
    them: numpy does not raise on [0/0] or on the square root of a negative
    number, it returns NaN and carries on.  Since rounding is left out, the
    main statements say which operations the program applies to which
    values, how NaN and the infinities travel, what the guards and the
    comparisons decide, and bounds that rounding to nearest keeps; they do
    not say that a computed number equals a formula over the reals.

    Environment.  [yf.download] is a parameter: it answers with a table of
    adjusted closing prices without missing cells, or raises.  The global
    generator [np.random] is a state threaded through the sampling loop.
    pandas reductions ([sum], [mean], [prod], [std], [min]) skip NaN, numpy
    ones do not; [np.sum] and [np.mean] of a Series are the pandas ones.
    What the methods print on failure is left out. *)

From Stdlib Require Import String Ascii.
From Stdlib Require Import Reals Lra Lia List Arith Bool.
Import ListNotations.
Local Open Scope R_scope.

(** ** float64 *)

Inductive float64 : Type :=
| Num (r : R)
| PInf
| NInf
| NaN.

Definition Rltb (a b : R) : bool := if Rlt_dec a b then true else false.
Definition Rleb (a b : R) : bool := if Rle_dec a b then true else false.
Definition Reqb (a b : R) : bool := if Req_dec_T a b then true else false.

(** Sign of a real, as a [comparison] with zero. *)
Definition Rsgn (r : R) : comparison :=
  if Rlt_dec r 0 then Lt else if Rlt_dec 0 r then Gt else Eq.

(** The infinity of a given sign; a zero sign stands for an undefined
    result (0/0, 0*inf). *)
Definition inf_of (c : comparison) : float64 :=
  match c with Lt => NInf | Gt => PInf | Eq => NaN end.

Definition sgn_mul (a b : comparison) : comparison :=
  match a, b with
  | Eq, _ | _, Eq => Eq
  | Lt, Lt | Gt, Gt => Gt
  | _, _ => Lt
  end.

Definition fsgn (x : float64) : comparison :=
  match x with
  | Num r => Rsgn r
  | PInf => Gt
  | NInf => Lt
  | NaN => Eq
  end.

Definition isnan (x : float64) : bool :=
  match x with NaN => true | _ => false end.

Definition fopp (x : float64) : float64 :=
  match x with
  | Num r => Num (- r)
  | PInf => NInf
  | NInf => PInf
  | NaN => NaN
  end.

Definition fadd (x y : float64) : float64 :=
  match x, y with
  | NaN, _ | _, NaN => NaN
  | Num a, Num b => Num (a + b)
  | PInf, NInf | NInf, PInf => NaN
  | PInf, _ | _, PInf => PInf
  | NInf, _ | _, NInf => NInf
  end.

Definition fsub (x y : float64) : float64 := fadd x (fopp y).

Definition fmul (x y : float64) : float64 :=
  match x, y with
  | NaN, _ | _, NaN => NaN
  | Num a, Num b => Num (a * b)
  | _, _ => inf_of (sgn_mul (fsgn x) (fsgn y))
  end.

(** Division.  A finite zero divisor counts as [+0]. *)
Definition fdiv (x y : float64) : float64 :=
  match x, y with
  | NaN, _ | _, NaN => NaN
  | Num a, Num b => if Reqb b 0 then inf_of (Rsgn a) else Num (a / b)
  | Num _, _ => Num 0
  | _, Num b => if Rltb b 0 then fopp x else x
  | _, _ => NaN
  end.

(** [np.sqrt]: NaN on a negative argument. *)
Definition fsqrt (x : float64) : float64 :=
  match x with
  | Num a => if Rltb a 0 then NaN else Num (sqrt a)
  | PInf => PInf
  | _ => NaN
  end.

Definition fabs (x : float64) : float64 :=
  match x with
  | Num a => Num (Rabs a)
  | NaN => NaN
  | _ => PInf
  end.

(** Comparisons; every comparison with NaN is false, except [!=]. *)
Definition flt (x y : float64) : bool :=
  match x, y with
  | NaN, _ | _, NaN => false
  | Num a, Num b => Rltb a b
  | NInf, NInf | PInf, _ => false
  | NInf, _ => true
  | _, PInf => true
  | _, NInf => false
  end.

Definition fle (x y : float64) : bool :=
  match x, y with
  | NaN, _ | _, NaN => false
  | Num a, Num b => Rleb a b
  | NInf, _ | _, PInf => true
  | _, _ => false
  end.

Definition fgt (x y : float64) : bool := flt y x.
Definition fge (x y : float64) : bool := fle y x.

Definition feq (x y : float64) : bool :=
  match x, y with
  | Num a, Num b => Reqb a b
  | PInf, PInf | NInf, NInf => true
  | _, _ => false
  end.

Definition fne (x y : float64) : bool := negb (feq x y).

(** A Python [int] used in float arithmetic ([len(...)], [252]). *)
Definition of_nat (n : nat) : float64 := Num (INR n).

Declare Scope float64_scope.
Delimit Scope float64_scope with f64.
Bind Scope float64_scope with float64.
Infix "+" := fadd : float64_scope.
Infix "-" := fsub : float64_scope.
Infix "*" := fmul : float64_scope.
Infix "/" := fdiv : float64_scope.
Infix ">?" := fgt (at level 70) : float64_scope.
Infix "<?" := flt (at level 70) : float64_scope.

(** ** numpy and pandas array operations *)

Definition vector := list float64.
Definition matrix := list (list float64).

(** Exceptions the program can meet; all are subclasses of [Exception]. *)
Inductive exn : Type :=
| ValueError
| ZeroDivisionError
| KeyError
| IndexError
| DownloadError.

(** Fallible computations. *)
Definition M (A : Type) : Type := (exn + A)%type.
Definition ret {A} (a : A) : M A := inr a.
Definition raise {A} (e : exn) : M A := inl e.
Definition bind {A B} (m : M A) (k : A -> M B) : M B :=
  match m with inl e => inl e | inr a => k a end.

Notation "x <- m ;; k" := (bind m (fun x => k))
  (at level 61, m at next level, right associativity).

(** [np.sum] of an array (0.0 on an empty one). *)
Definition np_sum (v : vector) : float64 := fold_left fadd v (Num 0).

(** Element-wise product of two arrays of the same length. *)
Fixpoint zip_mul (u v : vector) : vector :=
  match u, v with
  | x :: u', y :: v' => (x * y)%f64 :: zip_mul u' v'
  | _, _ => []
  end.

(** [np.dot] of two 1-d arrays; shapes must agree. *)
Definition np_dot (u v : vector) : M float64 :=
  if Nat.eqb (length u) (length v) then ret (np_sum (zip_mul u v))
  else raise ValueError.

(** [np.dot] of a 2-d array and a 1-d array. *)
Fixpoint np_dot_mv (m : matrix) (v : vector) : M vector :=
  match m with
  | [] => ret []
  | row :: m' =>
      x <- np_dot row v ;;
      xs <- np_dot_mv m' v ;;
      ret (x :: xs)
  end.

(** [m * c] for a scalar [c]. *)
Definition scale (c : float64) (m : matrix) : matrix :=
  map (map (fun x => (x * c)%f64)) m.

(** [v / c] for a scalar [c] (the in-place [weights /= np.sum(weights)]). *)
Definition div_scalar (v : vector) (c : float64) : vector :=
  map (fun x => (x / c)%f64) v.

(** [np.diag] of a 2-d array: entry [i] of row [i], as far as both exist. *)
Fixpoint np_diag_from (i : nat) (m : matrix) : vector :=
  match m with
  | [] => []
  | row :: m' =>
      match nth_error row i with
      | Some x => x :: np_diag_from (S i) m'
      | None => []
      end
  end.
Definition np_diag (m : matrix) : vector := np_diag_from 0 m.

(** [np.mean] of an array: sum over length (NaN on an empty array). *)
Definition np_mean (v : vector) : float64 :=
  (np_sum v / of_nat (length v))%f64.

(** pandas reductions skip NaN entries. *)
Definition dropna (v : vector) : vector := filter (fun x => negb (isnan x)) v.
Definition pd_sum (v : vector) : float64 := np_sum (dropna v).
Definition pd_mean (v : vector) : float64 :=
  (pd_sum v / of_nat (length (dropna v)))%f64.

(** Subscripting; out of range raises [IndexError]. *)
Definition getitem {A} (l : list A) (i : nat) : M A :=
  match nth_error l i with
  | Some x => ret x
  | None => raise IndexError
  end.

(** [series * array] in pandas: element-wise on equal lengths; an array of
    length one is broadcast; anything else is a [ValueError]. *)
Definition series_mul (s a : vector) : M vector :=
  if Nat.eqb (length s) (length a) then ret (zip_mul s a)
  else match a with
       | [x] => ret (map (fun y => (y * x)%f64) s)
       | _ => raise ValueError
       end.

(** [np.argmax] of a 1-d array: index of the first maximum; a NaN counts as
    the maximum, so the first NaN wins.  Raises on an empty array. *)
Fixpoint argmax_from (best_i : nat) (best : float64) (i : nat) (v : vector)
  : nat :=
  match v with
  | [] => best_i
  | x :: v' =>
      if fle x best then argmax_from best_i best (S i) v'
      else if isnan x then i
      else argmax_from i x (S i) v'
  end.

Definition np_argmax (v : vector) : M nat :=
  match v with
  | [] => raise ValueError
  | x :: v' => ret (if isnan x then 0%nat else argmax_from 0 x 1 v')
  end.

(** [np.argmin], symmetrically. *)
Fixpoint argmin_from (best_i : nat) (best : float64) (i : nat) (v : vector)
  : nat :=
  match v with
  | [] => best_i
  | x :: v' =>
      if fge x best then argmin_from best_i best (S i) v'
      else if isnan x then i
      else argmin_from i x (S i) v'
  end.

Definition np_argmin (v : vector) : M nat :=
  match v with
  | [] => raise ValueError
  | x :: v' => ret (if isnan x then 0%nat else argmin_from 0 x 1 v')
  end.

(** [Series.prod()] *)
Definition pd_prod (v : vector) : float64 := fold_left fmul (dropna v) (Num 1).

(** [Series.std()]: sample standard deviation, one degree of freedom taken
    off; NaN when fewer than two values are left. *)
Definition pd_std (v : vector) : float64 :=
  let xs := dropna v in
  if Nat.leb (length xs) 1 then NaN
  else
    let avg := (np_sum xs / of_nat (length xs))%f64 in
    fsqrt (np_sum (map (fun x => ((avg - x) * (avg - x))%f64) xs)
           / of_nat (length xs - 1))%f64.

(** [Series.min()]; NaN when nothing is left. *)
Definition pd_min (v : vector) : float64 :=
  match dropna v with
  | [] => NaN
  | x :: xs => fold_left (fun a b => if (b <? a)%f64 then b else a) xs x
  end.

(** [Series.cumprod()]: a NaN entry stays NaN and is left out of the running
    product. *)
Fixpoint cumprod_from (acc : float64) (v : vector) : vector :=
  match v with
  | [] => []
  | x :: v' =>
      if isnan x then NaN :: cumprod_from acc v'
      else (acc * x)%f64 :: cumprod_from (acc * x)%f64 v'
  end.
Definition cumprod (v : vector) : vector := cumprod_from (Num 1) v.

(** [Series.expanding(min_periods=1).max()]: the largest value seen so far;
    NaN as long as none has been seen. *)
Fixpoint expanding_max_from (cur : option float64) (v : vector) : vector :=
  match v with
  | [] => []
  | x :: v' =>
      let cur' :=
        if isnan x then cur
        else match cur with
             | None => Some x
             | Some c => Some (if (c <? x)%f64 then x else c)
             end in
      match cur' with None => NaN | Some c => c end
      :: expanding_max_from cur' v'
  end.
Definition expanding_max (v : vector) : vector := expanding_max_from None v.

(** [(a - b) / b] on two Series with the same index. *)
Fixpoint zip_drawdown (a b : vector) : vector :=
  match a, b with
  | x :: a', y :: b' => ((x - y) / y)%f64 :: zip_drawdown a' b'
  | _, _ => []
  end.

(** [frame.dot(weights)]: the number of columns must be the number of
    weights. *)
Definition frame_dot (ncols : nat) (m : matrix) (w : vector) : M vector :=
  if Nat.eqb ncols (length w) then np_dot_mv m w else raise ValueError.

(** Boolean masks [s > 0] and [s < 0] used as subscripts. *)
Definition positive (v : vector) : vector := filter (fun x => (x >? Num 0)%f64) v.
Definition negative (v : vector) : vector := filter (fun x => (x <? Num 0)%f64) v.

(** ** Price data and its moments *)

(** The ['Adj Close'] table that [yf.download] hands back: one row per
    trading day, one column per ticker, no missing cell. *)
Record PriceData : Type := {
  n_columns : nat;
  closes : list (list R)
}.

(** [data.empty]: some axis has length zero. *)
Definition empty (d : PriceData) : bool :=
  Nat.eqb (n_columns d) 0 || match closes d with [] => true | _ => false end.

Fixpoint zip_pct (cur prev : list R) : vector :=
  match cur, prev with
  | p :: cur', q :: prev' => (Num p / Num q - Num 1)%f64 :: zip_pct cur' prev'
  | _, _ => []
  end.

Fixpoint pct_change_from (prev : list R) (rows : list (list R)) : matrix :=
  match rows with
  | [] => []
  | r :: rows' => zip_pct r prev :: pct_change_from r rows'
  end.

(** [data.pct_change()]: each row over the previous one, minus one; the first
    row has no predecessor and is all NaN. *)
Definition pct_change (d : PriceData) : matrix :=
  match closes d with
  | [] => []
  | r0 :: rows' => map (fun _ => NaN) r0 :: pct_change_from r0 rows'
  end.

(** [frame.dropna()]: rows holding a NaN are removed. *)
Definition dropna_rows (m : matrix) : matrix :=
  filter (fun row => negb (existsb isnan row)) m.

Definition column (j : nat) (m : matrix) : vector :=
  map (fun row => nth j row NaN) m.

(** [returns.mean()]: the mean of every column. *)
Definition frame_mean (ncols : nat) (m : matrix) : vector :=
  map (fun j => pd_mean (column j m)) (seq 0 ncols).

(** [returns.cov()] on a frame without NaN, which is [np.cov(.., ddof=1)]:
    centred cross products times [1 / fact], where [fact] is the number of
    rows minus one, replaced by [0.0] when that is not positive. *)
Definition centred (j : nat) (m : matrix) : vector :=
  let c := column j m in
  map (fun x => (x - np_mean c)%f64) c.

Definition cov_fact (m : matrix) : float64 :=
  if Nat.leb (length m) 1 then Num 0 else of_nat (length m - 1).

Definition frame_cov (ncols : nat) (m : matrix) : matrix :=
  map (fun i =>
         map (fun j =>
                (np_sum (zip_mul (centred i m) (centred j m))
                 * (Num 1 / cov_fact m))%f64)
             (seq 0 ncols))
      (seq 0 ncols).

(** ** The global random generator *)

(** The state of [np.random]: the sequence of uniform variates the generator
    is going to deliver, each in the half-open interval from 0 to 1, and how
    many of them have been consumed. *)
Record RandomState : Type := {
  variates : nat -> R;
  cursor : nat
}.

Definition unit_interval (x : R) : Prop := 0 <= x < 1.

(** [np.random.random(n)] *)
Definition random (n : nat) (rs : RandomState) : vector * RandomState :=
  (map (fun k => Num (variates rs (cursor rs + k))) (seq 0 n),
   {| variates := variates rs; cursor := cursor rs + n |}).

(** ** Results *)

(** A Python dict with string keys, in insertion order; assigning to a key
    already present overwrites its value in place. *)
Fixpoint dict_set {A} (d : list (string * A)) (k : string) (v : A)
  : list (string * A) :=
  match d with
  | [] => [(k, v)]
  | (k', v') :: d' =>
      if String.eqb k' k then (k, v) :: d' else (k', v') :: dict_set d' k v
  end.

Record portfolio_point : Type := {
  weights : vector;
  expected_return : float64;
  volatility : float64;
  sharpe_ratio : float64
}.

(** An entry of [stock_metrics]. *)
Module Stock.
Record t : Type := {
  weight_max_sharpe : float64;
  weight_min_vol : float64;
  annual_return : float64;
  annual_volatility : float64;
  sharpe_ratio : float64
}.
End Stock.

(** The dict [calculate_portfolio_metrics] returns. *)
Module Metrics.
Record t : Type := {
  total_return : float64;
  annual_return : float64;
  annual_volatility : float64;
  sharpe_ratio : float64;
  sortino_ratio : float64;
  calmar_ratio : float64;
  max_drawdown : float64;
  win_rate : float64;
  avg_win : float64;
  avg_loss : float64;
  profit_factor : float64
}.
End Metrics.

Record frontier : Type := {
  returns : vector;
  volatilities : vector;
  sharpe_ratios : vector
}.

Record optimization : Type := {
  tickers : list string;
  current_portfolio : portfolio_point;
  max_sharpe : portfolio_point;
  min_volatility : portfolio_point;
  stock_metrics : list (string * Stock.t);
  diversification_ratio : float64;
  efficient_frontier : frontier
}.

(** What a method hands back: the empty dict [{}] or a filled one. *)
Inductive pydict (A : Type) : Type :=
| EmptyDict
| Dict (fields : A).
Arguments EmptyDict {A}.
Arguments Dict {A} fields.

(** [try: body  except Exception as e: print(...); return {}] *)
Definition try_except {A} (body : M (pydict A)) : M (pydict A) :=
  match body with
  | inl _ => ret EmptyDict
  | inr r => ret r
  end.

(** ** FreePortfolioOptimizer *)

(** [num_portfolios = 10000] *)
Definition num_portfolios : nat := 100 * 100.

Section FreePortfolioOptimizer.

(** [self.risk_free_rate] *)
Variable risk_free_rate : float64.

(** [yf.download(tickers, start, end)['Adj Close']]: the table, or the
    exception the call or the subscript raises. *)
Variable yf_download : list string -> M PriceData.

(** Annualised return, volatility and Sharpe ratio of a weight vector
    (lines 36-38 for the baseline, lines 50-55 for a sample). *)
Definition evaluate (mean_returns : vector) (cov_matrix : matrix)
    (w : vector) : M portfolio_point :=
  prod <- series_mul mean_returns w ;;
  let portfolio_ret := (pd_sum prod * Num 252)%f64 in
  cw <- np_dot_mv (scale (Num 252) cov_matrix) w ;;
  q <- np_dot w cw ;;
  let portfolio_vol := fsqrt q in
  ret {| weights := w;
         expected_return := portfolio_ret;
         volatility := portfolio_vol;
         sharpe_ratio :=
           if (portfolio_vol >? Num 0)%f64
           then ((portfolio_ret - risk_free_rate) / portfolio_vol)%f64
           else Num 0 |}.

(** Lines 46-47: draw [n] magnitudes and divide them by their sum. *)
Definition random_weights (n : nat) (rs : RandomState)
  : vector * RandomState :=
  let (w, rs') := random n rs in
  (div_scalar w (np_sum w), rs').

(** One pass of the sampling loop: draw, normalise, evaluate. *)
Definition trial (mean_returns : vector) (cov_matrix : matrix) (n : nat)
    (rs : RandomState) : M portfolio_point * RandomState :=
  let (w, rs') := random_weights n rs in
  (evaluate mean_returns cov_matrix w, rs').

(** [for i in range(k)]: the samples in the order they are drawn.  An
    exception leaves the loop at once; the generator keeps what it has
    consumed. *)
Fixpoint sample_frontier (mean_returns : vector) (cov_matrix : matrix)
    (n k : nat) (rs : RandomState) : M (list portfolio_point) * RandomState :=
  match k with
  | O => (ret [], rs)
  | S k' =>
      match trial mean_returns cov_matrix n rs with
      | (inl e, rs') => (inl e, rs')
      | (inr p, rs') =>
          match sample_frontier mean_returns cov_matrix n k' rs' with
          | (inl e, rs'') => (inl e, rs'')
          | (inr ps, rs'') => (inr (p :: ps), rs'')
          end
      end
  end.

Definition _calculate_diversification_ratio (cov_matrix : matrix)
    (w : vector) : M float64 :=
  cw <- np_dot_mv cov_matrix w ;;
  q <- np_dot w cw ;;
  let weighted_vol := fsqrt q in
  let average_vol := fsqrt (np_mean (np_diag cov_matrix)) in
  ret (if (weighted_vol >? Num 0)%f64
       then (average_vol / weighted_vol)%f64
       else Num 1).

(** The loop of lines 74-82 over [enumerate(tickers)], from index [i];
    [mean_returns[i]] is read by position. *)
Fixpoint stock_loop (mean_returns : vector) (cov_matrix : matrix)
    (max_sharpe_weights min_vol_weights : vector) (i : nat)
    (ts : list string) (acc : list (string * Stock.t))
  : M (list (string * Stock.t)) :=
  match ts with
  | [] => ret acc
  | ticker :: ts' =>
      wmax <- getitem max_sharpe_weights i ;;
      wmin <- getitem min_vol_weights i ;;
      m <- getitem mean_returns i ;;
      row <- getitem cov_matrix i ;;
      c <- getitem row i ;;
      let vol := fsqrt (c * Num 252)%f64 in
      let entry :=
        {| Stock.weight_max_sharpe := wmax;
           Stock.weight_min_vol := wmin;
           Stock.annual_return := (m * Num 252)%f64;
           Stock.annual_volatility := vol;
           Stock.sharpe_ratio :=
             if (vol >? Num 0)%f64
             then ((m * Num 252 - risk_free_rate) / vol)%f64
             else Num 0 |} in
      stock_loop mean_returns cov_matrix max_sharpe_weights min_vol_weights
        (S i) ts' (dict_set acc ticker entry)
  end.

(** Lines 57-113: pick the two distinguished samples and build the dict. *)
Definition assemble (tickers : list string) (mean_returns : vector)
    (cov_matrix : matrix) (current : portfolio_point)
    (samples : list portfolio_point) : M optimization :=
  let results0 := map expected_return samples in
  let results1 := map volatility samples in
  let results2 := map sharpe_ratio samples in
  let weights_record := map weights samples in
  max_sharpe_idx <- np_argmax results2 ;;
  max_sharpe_return <- getitem results0 max_sharpe_idx ;;
  max_sharpe_vol <- getitem results1 max_sharpe_idx ;;
  max_sharpe_weights <- getitem weights_record max_sharpe_idx ;;
  min_vol_idx <- np_argmin results1 ;;
  min_vol_return <- getitem results0 min_vol_idx ;;
  min_vol_vol <- getitem results1 min_vol_idx ;;
  min_vol_weights <- getitem weights_record min_vol_idx ;;
  diversification <-
    _calculate_diversification_ratio cov_matrix max_sharpe_weights ;;
  stocks <- stock_loop mean_returns cov_matrix max_sharpe_weights
              min_vol_weights 0 tickers [] ;;
  max_sharpe_sharpe <- getitem results2 max_sharpe_idx ;;
  min_vol_sharpe <- getitem results2 min_vol_idx ;;
  ret {| tickers := tickers;
         current_portfolio := current;
         max_sharpe :=
           {| weights := max_sharpe_weights;
              expected_return := max_sharpe_return;
              volatility := max_sharpe_vol;
              sharpe_ratio := max_sharpe_sharpe |};
         min_volatility :=
           {| weights := min_vol_weights;
              expected_return := min_vol_return;
              volatility := min_vol_vol;
              sharpe_ratio := min_vol_sharpe |};
         stock_metrics := stocks;
         diversification_ratio := diversification;
         efficient_frontier :=
           {| returns := results0;
              volatilities := results1;
              sharpe_ratios := results2 |} |}.

(** [1/len(tickers)] repeated [len(tickers)] times (line 34). *)
Definition equal_weights (tickers : list string) : M vector :=
  match length tickers with
  | O => raise ZeroDivisionError
  | S _ => ret (repeat (Num 1 / of_nat (length tickers))%f64 (length tickers))
  end.

(** The body of the [try] block of [optimize_portfolio]. *)
Definition optimize_body (tickers : list string)
    (initial_weights : option vector) (rs : RandomState)
  : M (pydict optimization) * RandomState :=
  match yf_download tickers with
  | inl e => (inl e, rs)
  | inr data =>
      if empty data then (ret EmptyDict, rs)
      else
        let rets := dropna_rows (pct_change data) in
        let mean_returns := frame_mean (n_columns data) rets in
        let cov_matrix := frame_cov (n_columns data) rets in
        match
          (w0 <- match initial_weights with
                 | None => equal_weights tickers
                 | Some w => ret w
                 end ;;
           evaluate mean_returns cov_matrix w0)
        with
        | inl e => (inl e, rs)
        | inr current =>
            match sample_frontier mean_returns cov_matrix (length tickers)
                    num_portfolios rs with
            | (inl e, rs') => (inl e, rs')
            | (inr samples, rs') =>
                (r <- assemble tickers mean_returns cov_matrix current
                       samples ;;
                 ret (Dict r), rs')
            end
        end
  end.

Definition optimize_portfolio (tickers : list string)
    (initial_weights : option vector) (rs : RandomState)
  : M (pydict optimization) * RandomState :=
  let (r, rs') := optimize_body tickers initial_weights rs in
  (try_except r, rs').

(** Lines 150-183 of [calculate_portfolio_metrics]. *)
Definition metrics_of_returns (portfolio_returns : vector) : Metrics.t :=
  let n := length portfolio_returns in
  let total_return :=
    (pd_prod (map (fadd (Num 1)) portfolio_returns) - Num 1)%f64 in
  let annual_return := (total_return * Num 252 / of_nat n)%f64 in
  let annual_volatility :=
    (pd_std portfolio_returns * fsqrt (Num 252))%f64 in
  let sharpe_ratio :=
    if (annual_volatility >? Num 0)%f64
    then ((annual_return - risk_free_rate) / annual_volatility)%f64
    else Num 0 in
  let cumulative := cumprod (map (fadd (Num 1)) portfolio_returns) in
  let peak := expanding_max cumulative in
  let drawdown := zip_drawdown cumulative peak in
  let max_drawdown := pd_min drawdown in
  let downside_returns := negative portfolio_returns in
  let downside_deviation :=
    if Nat.ltb 0 (length downside_returns)
    then (fsqrt (pd_mean (map (fun x => (x * x)%f64) downside_returns))
          * fsqrt (Num 252))%f64
    else Num 0 in
  let sortino_ratio :=
    if (downside_deviation >? Num 0)%f64
    then ((annual_return - risk_free_rate) / downside_deviation)%f64
    else Num 0 in
  let calmar_ratio :=
    if fne max_drawdown (Num 0)
    then (annual_return / fabs max_drawdown)%f64
    else Num 0 in
  let wins := positive portfolio_returns in
  {| Metrics.total_return := total_return;
     Metrics.annual_return := annual_return;
     Metrics.annual_volatility := annual_volatility;
     Metrics.sharpe_ratio := sharpe_ratio;
     Metrics.sortino_ratio := sortino_ratio;
     Metrics.calmar_ratio := calmar_ratio;
     Metrics.max_drawdown := max_drawdown;
     Metrics.win_rate :=
       if Nat.ltb 0 n then (of_nat (length wins) / of_nat n)%f64
       else Num 0;
     Metrics.avg_win :=
       match wins with [] => Num 0 | _ => pd_mean wins end;
     Metrics.avg_loss :=
       match downside_returns with
       | [] => Num 0
       | _ => pd_mean downside_returns
       end;
     Metrics.profit_factor :=
       match downside_returns with
       | [] => Num 0
       | _ =>
           if fne (pd_sum downside_returns) (Num 0)
           then fabs (pd_sum wins / pd_sum downside_returns)%f64
           else Num 0
       end |}.

(** The body of the [try] block of [calculate_portfolio_metrics];
    [portfolio] is the dict from ticker to weight. *)
Definition metrics_body (portfolio : list (string * float64))
  : M (pydict Metrics.t) :=
  let tickers := map fst portfolio in
  let weights := map snd portfolio in
  match tickers with
  | [] => ret EmptyDict
  | _ =>
      data <- yf_download tickers ;;
      if empty data then ret EmptyDict
      else
        let rets := dropna_rows (pct_change data) in
        portfolio_returns <- frame_dot (n_columns data) rets weights ;;
        ret (Dict (metrics_of_returns portfolio_returns))
  end.

Definition calculate_portfolio_metrics (portfolio : list (string * float64))
  : M (pydict Metrics.t) :=
  try_except (metrics_body portfolio).

End FreePortfolioOptimizer.

(** ** Vocabulary of the statements *)

(** Sum of a list of reals. *)
Definition Rsum (xs : list R) : R := fold_right Rplus 0 xs.

(** The magnitudes the [i]-th call of [np.random.random(n)] delivers when the
    generator starts in state [rs]. *)
Definition draws (n : nat) (rs : RandomState) (i : nat) : list R :=
  map (fun k => variates rs (cursor rs + i * n + k)%nat) (seq 0 n).

(** A weight between 0 and 1. *)
Definition unit_weight (x : float64) : Prop :=
  exists r, x = Num r /\ 0 <= r <= 1.

(** The tolerance on the sum of [n] normalised weights: [n] times 2^-50,
    a few units in the last place for each of the [n] divisions and the
    [2 n] additions. *)
Definition tolerance (n : nat) : R := INR n / 2 ^ 50.

(** A weight vector on the simplex: every weight between 0 and 1, the sum
    equal to 1 within the tolerance. *)
Definition on_simplex (w : vector) : Prop :=
  Forall unit_weight w /\
  exists s, np_sum w = Num s /\ Rabs (s - 1) <= tolerance (length w).

(** The Sharpe ratio as the specification words it: excess return over
    volatility when the volatility is positive, 0 otherwise. *)
Definition guarded_sharpe (risk_free_rate r v : float64) : float64 :=
  if (v >? Num 0)%f64 then ((r - risk_free_rate) / v)%f64 else Num 0.

(** A generator about to deliver 0.0 and then 0.5 for ever. *)
Definition zero_then_half : RandomState :=
  {| variates := fun j => match j with O => 0 | S _ => 1 / 2 end;
     cursor := 0 |}.

(** A generator delivering 0.5 for ever. *)
Definition all_half : RandomState :=
  {| variates := fun _ => 1 / 2; cursor := 0 |}.

(** The same generator after seven variates have been consumed. *)
Definition all_half_later : RandomState :=
  {| variates := fun _ => 1 / 2; cursor := 7 |}.

Definition notnan (x : float64) : Prop := isnan x = false.

(** The moments [optimize_portfolio] estimates from a price table. *)
Definition mean_of (data : PriceData) : vector :=
  frame_mean (n_columns data) (dropna_rows (pct_change data)).
Definition cov_of (data : PriceData) : matrix :=
  frame_cov (n_columns data) (dropna_rows (pct_change data)).

(** The caller's weights, when given, have one entry per ticker. *)
Definition weights_fit (tks : list string) (iw : option vector) : Prop :=
  match iw with
  | None => True
  | Some w => length w = length tks
  end.

(** One ticker with three closing prices. *)
Definition single_ticker (p0 p1 p2 : R) : PriceData :=
  {| n_columns := 1; closes := [[p0]; [p1]; [p2]] |}.

(** Closing prices 1, 2, 3. *)
Definition three_days : PriceData := single_ticker 1 2 3.
Definition yf_three_days (_ : list string) : M PriceData := inr three_days.

(** A price that does not move. *)
Definition flat_days : PriceData := single_ticker 1 1 1.
Definition yf_flat_days (_ : list string) : M PriceData := inr flat_days.

(** Two closing prices, hence a single return. *)
Definition two_days : PriceData := {| n_columns := 1; closes := [[1]; [2]] |}.
Definition yf_two_days (_ : list string) : M PriceData := inr two_days.

(** A single closing price. *)
Definition one_day : PriceData := {| n_columns := 1; closes := [[1]] |}.
Definition yf_one_day (_ : list string) : M PriceData := inr one_day.

(** Two tickers over four days; the three returns of each are not
    proportional to those of the other. *)
Definition four_days : PriceData :=
  {| n_columns := 2; closes := [[1; 1]; [2; 1]; [3; 2]; [3; 4]] |}.
Definition yf_four_days (_ : list string) : M PriceData := inr four_days.

(** A price that falls and comes back: one loss, one gain. *)
Definition dip : PriceData := single_ticker 2 1 2.
Definition yf_dip (_ : list string) : M PriceData := inr dip.

(** A generator delivering 1/2, 1/3, 1/4, ...: never 0.0, never twice the
    same draw. *)
Definition harmonic : RandomState :=
  {| variates := fun j => / INR (j + 2); cursor := 0 |}.

(** Real-valued linear algebra, for statements in the specification's
    words. *)
Fixpoint Rdot (u v : list R) : R :=
  match u, v with
  | x :: u', y :: v' => x * y + Rdot u' v'
  | _, _ => 0
  end.

(** The quadratic form [w^T C w]. *)
Definition Rquad (C : list (list R)) (w : list R) : R :=
  Rdot w (map (fun row => Rdot row w) C).

Fixpoint Rdiag_from (i : nat) (C : list (list R)) : list R :=
  match C with
  | [] => []
  | row :: C' =>
      match nth_error row i with
      | Some x => x :: Rdiag_from (S i) C'
      | None => []
      end
  end.
Definition Rdiag (C : list (list R)) : list R := Rdiag_from 0 C.

Definition Rmean (xs : list R) : R := Rsum xs / INR (length xs).

(** The diversification ratio as the specification words it: the square
    root of the mean of the diagonal over the portfolio volatility, and 1
    when the portfolio volatility is 0. *)
Definition spec_diversification_ratio (C : list (list R)) (w : list R) : R :=
  let portfolio_volatility := sqrt (Rquad C w) in
  let average_individual_volatility := sqrt (Rmean (Rdiag C)) in
  if Req_dec_T portfolio_volatility 0 then 1
  else average_individual_volatility / portfolio_volatility.

(** The same ratio in float64 arithmetic, as the specification words it.
    The quadratic form [w^T C w] is the sum over [i] of [w_i] times the sum
    over [j] of [C_ij * w_j]; every sum starts at 0 and adds from the
    left. *)
Fixpoint dot_from (acc : float64) (u v : vector) : float64 :=
  match u, v with
  | x :: u', y :: v' => dot_from (acc + x * y)%f64 u' v'
  | _, _ => acc
  end.

Definition quadratic_form (C : matrix) (w : vector) : float64 :=
  dot_from (Num 0) w (map (fun row => dot_from (Num 0) row w) C).

(** The sum of the diagonal entries [C_ii], from row [i] on. *)
Fixpoint trace_from (acc : float64) (i : nat) (C : matrix) : float64 :=
  match C with
  | [] => acc
  | row :: C' => trace_from (acc + nth i row NaN)%f64 (S i) C'
  end.

Definition portfolio_volatility (C : matrix) (w : vector) : float64 :=
  fsqrt (quadratic_form C w).

(** The square root of the unweighted mean of the variances. *)
Definition average_individual_volatility (C : matrix) : float64 :=
  fsqrt (trace_from (Num 0) 0 C / of_nat (length C))%f64.

Definition diversification_as_specified (C : matrix) (w : vector)
  : float64 :=
  if feq (portfolio_volatility C w) (Num 0) then Num 1
  else (average_individual_volatility C / portfolio_volatility C w)%f64.

(** A real matrix as a float64 array. *)
Definition finite_matrix (C : list (list R)) : matrix := map (map Num) C.

Definition Rsquare (n : nat) (C : list (list R)) : Prop :=
  length C = n /\ Forall (fun row => length row = n) C.

(** A download that fails. *)
Definition yf_unavailable (_ : list string) : M PriceData :=
  inl DownloadError.

(** Every row of the table has one cell per column. *)
Definition well_formed (data : PriceData) : Prop :=
  Forall (fun row => length row = n_columns data) (closes data).

(** The daily returns [calculate_portfolio_metrics] works on. *)
Definition returns_of (data : PriceData) : matrix :=
  dropna_rows (pct_change data).

(** A point carries the specified Sharpe ratio of its own return and
    volatility. *)
Definition sharpe_as_specified (risk_free_rate : float64)
    (p : portfolio_point) : Prop :=
  sharpe_ratio p =
  guarded_sharpe risk_free_rate (expected_return p) (volatility p).

(** Real-valued counterparts of the return and moment computations. *)
Fixpoint Rzip_pct (cur prev : list R) : list R :=
  match cur, prev with
  | p :: cur', q :: prev' => (p / q + - 1) :: Rzip_pct cur' prev'
  | _, _ => []
  end.

Fixpoint Rpct_from (prev : list R) (rows : list (list R)) : list (list R) :=
  match rows with
  | [] => []
  | r :: rows' => Rzip_pct r prev :: Rpct_from r rows'
  end.

Definition Rcol (j : nat) (X : list (list R)) : list R :=
  map (fun row => nth j row 0) X.

(** Column [j] minus its mean. *)
Definition Rcentred (j : nat) (X : list (list R)) : list R :=
  map (fun x => x + - (Rsum (Rcol j X) / INR (length X))) (Rcol j X).

(** Entry-wise sum, multiple and linear combination of real vectors. *)
Fixpoint vadd (a b : list R) : list R :=
  match a, b with
  | x :: a', y :: b' => (x + y) :: vadd a' b'
  | _, _ => []
  end.

Definition vscale (x : R) (c : list R) : list R := map (Rmult x) c.

Fixpoint lincomb (N : nat) (w : list R) (cs : list (list R)) : list R :=
  match w, cs with
  | x :: w', c :: cs' => vadd (vscale x c) (lincomb N w' cs')
  | _, _ => repeat 0 N
  end.

(** The Gram matrix of a family of vectors, times [k]. *)
Definition gram (k : R) (cs : list (list R)) : list (list R) :=
  map (fun ci => map (fun cj => Rdot ci cj * k) cs) cs.

(** No price of the table is zero. *)
Definition nonzero_prices (data : PriceData) : Prop :=
  Forall (Forall (fun p => p <> 0)) (closes data).

(** A table the moments of which are defined: rectangular, at least three
    rows (two returns), no zero price. *)
Definition valid_table (data : PriceData) : Prop :=
  well_formed data /\ (3 <= length (closes data))%nat /\ nonzero_prices data.

(** A real matrix is positive semidefinite. *)
Definition psd (C : list (list R)) : Prop := forall w, 0 <= Rquad C w.

(** A square matrix of side [n]. *)
Definition square (n : nat) (m : matrix) : Prop :=
  length m = n /\ Forall (fun row => length row = n) m.

(** ** The callers: [main_pipeline.py], [dashboard.py] and the demo *)

(** [FreePortfolioOptimizer()]: the default of [risk_free_rate]. *)
Definition default_risk_free_rate : float64 := Num (4 / 100).

(** Text typed by the user, taken as 7-bit ASCII. *)
Definition seven_bit (c : ascii) : Prop := (nat_of_ascii c < 128)%nat.

Fixpoint ascii_text (s : string) : Prop :=
  match s with
  | EmptyString => True
  | String c s' => seven_bit c /\ ascii_text s'
  end.

(** The characters [str.strip()] removes: tab to carriage return, the four
    separators and the space. *)
Definition isspace (c : ascii) : bool :=
  let n := nat_of_ascii c in
  (Nat.leb 9 n && Nat.leb n 13) || (Nat.leb 28 n && Nat.leb n 32).

Fixpoint lstrip (s : string) : string :=
  match s with
  | EmptyString => EmptyString
  | String c s' => if isspace c then lstrip s' else s
  end.

Fixpoint rstrip (s : string) : string :=
  match s with
  | EmptyString => EmptyString
  | String c s' =>
      match rstrip s' with
      | EmptyString => if isspace c then EmptyString else String c EmptyString
      | r => String c r
      end
  end.

(** [s.strip()] *)
Definition strip (s : string) : string := rstrip (lstrip s).

Definition upper_char (c : ascii) : ascii :=
  let n := nat_of_ascii c in
  if Nat.leb 97 n && Nat.leb n 122 then ascii_of_nat (n - 32) else c.

(** [s.upper()] *)
Fixpoint upper (s : string) : string :=
  match s with
  | EmptyString => EmptyString
  | String c s' => String (upper_char c) (upper s')
  end.

(** [s.split(",")]: the pieces between the commas, at least one. *)
Fixpoint split_comma (s : string) : list string :=
  match s with
  | EmptyString => [EmptyString]
  | String c s' =>
      if Ascii.eqb c ","%char then EmptyString :: split_comma s'
      else match split_comma s' with
           | piece :: rest => String c piece :: rest
           | [] => [String c EmptyString]
           end
  end.

(** [[t.strip().upper() for t in pieces if t.strip()]] *)
Fixpoint clean_pieces (pieces : list string) : list string :=
  match pieces with
  | [] => []
  | t :: ts =>
      match strip t with
      | EmptyString => clean_pieces ts
      | _ => upper (strip t) :: clean_pieces ts
      end
  end.

(** Line 61 of [main_pipeline.py], lines 117 and 169 of [dashboard.py]. *)
Definition parse_tickers (tickers_input : string) : list string :=
  clean_pieces (split_comma tickers_input).

(** What the portfolio option of the menu ends in. *)
Inductive analysis : Type :=
| TooFewTickers
| CouldNotOptimize
| Reported (expected_return volatility sharpe_ratio : float64)
           (listing : list (string * float64)) (saved : optimization)
| Uncaught (e : exn).

(** Lines 58-87 of [main_pipeline.py]: parse, refuse fewer than two
    tickers, optimise, then print the max-Sharpe point with one line per
    [zip(tickers, weights)] pair and dump the result, or print that the
    portfolio could not be optimised. *)
Definition portfolio_option (yf_download : list string -> M PriceData)
    (tickers_input : string) (rs : RandomState) : analysis * RandomState :=
  let tickers := parse_tickers tickers_input in
  if Nat.ltb (length tickers) 2 then (TooFewTickers, rs)
  else
    match optimize_portfolio default_risk_free_rate yf_download tickers None
            rs with
    | (inl e, rs') => (Uncaught e, rs')
    | (inr EmptyDict, rs') => (CouldNotOptimize, rs')
    | (inr (Dict result), rs') =>
        (Reported (expected_return (max_sharpe result))
                  (volatility (max_sharpe result))
                  (sharpe_ratio (max_sharpe result))
                  (combine tickers (weights (max_sharpe result)))
                  result,
         rs')
    end.

(** Subscripting the result of [optimize_portfolio] by a key: the empty
    dict has none. *)
Definition subscript {A B} (d : pydict A) (field : A -> B) : M B :=
  match d with
  | EmptyDict => raise KeyError
  | Dict fields => ret (field fields)
  end.

Definition test_tickers : list string :=
  ["AAPL"; "MSFT"; "GOOGL"; "AMZN"; "TSLA"]%string.

(** Lines 189-202 of [optimizer.py]: the Sharpe ratio and the weight lines
    the demo prints. *)
Definition demo (yf_download : list string -> M PriceData)
    (rs : RandomState) : M (float64 * list (string * float64)) * RandomState :=
  match optimize_portfolio default_risk_free_rate yf_download test_tickers
          None rs with
  | (inl e, rs') => (inl e, rs')
  | (inr result, rs') =>
      (s <- subscript result (fun r => sharpe_ratio (max_sharpe r)) ;;
       w <- subscript result (fun r => weights (max_sharpe r)) ;;
       ret (s, combine test_tickers w),
       rs')
  end.

(** The generator after [k] more variates. *)
Definition advance (rs : RandomState) (k : nat) : RandomState :=
  {| variates := variates rs; cursor := cursor rs + k |}.

(** Last character of a string, if any. *)
Fixpoint last_char (s : string) : option ascii :=
  match s with
  | EmptyString => None
  | String c EmptyString => Some c
  | String _ s' => last_char s'
  end.

Fixpoint chars (s : string) : list ascii :=
  match s with
  | EmptyString => []
  | String c s' => c :: chars s'
  end.

(** A ticker as the optimizer receives it from its callers: not empty, no
    comma, no white space at either end, no lower-case letter. *)
Definition clean_ticker (t : string) : Prop :=
  t <> EmptyString /\
  ~ In ","%char (chars t) /\
  (forall c, hd_error (chars t) = Some c -> isspace c = false) /\
  (forall c, last_char t = Some c -> isspace c = false) /\
  upper t = t.

(** Reading a key of a dict. *)
Fixpoint dict_get {A} (d : list (string * A)) (k : string) : option A :=
  match d with
  | [] => None
  | (k', v) :: d' => if String.eqb k' k then Some v else dict_get d' k
  end.

(** [e] is the [stock_metrics] entry computed at position [i] (lines
    75-82). *)
Definition entry_at (risk_free_rate : float64) (mean_returns : vector)
    (cov_matrix : matrix) (max_sharpe_weights min_vol_weights : vector)
    (i : nat) (e : Stock.t) : Prop :=
  exists m row c,
    nth_error max_sharpe_weights i = Some (Stock.weight_max_sharpe e) /\
    nth_error min_vol_weights i = Some (Stock.weight_min_vol e) /\
    nth_error mean_returns i = Some m /\
    nth_error cov_matrix i = Some row /\
    nth_error row i = Some c /\
    Stock.annual_return e = (m * Num 252)%f64 /\
    Stock.annual_volatility e = fsqrt (c * Num 252)%f64 /\
    Stock.sharpe_ratio e
    = guarded_sharpe risk_free_rate (Stock.annual_return e)
        (Stock.annual_volatility e).

(** A drawdown between -100% and 0. *)
Definition drawdown_in_range (d : float64) : Prop :=
  exists x, d = Num x /\ -1 <= x <= 0.

(** [sep.join(ts)] *)
Fixpoint join (sep : string) (ts : list string) : string :=
  match ts with
  | [] => EmptyString
  | t :: ts' =>
      match ts' with
      | [] => t
      | _ => (t ++ sep ++ join sep ts')%string
      end
  end.

(** Line 67 of [main_pipeline.py]: the tickers as they are echoed. *)
Definition echo (tickers : list string) : string := join ", " tickers.

(** The gains and the losses of a series of real returns. *)
Definition gains (rs : list R) : list R := filter (fun r => Rltb 0 r) rs.
Definition losses (rs : list R) : list R := filter (fun r => Rltb r 0) rs.

(** ** Facts about float64 *)

Lemma Rltb_true (a b : R) : Rltb a b = true <-> a < b.
Proof. unfold Rltb; destruct (Rlt_dec a b); split; intros; auto; discriminate. Qed.

Lemma Rltb_false (a b : R) : Rltb a b = false <-> b <= a.
Proof.
  unfold Rltb; destruct (Rlt_dec a b); split; intros; try discriminate; lra.
Qed.

Lemma Rleb_true (a b : R) : Rleb a b = true <-> a <= b.
Proof. unfold Rleb; destruct (Rle_dec a b); split; intros; auto; discriminate. Qed.

Lemma Rleb_false (a b : R) : Rleb a b = false <-> b < a.
Proof.
  unfold Rleb; destruct (Rle_dec a b); split; intros; try discriminate; lra.
Qed.

Lemma Reqb_true (a b : R) : Reqb a b = true <-> a = b.
Proof. unfold Reqb; destruct (Req_dec_T a b); split; intros; auto; discriminate. Qed.

Lemma Reqb_false (a b : R) : Reqb a b = false <-> a <> b.
Proof.
  unfold Reqb; destruct (Req_dec_T a b); split; intros; auto;
    try discriminate; contradiction.
Qed.

Lemma fdiv_num (a b : R) : b <> 0 -> (Num a / Num b)%f64 = Num (a / b).
Proof.
  intros Hb; simpl. apply Reqb_false in Hb. now rewrite Hb.
Qed.

Lemma fdiv_zero_zero : (Num 0 / Num 0)%f64 = NaN.
Proof.
  simpl. replace (Reqb 0 0) with true by (symmetry; now apply Reqb_true).
  unfold Rsgn. destruct (Rlt_dec 0 0); [lra | reflexivity].
Qed.

Lemma fsqrt_num (a : R) : 0 <= a -> fsqrt (Num a) = Num (sqrt a).
Proof.
  intros Ha; simpl. replace (Rltb a 0) with false; [reflexivity|].
  symmetry; now apply Rltb_false.
Qed.

Lemma fmul_nan_r (x : float64) : (x * NaN)%f64 = NaN.
Proof. now destruct x. Qed.

Lemma fadd_nan_r (x : float64) : (x + NaN)%f64 = NaN.
Proof. now destruct x. Qed.

Lemma fgt_num (a b : R) : (Num a >? Num b)%f64 = true <-> b < a.
Proof. unfold fgt; simpl. apply Rltb_true. Qed.

(** ** Sums and normalisation *)

Lemma fold_fadd_num (xs : list R) (a : R) :
  fold_left fadd (map Num xs) (Num a) = Num (a + Rsum xs).
Proof.
  revert a; induction xs as [|x xs IH]; intros a; simpl.
  - f_equal; lra.
  - rewrite IH. f_equal; lra.
Qed.

Lemma np_sum_num (xs : list R) : np_sum (map Num xs) = Num (Rsum xs).
Proof. unfold np_sum. rewrite fold_fadd_num. f_equal; lra. Qed.

Lemma dropna_num (xs : list R) : dropna (map Num xs) = map Num xs.
Proof.
  unfold dropna. induction xs as [|x xs IH]; simpl; [reflexivity|].
  now rewrite IH.
Qed.

Lemma pd_sum_num (xs : list R) : pd_sum (map Num xs) = Num (Rsum xs).
Proof. unfold pd_sum. now rewrite dropna_num, np_sum_num. Qed.

Lemma zip_mul_finite (u v : list R) :
  exists l, zip_mul (map Num u) (map Num v) = map Num l.
Proof.
  revert v; induction u as [|x u IH]; intros [|y v];
    try (exists []; reflexivity).
  destruct (IH v) as [l Hl]. exists (x * y :: l). simpl. now rewrite Hl.
Qed.

Lemma div_scalar_num (xs : list R) (s : R) :
  s <> 0 ->
  div_scalar (map Num xs) (Num s) = map Num (map (fun x => x / s) xs).
Proof.
  intros Hs. unfold div_scalar. rewrite !map_map.
  apply map_ext; intros x. now apply fdiv_num.
Qed.

Lemma Rsum_div (xs : list R) (s : R) :
  Rsum (map (fun x => x / s) xs) = Rsum xs / s.
Proof.
  induction xs as [|x xs IH]; simpl.
  - unfold Rdiv; lra.
  - rewrite IH. unfold Rdiv; lra.
Qed.

Lemma Rsum_nonneg (xs : list R) : Forall (fun x => 0 <= x) xs -> 0 <= Rsum xs.
Proof.
  induction 1 as [|x xs Hx _ IH]; simpl; lra.
Qed.

Lemma Rsum_bound (xs : list R) (x : R) :
  Forall (fun y => 0 <= y) xs -> In x xs -> x <= Rsum xs.
Proof.
  induction 1 as [|y ys Hy Hys IH]; simpl; [tauto|].
  intros [->|Hin].
  - pose proof (Rsum_nonneg ys Hys). lra.
  - specialize (IH Hin). lra.
Qed.

Lemma Rsum_negative (l : list R) :
  l <> [] -> Forall (fun d => d < 0) l -> Rsum l < 0.
Proof.
  intros Hne H. induction H as [|d l Hd Hl IH]; [congruence|].
  cbn [Rsum fold_right]. destruct l as [|e l].
  - cbn [fold_right]. lra.
  - assert (Rsum (e :: l) < 0) by (apply IH; discriminate).
    unfold Rsum in *. lra.
Qed.

Lemma Rsum_positive (l : list R) :
  l <> [] -> Forall (fun d => 0 < d) l -> 0 < Rsum l.
Proof.
  intros Hne H. induction H as [|d l Hd Hl IH]; [congruence|].
  cbn [Rsum fold_right]. destruct l as [|e l].
  - cbn [fold_right]. lra.
  - assert (0 < Rsum (e :: l)) by (apply IH; discriminate).
    unfold Rsum in *. lra.
Qed.

(** The generator [harmonic] stays inside the unit interval and never
    delivers 0.0. *)
Lemma harmonic_variate (j : nat) : 0 < / INR (j + 2) < 1.
Proof.
  assert (H : 2 <= INR (j + 2)).
  { rewrite plus_INR. pose proof (pos_INR j). simpl. lra. }
  split; [apply Rinv_0_lt_compat; lra|].
  rewrite <- Rinv_1. apply Rinv_lt_contravar; lra.
Qed.

Lemma harmonic_unit (j : nat) : unit_interval (variates harmonic j).
Proof.
  unfold unit_interval. cbn [harmonic variates].
  pose proof (harmonic_variate j). lra.
Qed.

Lemma harmonic_positive (n i : nat) :
  n <> 0%nat -> 0 < Rsum (draws n harmonic i).
Proof.
  intros Hn. apply Rsum_positive.
  - unfold draws. destruct n; [congruence|]. discriminate.
  - unfold draws. apply Forall_map, Forall_forall. intros k _.
    cbn [harmonic variates]. apply harmonic_variate.
Qed.

Lemma tolerance_nonneg (n : nat) : 0 <= tolerance n.
Proof.
  unfold tolerance. apply Rmult_le_pos; [apply pos_INR|].
  apply Rlt_le, Rinv_0_lt_compat, pow_lt. lra.
Qed.

(** Normalising non-negative magnitudes of positive sum lands on the
    simplex. *)
Lemma normalise_on_simplex (xs : list R) :
  Forall (fun x => 0 <= x) xs -> 0 < Rsum xs ->
  on_simplex (div_scalar (map Num xs) (np_sum (map Num xs))).
Proof.
  intros Hpos Hs. rewrite np_sum_num.
  rewrite div_scalar_num by lra. split.
  - apply Forall_forall. intros w Hw.
    apply in_map_iff in Hw as (y & <- & Hy).
    apply in_map_iff in Hy as (x & <- & Hx).
    exists (x / Rsum xs). split; [reflexivity|].
    pose proof (Rsum_bound xs x Hpos Hx) as Hle.
    assert (0 <= x) by (rewrite Forall_forall in Hpos; auto).
    split.
    + apply Rmult_le_pos; [lra|]. left. now apply Rinv_0_lt_compat.
    + apply Rmult_le_reg_r with (Rsum xs); [lra|].
      unfold Rdiv. rewrite Rmult_assoc, Rinv_l by lra. lra.
  - rewrite np_sum_num, Rsum_div. eexists. split; [reflexivity|].
    replace (Rsum xs / Rsum xs - 1) with 0 by (field; lra).
    rewrite Rabs_R0. apply tolerance_nonneg.
Qed.

(** ** Shapes: when [np.dot] does not raise *)

Lemma np_dot_ok (u v : vector) :
  length u = length v -> np_dot u v = inr (np_sum (zip_mul u v)).
Proof.
  intros H. unfold np_dot. rewrite H, Nat.eqb_refl. reflexivity.
Qed.

Lemma np_dot_mv_ok (m : matrix) (v : vector) :
  Forall (fun row => length row = length v) m ->
  np_dot_mv m v = inr (map (fun row => np_sum (zip_mul row v)) m).
Proof.
  induction 1 as [|row m Hrow _ IH]; simpl; [reflexivity|].
  rewrite (np_dot_ok _ _ Hrow). simpl. rewrite IH. reflexivity.
Qed.

Lemma scale_rows (c : float64) (m : matrix) (n : nat) :
  Forall (fun row => length row = n) m ->
  Forall (fun row => length row = n) (scale c m).
Proof.
  intros H. unfold scale. apply Forall_map.
  eapply Forall_impl; [|exact H]. intros row Hr; simpl.
  now rewrite length_map.
Qed.

Section Evaluate.

Variable risk_free_rate : float64.

(** Whatever [evaluate] returns carries the weights it was given and the
    guarded Sharpe ratio of its own return and volatility. *)
Lemma evaluate_inv (mean_returns : vector) (cov_matrix : matrix)
    (w : vector) (p : portfolio_point) :
  evaluate risk_free_rate mean_returns cov_matrix w = inr p ->
  weights p = w /\
  sharpe_ratio p =
    guarded_sharpe risk_free_rate (expected_return p) (volatility p).
Proof.
  unfold evaluate, bind, ret.
  destruct (series_mul mean_returns w); [discriminate|].
  destruct (np_dot_mv _ w); [discriminate|].
  destruct (np_dot w _); [discriminate|].
  intros H; injection H as <-. simpl. split; reflexivity.
Qed.

(** With conformable shapes [evaluate] does not raise. *)
Lemma evaluate_ok (mean_returns : vector) (cov_matrix : matrix) (w : vector) :
  length mean_returns = length w ->
  square (length w) cov_matrix ->
  exists p, evaluate risk_free_rate mean_returns cov_matrix w = inr p.
Proof.
  intros Hm [Hrows Hcols]. unfold evaluate, bind, ret.
  unfold series_mul. rewrite Hm, Nat.eqb_refl.
  rewrite np_dot_mv_ok by (now apply scale_rows).
  rewrite np_dot_ok.
  - eexists; reflexivity.
  - rewrite length_map. unfold scale. now rewrite length_map.
Qed.

End Evaluate.

(** ** The random generator *)

Lemma random_weights_fst (n : nat) (rs : RandomState) :
  fst (random_weights n rs) =
  div_scalar (map Num (draws n rs 0)) (np_sum (map Num (draws n rs 0))).
Proof.
  unfold random_weights, random, draws. simpl. rewrite Nat.add_0_r.
  now rewrite !map_map.
Qed.

Lemma random_weights_snd (n : nat) (rs : RandomState) :
  snd (random_weights n rs) =
  {| variates := variates rs; cursor := cursor rs + n |}.
Proof. reflexivity. Qed.

Lemma random_weights_length (n : nat) (rs : RandomState) :
  length (fst (random_weights n rs)) = n.
Proof.
  unfold random_weights, random, div_scalar. simpl.
  now rewrite !length_map, length_seq.
Qed.

Lemma draws_next (n : nat) (rs : RandomState) (i : nat) :
  draws n (snd (random_weights n rs)) i = draws n rs (S i).
Proof.
  rewrite random_weights_snd. unfold draws; simpl.
  apply map_ext; intros k. f_equal. lia.
Qed.

Lemma draws_nonneg (n : nat) (rs : RandomState) (i : nat) :
  (forall j, unit_interval (variates rs j)) ->
  Forall (fun x => 0 <= x) (draws n rs i).
Proof.
  intros H. unfold draws. apply Forall_map, Forall_forall.
  intros k _. apply H.
Qed.

(** ** The sampling loop *)

Section Sampling.

Variable risk_free_rate : float64.
Variables (mean_returns : vector) (cov_matrix : matrix) (n : nat).

Hypothesis mean_shape : length mean_returns = n.
Hypothesis cov_shape : square n cov_matrix.

Lemma trial_ok (rs : RandomState) :
  exists p,
    trial risk_free_rate mean_returns cov_matrix n rs
    = (inr p, snd (random_weights n rs)) /\
    weights p = fst (random_weights n rs).
Proof.
  unfold trial. destruct (random_weights n rs) as [w rs'] eqn:E.
  assert (Hw : length w = n).
  { pose proof (random_weights_length n rs) as H. now rewrite E in H. }
  destruct (evaluate_ok risk_free_rate mean_returns cov_matrix w) as [p Hp].
  - congruence.
  - now rewrite Hw.
  - exists p. rewrite Hp. split; [reflexivity|].
    apply evaluate_inv in Hp. tauto.
Qed.

(** With conformable moments the loop runs to its end and keeps one sample
    per pass. *)
Lemma sample_frontier_ok (k : nat) (rs : RandomState) :
  exists ps rs',
    sample_frontier risk_free_rate mean_returns cov_matrix n k rs
    = (inr ps, rs') /\ length ps = k.
Proof.
  revert rs; induction k as [|k IH]; intros rs; cbn [sample_frontier].
  - exists [], rs. split; reflexivity.
  - destruct (trial_ok rs) as (p & -> & _).
    destruct (IH (snd (random_weights n rs))) as (ps & rs' & -> & Hlen).
    exists (p :: ps), rs'. split; [reflexivity|]. simpl; congruence.
Qed.

(** The weights of the [i]-th sample are the [i]-th draw over its sum. *)
Lemma sample_frontier_weights (k : nat) (rs : RandomState)
    (ps : list portfolio_point) (rs' : RandomState) :
  sample_frontier risk_free_rate mean_returns cov_matrix n k rs
  = (inr ps, rs') ->
  forall i p, nth_error ps i = Some p ->
  weights p =
  div_scalar (map Num (draws n rs i)) (np_sum (map Num (draws n rs i))).
Proof.
  revert rs ps rs'; induction k as [|k IH]; intros rs ps rs';
    cbn [sample_frontier].
  - intros H; injection H as <- _. intros [|i] p; discriminate.
  - destruct (trial_ok rs) as (p0 & -> & Hw0).
    destruct (sample_frontier _ _ _ _ k _) as [[e|ps0] rs0] eqn:E;
      [discriminate|].
    intros H; injection H as <- _.
    intros [|i] p; simpl.
    + intros H; injection H as <-. rewrite Hw0. apply random_weights_fst.
    + intros H. rewrite (IH _ _ _ E i p H).
      now rewrite draws_next.
Qed.

End Sampling.

(** ** Sampled weights (C2) *)

(** C2, as amended.  In every pass of the sampling loop whose drawn
    magnitudes have a positive sum, the weight vector has every component
    between 0 and 1 and its components sum to 1 within the tolerance; with
    conformable moments the loop keeps all [k] samples. *)
Theorem sampled_weights_on_simplex (risk_free_rate : float64)
    (mean_returns : vector) (cov_matrix : matrix) (n k : nat)
    (rs : RandomState) :
  length mean_returns = n ->
  square n cov_matrix ->
  (forall j, unit_interval (variates rs j)) ->
  (forall i, (i < k)%nat -> 0 < Rsum (draws n rs i)) ->
  exists ps rs',
    sample_frontier risk_free_rate mean_returns cov_matrix n k rs
    = (inr ps, rs') /\
    length ps = k /\
    Forall (fun p => on_simplex (weights p)) ps.
Proof.
  intros Hm Hc Hu Hs.
  destruct (sample_frontier_ok risk_free_rate mean_returns cov_matrix n
              Hm Hc k rs) as (ps & rs' & E & Hlen).
  exists ps, rs'. repeat split; trivial.
  apply Forall_forall. intros p Hp.
  apply In_nth_error in Hp as [i Hi].
  rewrite (sample_frontier_weights _ _ _ _ Hm Hc _ _ _ _ E i p Hi).
  apply normalise_on_simplex.
  - now apply draws_nonneg.
  - apply Hs. rewrite <- Hlen. apply nth_error_Some. congruence.
Qed.

(** Three trials on two assets, with draws (1/2, 1/3), (1/4, 1/5) and
    (1/6, 1/7). *)
Lemma sampled_weights_on_simplex_witness :
  exists ps rs',
    sample_frontier (Num (4 / 100)) [Num 0; Num 0]
      [[Num 1; Num 0]; [Num 0; Num 1]] 2 3 harmonic
    = (inr ps, rs') /\
    length ps = 3%nat /\
    Forall (fun p => on_simplex (weights p)) ps.
Proof.
  apply sampled_weights_on_simplex.
  - reflexivity.
  - split; [reflexivity|]. repeat constructor.
  - exact harmonic_unit.
  - intros i _. apply harmonic_positive. discriminate.
Defined.

Lemma num_portfolios_succ : exists k, num_portfolios = S k.
Proof. exists (Nat.pred num_portfolios). reflexivity. Qed.

(** C2, as stated, fails: when the generator delivers 0.0 for a
    single-asset universe, the first of the 10000 samples has the weight
    vector [[NaN]], which is not on the simplex. *)
Lemma zero_draw_off_simplex :
  exists ps rs',
    sample_frontier (Num (4 / 100)) [Num 0] [[Num 1]] 1 num_portfolios
      zero_then_half = (inr ps, rs') /\
    (forall j, unit_interval (variates zero_then_half j)) /\
    nth_error (map weights ps) 0 = Some [NaN] /\
    ~ Forall (fun p => on_simplex (weights p)) ps.
Proof.
  assert (Hm : length [Num 0] = 1%nat) by reflexivity.
  assert (Hc : square 1 [[Num 1]]).
  { split; [reflexivity|]. repeat constructor. }
  destruct (sample_frontier_ok (Num (4 / 100)) _ _ _ Hm Hc num_portfolios
              zero_then_half) as (ps & rs' & E & Hlen).
  exists ps, rs'. split; [exact E|].
  destruct num_portfolios_succ as [k Hk]. rewrite Hk in Hlen.
  destruct ps as [|p ps]; [discriminate|].
  assert (Hw : weights p = [NaN]).
  { rewrite (sample_frontier_weights _ _ _ _ Hm Hc _ _ _ _ E 0%nat p eq_refl).
    rewrite np_sum_num.
    cbn [draws zero_then_half variates cursor seq map Nat.add Nat.mul
         Rsum fold_right div_scalar].
    replace (0 + 0) with 0 by lra. now rewrite fdiv_zero_zero. }
  split; [|split].
  - intros [|j]; unfold unit_interval; simpl; lra.
  - simpl. now rewrite Hw.
  - intros HF. inversion HF as [|? ? [Hu _] _]; subst.
    rewrite Hw in Hu. inversion Hu as [|? ? (r & Hr & _) _]; subst.
    discriminate.
Qed.

(** ** Order on float64, and the arg-extrema *)

Lemma fle_refl (x : float64) : notnan x -> fle x x = true.
Proof.
  destruct x; simpl; intros H; try reflexivity; try discriminate.
  apply Rleb_true; lra.
Qed.

Lemma fle_total (x y : float64) :
  notnan x -> notnan y -> fle x y = false -> fle y x = true.
Proof.
  destruct x, y; simpl; intros Hx Hy H; try reflexivity; try discriminate.
  apply Rleb_false in H. apply Rleb_true; lra.
Qed.

Lemma fle_trans (x y z : float64) :
  fle x y = true -> fle y z = true -> fle x z = true.
Proof.
  destruct x, y, z; simpl; intros H1 H2; try reflexivity; try discriminate.
  apply Rleb_true in H1, H2. apply Rleb_true; lra.
Qed.

(** The loop of [np.argmax], started after the prefix [pre] with the running
    maximum [best] found at [best_i]: on an array without NaN it ends on an
    entry that is at least every other. *)
Lemma argmax_from_spec (l v pre : vector) (best_i : nat) (best : float64) :
  l = pre ++ v ->
  Forall notnan l ->
  nth_error l best_i = Some best ->
  (forall x, In x pre -> fle x best = true) ->
  exists m,
    nth_error l (argmax_from best_i best (length pre) v) = Some m /\
    forall x, In x l -> fle x m = true.
Proof.
  revert pre best_i best.
  induction v as [|x v IH]; intros pre best_i best Hl Hnan Hbest Hpre.
  - simpl. exists best. split; [exact Hbest|].
    rewrite Hl, app_nil_r. exact Hpre.
  - assert (Hl' : l = (pre ++ [x]) ++ v) by (now rewrite <- app_assoc).
    assert (Hx : notnan x).
    { rewrite Forall_forall in Hnan. apply Hnan. rewrite Hl.
      apply in_or_app; right; now left. }
    assert (Hlen : length (pre ++ [x]) = S (length pre)).
    { rewrite length_app; simpl; lia. }
    assert (Hb : notnan best).
    { rewrite Forall_forall in Hnan. apply Hnan.
      eapply nth_error_In; eassumption. }
    cbn [argmax_from]. destruct (fle x best) eqn:E.
    + rewrite <- Hlen. apply IH; trivial.
      intros y Hy. apply in_app_or in Hy as [Hy|[<-|[]]]; auto.
    + rewrite Hx. rewrite <- Hlen. apply IH; trivial.
      * rewrite Hl. rewrite nth_error_app2 by lia.
        now rewrite Nat.sub_diag.
      * intros y Hy. apply in_app_or in Hy as [Hy|[<-|[]]].
        -- apply fle_trans with best; [now apply Hpre|].
           now apply fle_total.
        -- now apply fle_refl.
Qed.

Lemma argmin_from_spec (l v pre : vector) (best_i : nat) (best : float64) :
  l = pre ++ v ->
  Forall notnan l ->
  nth_error l best_i = Some best ->
  (forall x, In x pre -> fle best x = true) ->
  exists m,
    nth_error l (argmin_from best_i best (length pre) v) = Some m /\
    forall x, In x l -> fle m x = true.
Proof.
  revert pre best_i best.
  induction v as [|x v IH]; intros pre best_i best Hl Hnan Hbest Hpre.
  - simpl. exists best. split; [exact Hbest|].
    rewrite Hl, app_nil_r. exact Hpre.
  - assert (Hl' : l = (pre ++ [x]) ++ v) by (now rewrite <- app_assoc).
    assert (Hx : notnan x).
    { rewrite Forall_forall in Hnan. apply Hnan. rewrite Hl.
      apply in_or_app; right; now left. }
    assert (Hlen : length (pre ++ [x]) = S (length pre)).
    { rewrite length_app; simpl; lia. }
    assert (Hb : notnan best).
    { rewrite Forall_forall in Hnan. apply Hnan.
      eapply nth_error_In; eassumption. }
    cbn [argmin_from]. unfold fge. destruct (fle best x) eqn:E.
    + rewrite <- Hlen. apply IH; trivial.
      intros y Hy. apply in_app_or in Hy as [Hy|[<-|[]]]; auto.
    + rewrite Hx. rewrite <- Hlen. apply IH; trivial.
      * rewrite Hl. rewrite nth_error_app2 by lia.
        now rewrite Nat.sub_diag.
      * intros y Hy. apply in_app_or in Hy as [Hy|[<-|[]]].
        -- apply fle_trans with best; [|now apply Hpre].
           now apply fle_total.
        -- now apply fle_refl.
Qed.

(** [np.argmax] on an array without NaN returns the index of a maximum. *)
Lemma np_argmax_spec (v : vector) (i : nat) :
  np_argmax v = inr i -> Forall notnan v ->
  exists m, nth_error v i = Some m /\ forall x, In x v -> fle x m = true.
Proof.
  destruct v as [|x v]; [discriminate|].
  intros H Hnan. injection H as <-.
  assert (Hx : notnan x) by (now inversion Hnan).
  rewrite Hx.
  apply (argmax_from_spec (x :: v) v [x] 0 x); trivial.
  intros y [<-|[]]. now apply fle_refl.
Qed.

Lemma np_argmin_spec (v : vector) (i : nat) :
  np_argmin v = inr i -> Forall notnan v ->
  exists m, nth_error v i = Some m /\ forall x, In x v -> fle m x = true.
Proof.
  destruct v as [|x v]; [discriminate|].
  intros H Hnan. injection H as <-.
  assert (Hx : notnan x) by (now inversion Hnan).
  rewrite Hx.
  apply (argmin_from_spec (x :: v) v [x] 0 x); trivial.
  intros y [<-|[]]. now apply fle_refl.
Qed.

(** Both always return an index inside the array. *)
Lemma argmax_from_bound (v : vector) (best_i i : nat) (best : float64) :
  (best_i < i)%nat -> (argmax_from best_i best i v < i + length v)%nat.
Proof.
  revert best_i i best; induction v as [|x v IH]; intros best_i i best Hi;
    cbn [argmax_from length].
  - lia.
  - destruct (fle x best).
    + specialize (IH best_i (S i) best). lia.
    + destruct (isnan x); [lia|]. specialize (IH i (S i) x). lia.
Qed.

Lemma argmin_from_bound (v : vector) (best_i i : nat) (best : float64) :
  (best_i < i)%nat -> (argmin_from best_i best i v < i + length v)%nat.
Proof.
  revert best_i i best; induction v as [|x v IH]; intros best_i i best Hi;
    cbn [argmin_from length].
  - lia.
  - destruct (fge x best).
    + specialize (IH best_i (S i) best). lia.
    + destruct (isnan x); [lia|]. specialize (IH i (S i) x). lia.
Qed.

Lemma np_argmax_bound (v : vector) (i : nat) :
  np_argmax v = inr i -> (i < length v)%nat.
Proof.
  destruct v as [|x v]; [discriminate|]. intros H; injection H as <-.
  destruct (isnan x); simpl; [lia|].
  pose proof (argmax_from_bound v 0 1 x). lia.
Qed.

Lemma np_argmin_bound (v : vector) (i : nat) :
  np_argmin v = inr i -> (i < length v)%nat.
Proof.
  destruct v as [|x v]; [discriminate|]. intros H; injection H as <-.
  destruct (isnan x); simpl; [lia|].
  pose proof (argmin_from_bound v 0 1 x). lia.
Qed.

(** ** Building the result *)

Lemma getitem_inv {A} (l : list A) (i : nat) (x : A) :
  getitem l i = inr x -> nth_error l i = Some x.
Proof.
  unfold getitem. destruct (nth_error l i); [|discriminate].
  now intros H; injection H as <-.
Qed.

Lemma getitem_ok {A} (l : list A) (i : nat) :
  (i < length l)%nat -> exists x, getitem l i = inr x.
Proof.
  intros H. unfold getitem.
  destruct (nth_error l i) eqn:E; [eauto|].
  apply nth_error_None in E. lia.
Qed.

Lemma nth_error_map_inv {A B} (f : A -> B) (l : list A) (i : nat) (y : B) :
  nth_error (map f l) i = Some y ->
  exists x, nth_error l i = Some x /\ f x = y.
Proof.
  rewrite nth_error_map. destruct (nth_error l i); simpl; [|discriminate].
  intros H; injection H as <-. eauto.
Qed.

(** Peel one [bind] off a successful computation. *)
Ltac bind_inv H :=
  match type of H with
  | bind ?m _ = inr _ =>
      let E := fresh "E" in
      destruct m eqn:E; [discriminate H|]; cbn [bind] in H
  end.

Section Assemble.

Variable risk_free_rate : float64.

(** What a filled result says about the samples it was built from. *)
Lemma assemble_inv (tks : list string) (mean_returns : vector)
    (cov_matrix : matrix) (current : portfolio_point)
    (samples : list portfolio_point) (r : optimization) :
  assemble risk_free_rate tks mean_returns cov_matrix current samples
  = inr r ->
  exists i j,
    np_argmax (map sharpe_ratio samples) = inr i /\
    np_argmin (map volatility samples) = inr j /\
    nth_error samples i = Some (max_sharpe r) /\
    nth_error samples j = Some (min_volatility r) /\
    _calculate_diversification_ratio cov_matrix (weights (max_sharpe r))
    = inr (diversification_ratio r) /\
    efficient_frontier r =
      {| returns := map expected_return samples;
         volatilities := map volatility samples;
         sharpe_ratios := map sharpe_ratio samples |} /\
    current_portfolio r = current /\
    tickers r = tks.
Proof.
  unfold assemble. intros H.
  do 12 bind_inv H.
  injection H as <-. cbn.
  repeat match goal with
         | E : getitem _ _ = inr _ |- _ => apply getitem_inv in E
         end.
  exists n, n0. repeat split; trivial.
  - apply nth_error_map_inv in E0 as (p & Hp & <-), E1 as (p1 & Hp1 & <-),
      E2 as (p2 & Hp2 & <-), E9 as (p3 & Hp3 & <-).
    rewrite Hp in Hp1, Hp2, Hp3.
    injection Hp1 as <-; injection Hp2 as <-; injection Hp3 as <-.
    now destruct p.
  - apply nth_error_map_inv in E4 as (p & Hp & <-), E5 as (p1 & Hp1 & <-),
      E6 as (p2 & Hp2 & <-), E10 as (p3 & Hp3 & <-).
    rewrite Hp in Hp1, Hp2, Hp3.
    injection Hp1 as <-; injection Hp2 as <-; injection Hp3 as <-.
    now destruct p.
Qed.

End Assemble.

Lemma mean_of_length (data : PriceData) :
  length (mean_of data) = n_columns data.
Proof. unfold mean_of, frame_mean. now rewrite length_map, length_seq. Qed.

Lemma cov_of_square (data : PriceData) : square (n_columns data) (cov_of data).
Proof.
  unfold cov_of, frame_cov. split.
  - now rewrite length_map, length_seq.
  - apply Forall_map, Forall_forall. intros i _.
    now rewrite length_map, length_seq.
Qed.

Section Results.

Variable risk_free_rate : float64.
Variable yf_download : list string -> M PriceData.

Lemma diversification_ok (cov_matrix : matrix) (w : vector) :
  square (length w) cov_matrix ->
  exists d,
    _calculate_diversification_ratio cov_matrix w = inr d.
Proof.
  intros [Hr Hc]. unfold _calculate_diversification_ratio.
  rewrite np_dot_mv_ok by exact Hc. cbn [bind].
  rewrite np_dot_ok by (now rewrite length_map). cbn [bind].
  eexists; reflexivity.
Qed.

Lemma stock_loop_ok (mean_returns : vector) (cov_matrix : matrix)
    (wmax wmin : vector) (n : nat) :
  length mean_returns = n -> square n cov_matrix ->
  length wmax = n -> length wmin = n ->
  forall ts i acc, (i + length ts <= n)%nat ->
  exists d,
    stock_loop risk_free_rate mean_returns cov_matrix wmax wmin i ts acc
    = inr d.
Proof.
  intros Hm [Hr Hc] Hx Hn.
  induction ts as [|t ts IH]; intros i acc Hi; cbn [stock_loop length] in *.
  - eexists; reflexivity.
  - destruct (getitem_ok wmax i) as [a ->]; [lia|].
    destruct (getitem_ok wmin i) as [b ->]; [lia|].
    destruct (getitem_ok mean_returns i) as [m ->]; [lia|].
    destruct (getitem_ok cov_matrix i) as [row Hrow]; [lia|].
    rewrite Hrow. cbn [bind].
    assert (Hlen : length row = n).
    { rewrite Forall_forall in Hc. apply Hc.
      apply getitem_inv in Hrow. eapply nth_error_In; eassumption. }
    destruct (getitem_ok row i) as [c ->]; [lia|]. cbn [bind].
    apply IH. lia.
Qed.

Lemma assemble_ok (tks : list string) (mean_returns : vector)
    (cov_matrix : matrix) (current : portfolio_point)
    (samples : list portfolio_point) (n : nat) :
  length mean_returns = n -> square n cov_matrix -> length tks = n ->
  Forall (fun p => length (weights p) = n) samples ->
  samples <> [] ->
  exists r,
    assemble risk_free_rate tks mean_returns cov_matrix current samples
    = inr r.
Proof.
  intros Hm Hc Ht Hw Hne. unfold assemble.
  destruct (np_argmax (map sharpe_ratio samples)) as [e|i] eqn:Ei.
  { destruct samples; [congruence|discriminate]. }
  destruct (np_argmin (map volatility samples)) as [e|j] eqn:Ej.
  { destruct samples; [congruence|discriminate]. }
  apply np_argmax_bound in Ei. apply np_argmin_bound in Ej.
  rewrite length_map in Ei, Ej. cbn [bind].
  destruct (getitem_ok (map expected_return samples) i) as [a1 ->];
    [now rewrite length_map|].
  destruct (getitem_ok (map volatility samples) i) as [a2 ->];
    [now rewrite length_map|].
  destruct (getitem_ok (map weights samples) i) as [a3 Ha3];
    [now rewrite length_map|].
  destruct (getitem_ok (map expected_return samples) j) as [b1 ->];
    [now rewrite length_map|].
  destruct (getitem_ok (map volatility samples) j) as [b2 ->];
    [now rewrite length_map|].
  destruct (getitem_ok (map weights samples) j) as [b3 Hb3];
    [now rewrite length_map|].
  destruct (getitem_ok (map sharpe_ratio samples) i) as [a4 ->];
    [now rewrite length_map|].
  destruct (getitem_ok (map sharpe_ratio samples) j) as [b4 ->];
    [now rewrite length_map|].
  rewrite Ha3, Hb3. cbn [bind].
  assert (Hlen : forall w k, getitem (map weights samples) k = inr w ->
                             length w = n).
  { intros w k Hk. apply getitem_inv, nth_error_map_inv in Hk
      as (p & Hp & <-).
    rewrite Forall_forall in Hw. apply Hw.
    eapply nth_error_In; eassumption. }
  destruct (diversification_ok cov_matrix a3) as [d ->].
  { now rewrite (Hlen _ _ Ha3). }
  cbn [bind].
  destruct (stock_loop_ok mean_returns cov_matrix a3 b3 n Hm Hc
              (Hlen _ _ Ha3) (Hlen _ _ Hb3) tks 0%nat []) as [st ->];
    [simpl; lia|].
  cbn [bind]. eexists; reflexivity.
Qed.

(** A filled result comes from a non-empty table, a baseline, the samples of
    the loop and [assemble]. *)
Lemma optimize_inv (tks : list string) (iw : option vector)
    (rs rs' : RandomState) (r : optimization) :
  optimize_portfolio risk_free_rate yf_download tks iw rs
  = (inr (Dict r), rs') ->
  exists data samples,
    yf_download tks = inr data /\
    empty data = false /\
    sample_frontier risk_free_rate (mean_of data) (cov_of data) (length tks)
      num_portfolios rs = (inr samples, rs') /\
    assemble risk_free_rate tks (mean_of data) (cov_of data)
      (current_portfolio r) samples = inr r.
Proof.
  unfold optimize_portfolio, optimize_body.
  generalize num_portfolios; intros K.
  destruct (yf_download tks) as [e|data]; [discriminate|].
  destruct (empty data) eqn:Hemp; [discriminate|].
  fold (mean_of data) (cov_of data).
  match goal with |- context [bind ?m ?k] => destruct (bind m k) as [e|cur] end;
    [discriminate|].
  destruct (sample_frontier _ _ _ _ _ _) as [[e|samples] rs1] eqn:Es;
    [discriminate|].
  destruct (assemble _ _ _ _ cur samples) as [e|r0] eqn:Ea;
    [discriminate|].
  cbn. intros H. injection H as <- <-.
  exists data, samples. repeat split; trivial.
  pose proof (assemble_inv _ _ _ _ _ _ _ Ea)
    as (i & j & _ & _ & _ & _ & _ & _ & Hcur & _).
  rewrite Hcur. exact Ea.
Qed.

Lemma equal_weights_ok (tks : list string) :
  tks <> [] ->
  exists w, equal_weights tks = inr w /\ length w = length tks.
Proof.
  intros H. unfold equal_weights.
  destruct tks as [|t tks]; [congruence|]. cbn [length].
  eexists. split; [reflexivity|]. now rewrite repeat_length.
Qed.

Lemma sample_frontier_lengths (mean_returns : vector) (cov_matrix : matrix)
    (n k : nat) (rs rs' : RandomState) (ps : list portfolio_point) :
  length mean_returns = n -> square n cov_matrix ->
  sample_frontier risk_free_rate mean_returns cov_matrix n k rs
  = (inr ps, rs') ->
  Forall (fun p => length (weights p) = n) ps.
Proof.
  intros Hm Hc E. apply Forall_forall. intros p Hp.
  apply In_nth_error in Hp as [i Hi].
  rewrite (sample_frontier_weights _ _ _ _ Hm Hc _ _ _ _ E i p Hi).
  unfold div_scalar, draws. now rewrite !length_map, length_seq.
Qed.

(** With a non-empty table that has one column per ticker, and caller
    weights (if any) of that length, [optimize_portfolio] returns a filled
    result. *)
Lemma optimize_ok (tks : list string) (iw : option vector)
    (rs : RandomState) (data : PriceData) :
  yf_download tks = inr data ->
  empty data = false ->
  n_columns data = length tks ->
  weights_fit tks iw ->
  exists r rs',
    optimize_portfolio risk_free_rate yf_download tks iw rs
    = (inr (Dict r), rs').
Proof.
  intros Hd Hemp Hn Hw.
  unfold optimize_portfolio, optimize_body.
  pose proof num_portfolios_succ as [k0 Hk]. revert Hk.
  generalize num_portfolios; intros K HK.
  rewrite Hd, Hemp. fold (mean_of data) (cov_of data).
  pose proof (mean_of_length data) as Hm.
  pose proof (cov_of_square data) as Hc.
  rewrite Hn in Hm, Hc.
  assert (Hne : tks <> []).
  { intros ->. unfold empty in Hemp. rewrite Hn in Hemp. discriminate. }
  assert (H0 : exists w0,
             match iw with None => equal_weights tks | Some w => ret w end
             = inr w0 /\ length w0 = length tks).
  { destruct iw as [w|]; [exists w; split; [reflexivity|exact Hw]|].
    now apply equal_weights_ok. }
  destruct H0 as (w0 & -> & Hw0). cbn [bind].
  destruct (evaluate_ok risk_free_rate (mean_of data) (cov_of data) w0)
    as [cur ->]; [congruence | now rewrite Hw0 |].
  destruct (sample_frontier_ok risk_free_rate _ _ _ Hm Hc K rs)
    as (ps & rs' & E & Hlen).
  rewrite E.
  destruct (assemble_ok tks (mean_of data) (cov_of data) cur ps
              (length tks)) as [r ->]; trivial.
  - exact (sample_frontier_lengths _ _ _ _ _ _ _ Hm Hc E).
  - intros ->. simpl in Hlen. congruence.
  - exists r, rs'. reflexivity.
Qed.

End Results.

(** ** When the samples hold no NaN *)

Lemma zip_mul_num (u v : list R) :
  np_sum (zip_mul (map Num u) (map Num v)) = Num (Rdot u v).
Proof.
  unfold np_sum.
  assert (H : forall a, fold_left fadd (zip_mul (map Num u) (map Num v))
                          (Num a) = Num (a + Rdot u v)).
  { revert v; induction u as [|x u IH]; intros v a; simpl.
    - f_equal; lra.
    - destruct v as [|y v]; simpl; [f_equal; lra|].
      rewrite IH. f_equal; lra. }
  rewrite H. f_equal; lra.
Qed.

Lemma np_dot_inv (u v : vector) (q : float64) :
  np_dot u v = inr q -> q = np_sum (zip_mul u v) /\ length u = length v.
Proof.
  unfold np_dot. destruct (Nat.eqb (length u) (length v)) eqn:E;
    [|discriminate].
  intros H; injection H as <-. split; [reflexivity|].
  now apply Nat.eqb_eq.
Qed.

Lemma np_dot_mv_inv (m : matrix) (v cw : vector) :
  np_dot_mv m v = inr cw ->
  cw = map (fun row => np_sum (zip_mul row v)) m.
Proof.
  revert cw; induction m as [|row m IH]; intros cw; cbn [np_dot_mv map].
  - now intros H; injection H as <-.
  - intros H. bind_inv H. bind_inv H. injection H as <-.
    apply np_dot_inv in E as [-> _]. now rewrite (IH _ eq_refl).
Qed.

Lemma scale_finite (c : R) (C : list (list R)) :
  scale (Num c) (finite_matrix C)
  = finite_matrix (map (map (fun x => x * c)) C).
Proof.
  unfold scale, finite_matrix. rewrite !map_map. apply map_ext.
  intros row. now rewrite !map_map.
Qed.

Lemma Rdot_nil_r (u : list R) : Rdot u [] = 0.
Proof. now destruct u. Qed.

Lemma Rdot_scale_l (c : R) (u v : list R) :
  Rdot (map (fun x => x * c) u) v = c * Rdot u v.
Proof.
  revert v; induction u as [|x u IH]; intros [|y v]; simpl; try lra.
  rewrite IH. lra.
Qed.

Lemma Rquad_scale (c : R) (C : list (list R)) (w : list R) :
  Rquad (map (map (fun x => x * c)) C) w = c * Rquad C w.
Proof.
  unfold Rquad. rewrite map_map. generalize w at 1 3.
  intros u. revert C; induction u as [|x u IH]; intros [|row C]; simpl;
    try lra.
  rewrite IH, Rdot_scale_l. lra.
Qed.

(** The volatility [evaluate] computes for real moments and weights. *)
Lemma evaluate_finite (risk_free_rate : float64) (mean_returns : vector)
    (C : list (list R)) (ws : list R) (p : portfolio_point) :
  evaluate risk_free_rate mean_returns (finite_matrix C) (map Num ws)
  = inr p ->
  volatility p = fsqrt (Num (252 * Rquad C ws)).
Proof.
  unfold evaluate. intros H. bind_inv H. bind_inv H. bind_inv H.
  injection H as <-. cbn [volatility].
  rewrite scale_finite in E0. apply np_dot_mv_inv in E0. subst.
  apply np_dot_inv in E1 as [-> _].
  set (C' := map (map (fun x => x * 252)) C).
  assert (Hcw : map (fun row => np_sum (zip_mul row (map Num ws)))
                  (finite_matrix C')
                = map Num (map (fun row => Rdot row ws) C')).
  { unfold finite_matrix. rewrite !map_map. apply map_ext.
    intros row. apply zip_mul_num. }
  rewrite Hcw, zip_mul_num. fold (Rquad C' ws).
  unfold C'. now rewrite Rquad_scale.
Qed.

Lemma np_sum_nan (v : vector) : In NaN v -> np_sum v = NaN.
Proof.
  unfold np_sum. generalize (Num 0).
  induction v as [|x v IH]; intros a; [intros []|].
  intros [->|Hin]; simpl.
  - rewrite fadd_nan_r. clear IH. induction v as [|y v IH]; simpl; auto.
  - now apply IH.
Qed.

(** Weights that are all NaN give volatility NaN. *)
Lemma evaluate_nan (risk_free_rate : float64) (mean_returns : vector)
    (cov_matrix : matrix) (w : vector) (p : portfolio_point) :
  w <> [] -> Forall (fun x => x = NaN) w ->
  evaluate risk_free_rate mean_returns cov_matrix w = inr p ->
  volatility p = NaN.
Proof.
  intros Hne Hnan. unfold evaluate. intros H.
  bind_inv H. bind_inv H. bind_inv H.
  injection H as <-. cbn [volatility].
  apply np_dot_inv in E1 as [-> Hlen].
  rewrite np_sum_nan; [reflexivity|].
  destruct w as [|x w]; [congruence|].
  destruct v0 as [|y v0]; [discriminate|].
  inversion Hnan; subst. now left.
Qed.

(** Non-negative magnitudes over their sum: all numbers, or all NaN. *)
Lemma normalise_cases (ds : list R) :
  Forall (fun d => 0 <= d) ds ->
  let w := div_scalar (map Num ds) (np_sum (map Num ds)) in
  (exists ws, w = map Num ws) \/ (w <> [] /\ Forall (fun x => x = NaN) w).
Proof.
  intros Hpos. cbv zeta. rewrite np_sum_num.
  destruct (Req_dec_T (Rsum ds) 0) as [Hz|Hnz].
  - destruct ds as [|d ds]; [left; now exists []|]. right. split.
    + discriminate.
    + unfold div_scalar. rewrite map_map. apply Forall_map, Forall_forall.
      intros x Hx.
      assert (x = 0).
      { pose proof (Rsum_bound _ x Hpos Hx).
        rewrite Forall_forall in Hpos. specialize (Hpos x Hx). lra. }
      subst. rewrite Hz. apply fdiv_zero_zero.
  - left. eexists. now apply div_scalar_num.
Qed.

Lemma guarded_sharpe_notnan (rf0 e0 q : R) :
  notnan (guarded_sharpe (Num rf0) (Num e0) (fsqrt (Num q))).
Proof.
  unfold guarded_sharpe, notnan. simpl fsqrt.
  destruct (Rltb q 0); [reflexivity|].
  destruct (Num (sqrt q) >? Num 0)%f64 eqn:E; [|reflexivity].
  apply fgt_num in E. cbn [fsub fopp fadd].
  rewrite fdiv_num by lra. reflexivity.
Qed.

Lemma fsqrt_nan_inv (q : R) : 0 <= q -> notnan (fsqrt (Num q)).
Proof. intros H. now rewrite fsqrt_num. Qed.

Lemma evaluate_finite_return (risk_free_rate : float64) (ms : list R)
    (cov_matrix : matrix) (ws : list R) (p : portfolio_point) :
  evaluate risk_free_rate (map Num ms) cov_matrix (map Num ws) = inr p ->
  exists e0, expected_return p = Num e0.
Proof.
  unfold evaluate. intros H. bind_inv H. bind_inv H. bind_inv H.
  injection H as <-. cbn [expected_return].
  assert (Hv : exists l, v = map Num l).
  { unfold series_mul in E.
    destruct (Nat.eqb _ _).
    - injection E as <-. apply zip_mul_finite.
    - destruct ws as [|x [|? ?]]; try discriminate.
      injection E as <-. exists (map (fun y => y * x) ms).
      now rewrite !map_map. }
  destruct Hv as [l ->]. rewrite pd_sum_num. eexists. reflexivity.
Qed.

(** The loop keeps one sample per pass. *)
Lemma sample_frontier_length (risk_free_rate : float64)
    (mean_returns : vector) (cov_matrix : matrix) (n k : nat)
    (rs rs' : RandomState) (ps : list portfolio_point) :
  sample_frontier risk_free_rate mean_returns cov_matrix n k rs
  = (inr ps, rs') ->
  length ps = k.
Proof.
  revert rs ps rs'. induction k as [|k IH]; intros rs ps rs';
    cbn [sample_frontier].
  - intros E; now injection E as <- _.
  - destruct (trial _ _ _ _ rs) as [[e|p] rs1]; [discriminate|].
    destruct (sample_frontier _ _ _ _ k rs1) as [[e|ps0] rs2] eqn:E;
      [discriminate|].
    intros E'; injection E' as <- _. simpl. f_equal. eapply IH, E.
Qed.

(** Every sample is [evaluate] at its draw over the draw's sum. *)
Lemma sample_frontier_inv (risk_free_rate : float64)
    (mean_returns : vector) (cov_matrix : matrix) (n k : nat)
    (rs rs' : RandomState) (ps : list portfolio_point) :
  sample_frontier risk_free_rate mean_returns cov_matrix n k rs
  = (inr ps, rs') ->
  forall i p, nth_error ps i = Some p ->
  evaluate risk_free_rate mean_returns cov_matrix
    (div_scalar (map Num (draws n rs i)) (np_sum (map Num (draws n rs i))))
  = inr p.
Proof.
  revert rs ps rs'; induction k as [|k IH]; intros rs ps rs';
    cbn [sample_frontier].
  - intros H; injection H as <- _. intros [|i] p; discriminate.
  - unfold trial. pose proof (random_weights_fst n rs) as Hw.
    pose proof (draws_next n rs) as Hnext.
    destruct (random_weights n rs) as [w rs1]. cbn [fst snd] in Hw, Hnext.
    destruct (evaluate _ _ _ w) as [e|p0] eqn:Ep; [discriminate|].
    destruct (sample_frontier _ _ _ _ k rs1) as [[e|ps0] rs2] eqn:E;
      [discriminate|].
    intros H; injection H as <- _. intros [|i] p; cbn [nth_error].
    + intros H; injection H as <-. now rewrite <- Hw.
    + intros H. rewrite <- Hnext. exact (IH _ _ _ E i p H).
Qed.

Section NoNaN.

Variables (rf0 : R) (ms : list R) (C : list (list R)) (n k : nat).
Variables (rs rs' : RandomState) (ps : list portfolio_point).

Hypothesis run :
  sample_frontier (Num rf0) (map Num ms) (finite_matrix C) n k rs
  = (inr ps, rs').
Hypothesis unit_variates : forall j, unit_interval (variates rs j).

(** With a real risk-free rate and real moments no sampled Sharpe ratio is
    NaN, whatever is drawn. *)
Lemma samples_sharpe_notnan : Forall (fun p => notnan (sharpe_ratio p)) ps.
Proof.
  apply Forall_forall. intros p Hp. apply In_nth_error in Hp as [i Hi].
  pose proof (sample_frontier_inv _ _ _ _ _ _ _ _ run i p Hi) as Hev.
  pose proof (evaluate_inv _ _ _ _ _ Hev) as [_ ->].
  destruct (normalise_cases (draws n rs i) (draws_nonneg n rs i unit_variates))
    as [[ws Hws]|[Hne Hnan]].
  - rewrite Hws in Hev.
    destruct (evaluate_finite_return _ _ _ _ _ Hev) as [e0 ->].
    rewrite (evaluate_finite _ _ _ _ _ Hev).
    apply guarded_sharpe_notnan.
  - rewrite (evaluate_nan _ _ _ _ _ Hne Hnan Hev). reflexivity.
Qed.

(** With a positive semidefinite covariance no sampled volatility is NaN,
    as long as every draw has a positive sum. *)
Lemma samples_volatility_notnan :
  psd C ->
  (forall i, (i < k)%nat -> 0 < Rsum (draws n rs i)) ->
  Forall (fun p => notnan (volatility p)) ps.
Proof.
  intros Hpsd Hsum.
  pose proof (sample_frontier_length _ _ _ _ _ _ _ _ run) as Hlen.
  apply Forall_forall. intros p Hp. apply In_nth_error in Hp as [i Hi].
  pose proof (sample_frontier_inv _ _ _ _ _ _ _ _ run i p Hi) as Hev.
  assert (Hik : (i < k)%nat).
  { rewrite <- Hlen. apply nth_error_Some. congruence. }
  specialize (Hsum i Hik).
  rewrite np_sum_num, div_scalar_num in Hev by lra.
  rewrite (evaluate_finite _ _ _ _ _ Hev).
  apply fsqrt_nan_inv. specialize (Hpsd (map (fun x => x / Rsum (draws n rs i))
                                            (draws n rs i))). lra.
Qed.

End NoNaN.

(** ** The distinguished points (C1) *)

Section Extrema.

Variable risk_free_rate : float64.
Variable yf_download : list string -> M PriceData.

(** In every filled result the frontier holds one entry per pass of the
    loop, the two distinguished points are among the samples, and each is
    extremal as soon as the column it is chosen from holds no NaN. *)
Lemma optimize_extremal (tks : list string) (iw : option vector)
    (rs rs' : RandomState) (r : optimization) :
  optimize_portfolio risk_free_rate yf_download tks iw rs
  = (inr (Dict r), rs') ->
  let f := efficient_frontier r in
  length (sharpe_ratios f) = num_portfolios /\
  length (volatilities f) = num_portfolios /\
  In (sharpe_ratio (max_sharpe r)) (sharpe_ratios f) /\
  In (volatility (min_volatility r)) (volatilities f) /\
  (Forall notnan (sharpe_ratios f) ->
   forall s, In s (sharpe_ratios f) ->
             fge (sharpe_ratio (max_sharpe r)) s = true) /\
  (Forall notnan (volatilities f) ->
   forall v, In v (volatilities f) ->
             fle (volatility (min_volatility r)) v = true).
Proof.
  intros H. apply optimize_inv in H as (data & samples & Hd & Hemp & Es & Ea).
  pose proof (mean_of_length data) as Hm.
  pose proof (cov_of_square data) as Hc.
  apply assemble_inv in Ea
    as (i & j & Hi & Hj & Hmax & Hmin & _ & -> & _ & _).
  cbn [sharpe_ratios volatilities].
  pose proof (sample_frontier_length _ _ _ _ _ _ _ _ Es) as Hlen.
  rewrite !length_map. repeat split; trivial.
  - apply in_map. eapply nth_error_In; eassumption.
  - apply in_map. eapply nth_error_In; eassumption.
  - intros Hnan s Hs.
    destruct (np_argmax_spec _ _ Hi Hnan) as (m & Hm' & Hmaxm).
    rewrite nth_error_map, Hmax in Hm'. injection Hm' as <-.
    unfold fge. now apply Hmaxm.
  - intros Hnan v Hv.
    destruct (np_argmin_spec _ _ Hj Hnan) as (m & Hm' & Hminm).
    rewrite nth_error_map, Hmin in Hm'. injection Hm' as <-.
    now apply Hminm.
Qed.

End Extrema.

(** ** The sample covariance is positive semidefinite *)

Lemma Rdot_zeros_r (c : list R) (N : nat) : Rdot c (repeat 0 N) = 0.
Proof.
  revert N; induction c as [|x c IH]; intros [|N]; simpl; try lra.
  rewrite IH. lra.
Qed.

Lemma Rdot_zeros_l (c : list R) (N : nat) : Rdot (repeat 0 N) c = 0.
Proof.
  revert c; induction N as [|N IH]; intros [|x c]; simpl; try lra.
  rewrite IH. lra.
Qed.

Lemma Rdot_vscale_r (x : R) (c d : list R) :
  Rdot c (vscale x d) = x * Rdot c d.
Proof.
  revert d; induction c as [|y c IH]; intros [|z d];
    cbn [Rdot vscale map]; try lra.
  fold (vscale x d). rewrite IH. lra.
Qed.

Lemma Rdot_vscale_l (x : R) (c d : list R) :
  Rdot (vscale x d) c = x * Rdot d c.
Proof.
  revert c; induction d as [|z d IH]; intros [|y c];
    cbn [Rdot vscale map]; try lra.
  fold (vscale x d). rewrite IH. lra.
Qed.

Lemma Rdot_vadd_r (c a b : list R) :
  length a = length b -> Rdot c (vadd a b) = Rdot c a + Rdot c b.
Proof.
  revert a b; induction c as [|x c IH]; intros [|y a] [|z b] H; simpl;
    try lra; try discriminate.
  rewrite IH by (simpl in H; lia). lra.
Qed.

Lemma Rdot_vadd_l (c a b : list R) :
  length a = length b -> Rdot (vadd a b) c = Rdot a c + Rdot b c.
Proof.
  revert b c; induction a as [|y a IH]; intros [|z b] [|x c] H; simpl;
    try lra; try discriminate.
  rewrite IH by (simpl in H; lia). lra.
Qed.

Lemma vadd_length (a b : list R) :
  length a = length b -> length (vadd a b) = length a.
Proof.
  revert b; induction a as [|x a IH]; intros [|y b] H; simpl; auto;
    discriminate.
Qed.

Lemma lincomb_length (N : nat) (w : list R) (cs : list (list R)) :
  Forall (fun c => length c = N) cs -> length (lincomb N w cs) = N.
Proof.
  intros H; revert w. induction H as [|c cs Hc _ IH]; intros [|x w]; simpl;
    try apply repeat_length.
  rewrite vadd_length; unfold vscale; rewrite length_map; [exact Hc|].
  now rewrite IH.
Qed.

Lemma Rdot_self_nonneg (v : list R) : 0 <= Rdot v v.
Proof.
  induction v as [|x v IH]; simpl; [lra|]. pose proof (Rle_0_sqr x).
  unfold Rsqr in *. lra.
Qed.

Section Gram.

Variables (k : R) (N : nat).

(** A row of the Gram matrix against [w]. *)
Lemma gram_row (ci : list R) (cs : list (list R)) (w : list R) :
  Forall (fun c => length c = N) cs ->
  Rdot (map (fun cj => Rdot ci cj * k) cs) w
  = k * Rdot ci (lincomb N w cs).
Proof.
  intros H; revert w. induction H as [|c cs Hc Hcs IH]; intros [|x w];
    cbn [map Rdot lincomb]; try (rewrite Rdot_zeros_r; lra).
  rewrite IH, Rdot_vadd_r, Rdot_vscale_r.
  - lra.
  - unfold vscale. rewrite length_map, lincomb_length; assumption.
Qed.

Lemma gram_quad (L : list R) (cs : list (list R)) (w : list R) :
  length L = N ->
  Forall (fun c => length c = N) cs ->
  Rdot w (map (fun ci => k * Rdot ci L) cs)
  = k * Rdot (lincomb N w cs) L.
Proof.
  intros HL H; revert w. induction H as [|c cs Hc Hcs IH]; intros [|x w];
    cbn [map Rdot lincomb]; try (rewrite Rdot_zeros_l; lra).
  rewrite IH, Rdot_vadd_l, Rdot_vscale_l.
  - lra.
  - unfold vscale. rewrite length_map, lincomb_length; assumption.
Qed.

(** The Gram matrix of vectors of one length, times a non-negative factor,
    is positive semidefinite. *)
Lemma gram_psd (cs : list (list R)) :
  0 <= k -> Forall (fun c => length c = N) cs -> psd (gram k cs).
Proof.
  intros Hk H w. unfold Rquad, gram. rewrite map_map.
  rewrite (map_ext _ (fun ci => k * Rdot ci (lincomb N w cs))).
  - rewrite gram_quad; trivial.
    + apply Rmult_le_pos; [exact Hk | apply Rdot_self_nonneg].
    + now apply lincomb_length.
  - intros ci. now apply gram_row.
Qed.

End Gram.

(** ** The moments of a valid table are real *)

Lemma zip_pct_num (cur prev : list R) :
  Forall (fun p => p <> 0) prev ->
  zip_pct cur prev = map Num (Rzip_pct cur prev).
Proof.
  intros H; revert cur. induction H as [|q prev Hq _ IH]; intros [|p cur];
    cbn [zip_pct Rzip_pct map]; try reflexivity.
  rewrite IH, fdiv_num by exact Hq. reflexivity.
Qed.

Lemma Rzip_pct_length (cur prev : list R) :
  length (Rzip_pct cur prev) = Nat.min (length cur) (length prev).
Proof.
  revert prev; induction cur as [|p cur IH]; intros [|q prev]; simpl; auto.
Qed.

Lemma pct_change_from_num (prev : list R) (rows : list (list R)) :
  Forall (fun p => p <> 0) prev ->
  Forall (Forall (fun p => p <> 0)) rows ->
  pct_change_from prev rows = finite_matrix (Rpct_from prev rows).
Proof.
  intros Hp H; revert prev Hp.
  induction H as [|r rows Hr _ IH]; intros prev Hp;
    cbn [pct_change_from Rpct_from finite_matrix map]; [reflexivity|].
  rewrite zip_pct_num by exact Hp. f_equal. now apply IH.
Qed.

Lemma Rpct_from_rows (n : nat) (prev : list R) (rows : list (list R)) :
  length prev = n -> Forall (fun row => length row = n) rows ->
  Forall (fun row => length row = n) (Rpct_from prev rows) /\
  length (Rpct_from prev rows) = length rows.
Proof.
  intros Hp H; revert prev Hp.
  induction H as [|r rows Hr _ IH]; intros prev Hp; cbn [Rpct_from length].
  - split; [constructor | reflexivity].
  - destruct (IH r Hr) as [H1 H2]. split.
    + constructor; [|exact H1]. rewrite Rzip_pct_length. lia.
    + now rewrite H2.
Qed.

Lemma existsb_isnan_num (row : list R) : existsb isnan (map Num row) = false.
Proof. induction row as [|x row IH]; simpl; auto. Qed.

Lemma dropna_rows_finite (X : list (list R)) :
  dropna_rows (finite_matrix X) = finite_matrix X.
Proof.
  unfold dropna_rows, finite_matrix.
  induction X as [|row X IH]; cbn [map filter]; [reflexivity|].
  rewrite existsb_isnan_num. cbn [negb]. now rewrite IH.
Qed.

(** The returns of a valid table with at least one column. *)
Lemma valid_returns (data : PriceData) :
  valid_table data -> empty data = false ->
  exists X,
    returns_of data = finite_matrix X /\
    Forall (fun row => length row = n_columns data) X /\
    (2 <= length X)%nat.
Proof.
  intros (Hwf & Hlen & Hnz) Hemp. unfold well_formed, nonzero_prices in *.
  unfold returns_of, pct_change, empty in *.
  destruct (closes data) as [|r0 rows]; [simpl in Hlen; lia|].
  inversion Hwf as [|? ? H0 Hrows]; subst.
  inversion Hnz as [|? ? Hz0 Hzrows]; subst.
  exists (Rpct_from r0 rows).
  destruct (Rpct_from_rows (n_columns data) r0 rows H0 Hrows) as [H1 H2].
  split; [|split; [exact H1 | simpl in Hlen; lia]].
  rewrite pct_change_from_num by assumption.
  unfold dropna_rows at 1. cbn [filter].
  destruct r0 as [|p r0].
  - simpl in H0. rewrite <- H0 in Hemp. discriminate.
  - cbn [map existsb isnan orb negb]. apply dropna_rows_finite.
Qed.

Lemma column_num (j n : nat) (X : list (list R)) :
  (j < n)%nat -> Forall (fun row => length row = n) X ->
  column j (finite_matrix X) = map Num (Rcol j X).
Proof.
  intros Hj H. unfold column, Rcol, finite_matrix. rewrite !map_map.
  apply map_ext_in. intros row Hrow.
  rewrite Forall_forall in H. specialize (H row Hrow).
  rewrite (nth_indep _ NaN (Num 0)) by (rewrite length_map; lia).
  apply map_nth.
Qed.

Section Moments.

Variables (n : nat) (X : list (list R)).
Hypothesis rows : Forall (fun row => length row = n) X.
Hypothesis two_rows : (2 <= length X)%nat.

Lemma Rcol_length (j : nat) : length (Rcol j X) = length X.
Proof. unfold Rcol. apply length_map. Qed.

Lemma INR_rows : INR (length X) <> 0.
Proof. apply not_0_INR. lia. Qed.

Lemma frame_mean_num :
  frame_mean n (finite_matrix X)
  = map Num (map (fun j => Rsum (Rcol j X) / INR (length X)) (seq 0 n)).
Proof.
  unfold frame_mean. rewrite map_map. apply map_ext_in. intros j Hj.
  apply in_seq in Hj. rewrite (column_num j n) by (trivial; lia).
  unfold pd_mean. rewrite pd_sum_num, dropna_num, length_map, Rcol_length.
  unfold of_nat. now rewrite fdiv_num by exact INR_rows.
Qed.

Lemma centred_num (j : nat) :
  (j < n)%nat ->
  centred j (finite_matrix X) = map Num (Rcentred j X).
Proof.
  intros Hj. unfold centred, Rcentred.
  rewrite (column_num j n) by trivial.
  unfold np_mean. rewrite np_sum_num, length_map, Rcol_length.
  unfold of_nat. rewrite fdiv_num by exact INR_rows.
  rewrite !map_map. reflexivity.
Qed.

Lemma Rcentred_length (j : nat) : length (Rcentred j X) = length X.
Proof. unfold Rcentred. now rewrite length_map, Rcol_length. Qed.

(** The covariance is the Gram matrix of the centred columns over
    [N - 1]. *)
Lemma frame_cov_num :
  frame_cov n (finite_matrix X)
  = finite_matrix (gram (1 / INR (length X - 1))
                     (map (fun j => Rcentred j X) (seq 0 n))).
Proof.
  unfold frame_cov, gram, finite_matrix. rewrite !map_map.
  apply map_ext_in. intros i Hi. apply in_seq in Hi.
  rewrite !map_map. apply map_ext_in. intros j Hj. apply in_seq in Hj.
  rewrite !centred_num by lia. rewrite zip_mul_num.
  unfold cov_fact. rewrite length_map.
  replace (Nat.leb (length X) 1) with false
    by (symmetry; apply Nat.leb_gt; lia).
  unfold of_nat. rewrite fdiv_num by (apply not_0_INR; lia).
  reflexivity.
Qed.

Lemma frame_cov_psd :
  psd (gram (1 / INR (length X - 1)) (map (fun j => Rcentred j X) (seq 0 n))).
Proof.
  apply gram_psd with (N := length X).
  - apply Rlt_le, Rdiv_lt_0_compat; [lra|]. apply lt_0_INR. lia.
  - apply Forall_map, Forall_forall. intros j _. apply Rcentred_length.
Qed.

End Moments.

(** A valid table with at least one column has real moments and a positive
    semidefinite covariance. *)
Lemma valid_moments (data : PriceData) :
  valid_table data -> empty data = false ->
  exists ms C,
    mean_of data = map Num ms /\
    cov_of data = finite_matrix C /\
    psd C.
Proof.
  intros Hv Hemp.
  destruct (valid_returns data Hv Hemp) as (X & HX & Hrows & Hlen).
  unfold mean_of, cov_of. fold (returns_of data). rewrite HX.
  eexists. eexists. split; [|split].
  - now apply frame_mean_num.
  - now apply frame_cov_num.
  - now apply frame_cov_psd.
Qed.

(** With a real risk-free rate and real moments, the frontier of a filled
    result holds no NaN Sharpe ratio; with a positive semidefinite
    covariance and draws of positive sum it holds no NaN volatility. *)
Lemma optimize_no_nan (rf0 : R) (yf_download : list string -> M PriceData)
    (tks : list string) (iw : option vector) (rs rs' : RandomState)
    (r : optimization) (data : PriceData) (ms : list R) (C : list (list R)) :
  optimize_portfolio (Num rf0) yf_download tks iw rs = (inr (Dict r), rs') ->
  yf_download tks = inr data ->
  mean_of data = map Num ms ->
  cov_of data = finite_matrix C ->
  (forall j, unit_interval (variates rs j)) ->
  Forall notnan (sharpe_ratios (efficient_frontier r)) /\
  (psd C ->
   (forall i, (i < num_portfolios)%nat ->
              0 < Rsum (draws (length tks) rs i)) ->
   Forall notnan (volatilities (efficient_frontier r))).
Proof.
  intros H Hd Hm Hc Hu.
  apply optimize_inv in H as (data0 & samples & Hd0 & _ & Es & Ea).
  rewrite Hd in Hd0. injection Hd0 as <-. rewrite Hm, Hc in Es.
  apply assemble_inv in Ea as (i & j & _ & _ & _ & _ & _ & -> & _ & _).
  cbn [sharpe_ratios volatilities]. split.
  - apply Forall_map. exact (samples_sharpe_notnan _ _ _ _ _ _ _ _ Es Hu).
  - intros Hpsd Hsum. apply Forall_map.
    exact (samples_volatility_notnan _ _ _ _ _ _ _ _ Es Hpsd Hsum).
Qed.

(** The returns of a single ticker over three days. *)
Lemma single_ticker_returns (p0 p1 p2 : R) :
  p0 <> 0 -> p1 <> 0 ->
  returns_of (single_ticker p0 p1 p2)
  = [[Num (p1 / p0 + - 1)]; [Num (p2 / p1 + - 1)]].
Proof.
  intros H0 H1. unfold returns_of, pct_change, single_ticker.
  cbn [closes map pct_change_from zip_pct].
  rewrite !fdiv_num by assumption. reflexivity.
Qed.

(** Its moments are real: the mean of the two returns and their sample
    variance, which is not negative. *)
Lemma single_ticker_moments (p0 p1 p2 : R) :
  p0 <> 0 -> p1 <> 0 ->
  let a := p1 / p0 + - 1 in
  let b := p2 / p1 + - 1 in
  exists m c,
    mean_of (single_ticker p0 p1 p2) = map Num [m] /\
    cov_of (single_ticker p0 p1 p2) = finite_matrix [[c]] /\
    m = (a + b) / 2 /\
    c = (a - m) * (a - m) + (b - m) * (b - m).
Proof.
  intros H0 H1 a b. unfold mean_of, cov_of.
  fold (returns_of (single_ticker p0 p1 p2)).
  rewrite single_ticker_returns by assumption. fold a b.
  assert (H2 : INR 2 <> 0) by (simpl; lra).
  assert (HI : INR 1 <> 0) by (simpl; lra).
  assert (Hmean : np_mean [Num a; Num b] = Num ((a + b) / 2)).
  { unfold np_mean. change [Num a; Num b] with (map Num [a; b]).
    rewrite np_sum_num, length_map. unfold of_nat. cbn [length Rsum fold_right].
    rewrite fdiv_num by exact H2. f_equal. simpl. f_equal. lra. }
  exists ((a + b) / 2).
  exists ((a - (a + b) / 2) * (a - (a + b) / 2)
          + (b - (a + b) / 2) * (b - (a + b) / 2)).
  split; [|split; [|split; reflexivity]].
  - unfold frame_mean. cbn [n_columns single_ticker seq map column nth].
    unfold pd_mean. change [Num a; Num b] with (map Num [a; b]).
    rewrite pd_sum_num, dropna_num, length_map. unfold of_nat.
    cbn [length]. rewrite fdiv_num by exact H2.
    cbn [Rsum fold_right]. do 2 f_equal. simpl. lra.
  - unfold frame_cov, centred, cov_fact.
    cbn [n_columns single_ticker seq map column nth length Nat.leb Nat.sub].
    rewrite Hmean. unfold of_nat. rewrite fdiv_num by exact HI.
    cbn [fsub fopp fadd zip_mul fmul np_sum fold_left finite_matrix map].
    do 3 f_equal. simpl. field.
Qed.

(** C1, as amended.  A run on a non-empty price table with one column per
    ticker returns a filled result whose frontier holds 10000 samples; the
    max-Sharpe point and the min-volatility point are two of them; the
    max-Sharpe point's Sharpe ratio is at least every sampled Sharpe ratio
    provided no sampled Sharpe ratio is NaN, and the min-volatility point's
    volatility is at most every sampled volatility provided no sampled
    volatility is NaN. *)
Theorem distinguished_points_extremal (risk_free_rate : float64)
    (yf_download : list string -> M PriceData) (tks : list string)
    (iw : option vector) (rs : RandomState) (data : PriceData) :
  yf_download tks = inr data ->
  empty data = false ->
  n_columns data = length tks ->
  weights_fit tks iw ->
  exists r rs',
    optimize_portfolio risk_free_rate yf_download tks iw rs
    = (inr (Dict r), rs') /\
    let f := efficient_frontier r in
    length (sharpe_ratios f) = num_portfolios /\
    length (volatilities f) = num_portfolios /\
    In (sharpe_ratio (max_sharpe r)) (sharpe_ratios f) /\
    In (volatility (min_volatility r)) (volatilities f) /\
    (Forall notnan (sharpe_ratios f) ->
     forall s, In s (sharpe_ratios f) ->
               fge (sharpe_ratio (max_sharpe r)) s = true) /\
    (Forall notnan (volatilities f) ->
     forall v, In v (volatilities f) ->
               fle (volatility (min_volatility r)) v = true).
Proof.
  intros Hd Hemp Hn Hw.
  destruct (optimize_ok risk_free_rate yf_download tks iw rs data Hd Hemp
              Hn Hw) as (r & rs' & E).
  exists r, rs'. split; [exact E|].
  exact (optimize_extremal _ _ _ _ _ _ _ E).
Qed.

(** Two tickers over [four_days], with a generator whose 10000 draws all
    differ and never hold 0.0: no sample is NaN in the idealised
    arithmetic, and both distinguished points are extremal. *)
Lemma distinguished_points_extremal_witness :
  exists r rs',
    optimize_portfolio (Num (4 / 100)) yf_four_days
      ["AAPL"; "MSFT"]%string None harmonic = (inr (Dict r), rs') /\
    let f := efficient_frontier r in
    length (sharpe_ratios f) = num_portfolios /\
    length (volatilities f) = num_portfolios /\
    (forall s, In s (sharpe_ratios f) ->
               fge (sharpe_ratio (max_sharpe r)) s = true) /\
    (forall v, In v (volatilities f) ->
               fle (volatility (min_volatility r)) v = true).
Proof.
  destruct (distinguished_points_extremal (Num (4 / 100)) yf_four_days
              ["AAPL"; "MSFT"]%string None harmonic four_days)
    as (r & rs' & E & Hl1 & Hl2 & _ & _ & Hmax & Hmin).
  - reflexivity.
  - reflexivity.
  - reflexivity.
  - exact I.
  - assert (Hv : valid_table four_days).
    { split; [|split].
      - repeat constructor.
      - simpl; lia.
      - repeat constructor; lra. }
    destruct (valid_moments four_days Hv eq_refl)
      as (ms & C & Hm & Hc & Hpsd).
    destruct (optimize_no_nan _ _ _ _ _ _ _ _ _ _ E eq_refl Hm Hc
                harmonic_unit) as [Hs Hvol].
    exists r, rs'. split; [exact E|]. cbv zeta.
    split; [exact Hl1|]. split; [exact Hl2|]. split.
    + exact (Hmax Hs).
    + apply Hmin, Hvol; [exact Hpsd|].
      intros i _. apply harmonic_positive. discriminate.
Defined.

(** A single asset with weight NaN has volatility NaN. *)
Lemma nan_weight_nan_volatility (risk_free_rate : float64)
    (mean_returns : vector) (c : float64) (p : portfolio_point) :
  evaluate risk_free_rate mean_returns [[c]] [NaN] = inr p ->
  volatility p = NaN.
Proof.
  unfold evaluate. intros H. bind_inv H.
  cbn [scale map np_dot_mv np_dot length Nat.eqb bind ret zip_mul np_sum
       fold_left] in H.
  rewrite !fmul_nan_r in H. cbn in H.
  now injection H as <-.
Qed.

Lemma sample_frontier_head (risk_free_rate : float64)
    (mean_returns : vector) (cov_matrix : matrix) (n k : nat)
    (rs rs' : RandomState) (ps : list portfolio_point) :
  sample_frontier risk_free_rate mean_returns cov_matrix n (S k) rs
  = (inr ps, rs') ->
  exists p ps',
    ps = p :: ps' /\
    evaluate risk_free_rate mean_returns cov_matrix
      (fst (random_weights n rs)) = inr p.
Proof.
  cbn [sample_frontier]. unfold trial.
  destruct (random_weights n rs) as [w rs1]. cbn [fst].
  destruct (evaluate _ _ _ w) as [e|p]; [discriminate|].
  destruct (sample_frontier _ _ _ _ k rs1) as [[e|ps0] rs2]; [discriminate|].
  intros H; injection H as <- _. eauto.
Qed.

Lemma zero_then_half_first : fst (random_weights 1 zero_then_half) = [NaN].
Proof.
  rewrite random_weights_fst, np_sum_num.
  cbn [draws zero_then_half variates cursor seq map Nat.add Nat.mul
       Rsum fold_right div_scalar].
  replace (0 + 0) with 0 by lra. now rewrite fdiv_zero_zero.
Qed.

(** C1, as stated, fails: when the generator delivers 0.0 first, the first
    sample of a single-asset run has weight NaN and volatility NaN,
    [np.argmin] stops on it, and the min-volatility point's volatility NaN
    is not at most any sampled volatility. *)
Lemma zero_draw_min_volatility_nan :
  exists r rs',
    optimize_portfolio (Num (4 / 100)) yf_three_days ["AAPL"%string] None
      zero_then_half = (inr (Dict r), rs') /\
    (forall j, unit_interval (variates zero_then_half j)) /\
    volatility (min_volatility r) = NaN /\
    length (volatilities (efficient_frontier r)) = num_portfolios /\
    forall v, In v (volatilities (efficient_frontier r)) ->
              fle (volatility (min_volatility r)) v = false.
Proof.
  destruct (optimize_ok (Num (4 / 100)) yf_three_days ["AAPL"%string] None
              zero_then_half three_days eq_refl eq_refl eq_refl I)
    as (r & rs' & E).
  exists r, rs'. split; [exact E|].
  pose proof (optimize_extremal _ _ _ _ _ _ _ E) as (_ & Hlen & _).
  apply optimize_inv in E as (data & samples & Hd & _ & Es & Ea).
  injection Hd as <-.
  apply assemble_inv in Ea as (i & j & _ & Hj & _ & Hmin & _ & Hf & _ & _).
  destruct num_portfolios_succ as [k Hk]. rewrite Hk in Es.
  apply sample_frontier_head in Es as (p & ps & -> & Hp).
  cbn [length] in Hp. rewrite zero_then_half_first in Hp.
  destruct (cov_of_square three_days) as [Hrows Hcols].
  destruct (cov_of three_days) as [|[|c [|? ?]] [|? ?]];
    try discriminate Hrows;
    try (inversion Hcols as [|? ? Hrow _]; discriminate Hrow).
  apply nan_weight_nan_volatility in Hp.
  cbn [map np_argmin] in Hj. rewrite Hp in Hj. cbn in Hj.
  injection Hj as <-. cbn in Hmin. injection Hmin as <-.
  rewrite Hp. split; [|repeat split; trivial].
  intros [|n]; unfold unit_interval; simpl; lra.
Qed.

(** The same happens without any unlucky draw when the table holds two
    rows only: the covariance of a single return is [0 * (1 / 0) = NaN], so
    every sampled volatility is NaN. *)
Lemma two_days_cov : cov_of two_days = [[NaN]].
Proof.
  unfold cov_of, pct_change, two_days.
  cbn [closes map pct_change_from zip_pct n_columns].
  rewrite fdiv_num by lra.
  unfold frame_cov, centred, cov_fact, dropna_rows.
  cbn [filter existsb isnan negb orb map seq column nth length Nat.leb
       fsub fopp fadd].
  unfold np_mean. cbn [np_sum fold_left length fadd]. unfold of_nat.
  rewrite !fdiv_num by (simpl; lra).
  cbn [map fsub fopp fadd zip_mul fmul np_sum fold_left].
  replace (Num 1 / Num 0)%f64 with PInf.
  - cbn [fmul fsgn]. unfold Rsgn.
    set (z := 0 + _).
    assert (Hz : z = 0) by (unfold z; simpl; field).
    rewrite Hz. destruct (Rlt_dec 0 0); [lra|]. reflexivity.
  - simpl. replace (Reqb 0 0) with true by (symmetry; now apply Reqb_true).
    unfold Rsgn. destruct (Rlt_dec 1 0); [lra|].
    destruct (Rlt_dec 0 1); [reflexivity|lra].
Qed.

Lemma nan_cov_nan_volatility (risk_free_rate : float64)
    (mean_returns w : vector) (p : portfolio_point) :
  evaluate risk_free_rate mean_returns [[NaN]] w = inr p ->
  volatility p = NaN.
Proof.
  unfold evaluate. intros H. bind_inv H. bind_inv H. bind_inv H.
  injection H as <-. cbn [volatility].
  apply np_dot_mv_inv in E0. cbn [scale map fmul] in E0. subst v0.
  apply np_dot_inv in E1 as [-> Hlen].
  destruct w as [|y [|? ?]]; try discriminate Hlen.
  cbn [zip_mul fmul]. rewrite fmul_nan_r. reflexivity.
Qed.

Lemma two_days_all_nan (rs : RandomState) :
  exists r rs',
    optimize_portfolio (Num (4 / 100)) yf_two_days ["AAPL"%string] None rs
    = (inr (Dict r), rs') /\
    Forall (fun v => v = NaN) (volatilities (efficient_frontier r)) /\
    volatility (min_volatility r) = NaN.
Proof.
  destruct (optimize_ok (Num (4 / 100)) yf_two_days ["AAPL"%string] None
              rs two_days eq_refl eq_refl eq_refl I) as (r & rs' & E).
  exists r, rs'. split; [exact E|].
  apply optimize_inv in E as (data & samples & Hd & _ & Es & Ea).
  injection Hd as <-. rewrite two_days_cov in Es.
  assert (Hall : Forall (fun p => volatility p = NaN) samples).
  { apply Forall_forall. intros p Hp. apply In_nth_error in Hp as [i Hi].
    pose proof (sample_frontier_inv _ _ _ _ _ _ _ _ Es i p Hi) as Hev.
    exact (nan_cov_nan_volatility _ _ _ _ Hev). }
  apply assemble_inv in Ea as (i & j & _ & _ & _ & Hmin & _ & -> & _ & _).
  cbn [volatilities]. split.
  - now apply Forall_map.
  - rewrite Forall_forall in Hall. apply Hall.
    eapply nth_error_In; eassumption.
Qed.

(** ** The Sharpe ratio of every evaluated portfolio (C5) *)

Section Sharpe.

Variable risk_free_rate : float64.
Variable yf_download : list string -> M PriceData.

Lemma sample_frontier_sharpe (mean_returns : vector) (cov_matrix : matrix)
    (n k : nat) (rs rs' : RandomState) (ps : list portfolio_point) :
  sample_frontier risk_free_rate mean_returns cov_matrix n k rs
  = (inr ps, rs') ->
  Forall (sharpe_as_specified risk_free_rate) ps.
Proof.
  revert rs ps rs'. induction k as [|k IH]; intros rs ps rs';
    cbn [sample_frontier].
  - intros E; injection E as <- _. constructor.
  - unfold trial. destruct (random_weights n rs) as [w rs1].
    destruct (evaluate _ _ _ w) as [e|p] eqn:Ep; [discriminate|].
    destruct (sample_frontier _ _ _ _ k rs1) as [[e|ps0] rs2] eqn:E;
      [discriminate|].
    intros E'; injection E' as <- _. constructor.
    + apply evaluate_inv in Ep. apply Ep.
    + eapply IH, E.
Qed.

(** The baseline of a filled result is [evaluate] at the caller's weights or
    at equal weights. *)
Lemma optimize_inv_current (tks : list string) (iw : option vector)
    (rs rs' : RandomState) (r : optimization) :
  optimize_portfolio risk_free_rate yf_download tks iw rs
  = (inr (Dict r), rs') ->
  exists data w0,
    yf_download tks = inr data /\
    match iw with None => equal_weights tks | Some w => ret w end = inr w0 /\
    evaluate risk_free_rate (mean_of data) (cov_of data) w0
    = inr (current_portfolio r).
Proof.
  unfold optimize_portfolio, optimize_body.
  generalize num_portfolios; intros K.
  destruct (yf_download tks) as [e|data]; [discriminate|].
  destruct (empty data) eqn:Hemp; [discriminate|].
  fold (mean_of data) (cov_of data).
  destruct (match iw with None => equal_weights tks | Some w => ret w end)
    as [e|w0] eqn:E0; [discriminate|]. cbn [bind].
  destruct (evaluate _ _ _ w0) as [e|cur] eqn:Ec; [discriminate|].
  destruct (sample_frontier _ _ _ _ _ _) as [[e|samples] rs1] eqn:Es;
    [discriminate|].
  destruct (assemble _ _ _ _ cur samples) as [e|r0] eqn:Ea;
    [discriminate|].
  cbn. intros H. injection H as <- <-.
  exists data, w0. repeat split; trivial.
  apply assemble_inv in Ea as (i & j & _ & _ & _ & _ & _ & _ & -> & _).
  exact Ec.
Qed.

(** In a filled result the baseline, the two distinguished points and every
    frontier entry carry the guarded Sharpe ratio of their own return and
    volatility. *)
Lemma optimize_sharpe (tks : list string) (iw : option vector)
    (rs rs' : RandomState) (r : optimization) :
  optimize_portfolio risk_free_rate yf_download tks iw rs
  = (inr (Dict r), rs') ->
  sharpe_as_specified risk_free_rate (current_portfolio r) /\
  sharpe_as_specified risk_free_rate (max_sharpe r) /\
  sharpe_as_specified risk_free_rate (min_volatility r) /\
  forall i s,
    nth_error (sharpe_ratios (efficient_frontier r)) i = Some s ->
    exists e v,
      nth_error (returns (efficient_frontier r)) i = Some e /\
      nth_error (volatilities (efficient_frontier r)) i = Some v /\
      s = guarded_sharpe risk_free_rate e v.
Proof.
  intros H.
  pose proof (optimize_inv_current _ _ _ _ _ H) as (d0 & w0 & _ & _ & Hc).
  apply optimize_inv in H as (data & samples & _ & _ & Es & Ea).
  apply sample_frontier_sharpe in Es. rewrite Forall_forall in Es.
  apply assemble_inv in Ea
    as (i & j & _ & _ & Hmax & Hmin & _ & -> & _ & _).
  repeat split.
  - apply evaluate_inv in Hc. apply Hc.
  - apply Es. eapply nth_error_In; eassumption.
  - apply Es. eapply nth_error_In; eassumption.
  - cbn [sharpe_ratios returns volatilities]. intros k s Hs.
    apply nth_error_map_inv in Hs as (p & Hp & <-).
    exists (expected_return p), (volatility p).
    rewrite !nth_error_map, Hp. repeat split.
    apply Es. eapply nth_error_In; eassumption.
Qed.

End Sharpe.

(** C5.  A run on a non-empty price table with one column per ticker raises
    nothing and returns a filled result in which the baseline, every one of
    the sampled portfolios and the two distinguished points have
    Sharpe ratio [(expected_return - r_f) / volatility] when the volatility
    is positive and 0 when it is not. *)
Theorem sharpe_ratio_guarded (risk_free_rate : float64)
    (yf_download : list string -> M PriceData) (tks : list string)
    (iw : option vector) (rs : RandomState) (data : PriceData) :
  yf_download tks = inr data ->
  empty data = false ->
  n_columns data = length tks ->
  weights_fit tks iw ->
  exists r rs',
    optimize_portfolio risk_free_rate yf_download tks iw rs
    = (inr (Dict r), rs') /\
    let sharpe e v :=
      if (v >? Num 0)%f64 then ((e - risk_free_rate) / v)%f64 else Num 0 in
    let f := efficient_frontier r in
    let ok p := sharpe_ratio p = sharpe (expected_return p) (volatility p) in
    ok (current_portfolio r) /\ ok (max_sharpe r) /\ ok (min_volatility r) /\
    length (sharpe_ratios f) = num_portfolios /\
    forall i s,
      nth_error (sharpe_ratios f) i = Some s ->
      exists e v,
        nth_error (returns f) i = Some e /\
        nth_error (volatilities f) i = Some v /\
        s = sharpe e v.
Proof.
  intros Hd Hemp Hn Hw.
  destruct (optimize_ok risk_free_rate yf_download tks iw rs data Hd Hemp
              Hn Hw) as (r & rs' & E).
  exists r, rs'. split; [exact E|].
  pose proof (optimize_sharpe _ _ _ _ _ _ _ E) as (H1 & H2 & H3 & H4).
  pose proof (optimize_extremal _ _ _ _ _ _ _ E) as (Hlen & _).
  cbv zeta. repeat split; trivial.
Qed.

(** On a price that does not move the baseline has volatility 0: the run
    raises nothing and the baseline's Sharpe ratio is 0. *)
Lemma sharpe_ratio_guarded_witness :
  exists r rs',
    optimize_portfolio (Num (4 / 100)) yf_flat_days ["AAPL"%string] None
      all_half = (inr (Dict r), rs') /\
    volatility (current_portfolio r) = Num 0 /\
    sharpe_ratio (current_portfolio r) = Num 0.
Proof.
  destruct (sharpe_ratio_guarded (Num (4 / 100)) yf_flat_days
              ["AAPL"%string] None all_half flat_days)
    as (r & rs' & E & Hcur & _).
  - reflexivity.
  - reflexivity.
  - reflexivity.
  - exact I.
  - exists r, rs'. split; [exact E|].
    assert (Hvol : volatility (current_portfolio r) = Num 0).
    { apply optimize_inv_current in E as (data & w0 & Hd & Hw0 & Hev).
      injection Hd as <-. cbn [equal_weights length repeat ret] in Hw0.
      injection Hw0 as <-.
      destruct (single_ticker_moments 1 1 1) as (m & c & _ & Hc & Hm & Hv);
        try lra.
      unfold flat_days in Hev. rewrite Hc in Hev.
      replace (Reqb 1 0) with false in Hev
        by (symmetry; apply Reqb_false; lra).
      change [Num (1 / 1)] with (map Num [1 / 1]) in Hev.
      rewrite (evaluate_finite _ _ _ _ _ Hev).
      replace (252 * Rquad [[c]] [1 / 1]) with 0.
      - rewrite fsqrt_num by lra. now rewrite sqrt_0.
      - unfold Rquad. simpl. rewrite Hv, Hm. field. }
    split; [exact Hvol|].
    rewrite Hcur, Hvol. unfold fgt. simpl.
    replace (Rltb 0 0) with false; [reflexivity|].
    symmetry. apply Rltb_false. lra.
Defined.

(** ** The diversification ratio (C6, C7, C9) *)

Lemma np_dot_mv_num (C : list (list R)) (w : list R) :
  Forall (fun row => length row = length w) C ->
  np_dot_mv (finite_matrix C) (map Num w)
  = inr (map Num (map (fun row => Rdot row w) C)).
Proof.
  intros H. unfold finite_matrix. rewrite np_dot_mv_ok.
  - f_equal. rewrite !map_map. apply map_ext. intros row.
    apply zip_mul_num.
  - apply Forall_map. eapply Forall_impl; [|exact H].
    intros row Hr; simpl. now rewrite !length_map.
Qed.

Lemma np_diag_num (C : list (list R)) :
  np_diag (finite_matrix C) = map Num (Rdiag C).
Proof.
  unfold np_diag, Rdiag, finite_matrix. generalize 0%nat.
  induction C as [|row C IH]; intros i; simpl; [reflexivity|].
  rewrite nth_error_map. destruct (nth_error row i); simpl; [|reflexivity].
  now rewrite IH.
Qed.

Lemma Rdiag_from_length (C : list (list R)) (n i : nat) :
  Forall (fun row => length row = n) C -> (i + length C <= n)%nat ->
  length (Rdiag_from i C) = length C.
Proof.
  revert i; induction C as [|row C IH]; intros i HC Hi; simpl; [reflexivity|].
  inversion HC as [|? ? Hrow HC']; subst. simpl in Hi.
  destruct (nth_error row i) eqn:E.
  - simpl. f_equal. apply IH; trivial. lia.
  - apply nth_error_None in E. lia.
Qed.

Lemma Rdiag_length (C : list (list R)) (n : nat) :
  Rsquare n C -> length (Rdiag C) = n.
Proof.
  intros [Hr Hc]. unfold Rdiag. rewrite (Rdiag_from_length C n); trivial.
  simpl; lia.
Qed.

(** On real inputs whose quadratic form and variances are not negative,
    the method computes the specified ratio. *)
Lemma diversification_refines (C : list (list R)) (w : list R) :
  Rsquare (length w) C ->
  Forall (fun x => 0 <= x) (Rdiag C) ->
  0 <= Rquad C w ->
  _calculate_diversification_ratio (finite_matrix C) (map Num w)
  = inr (Num (spec_diversification_ratio C w)).
Proof.
  intros [Hr Hc] Hdiag Hq. unfold _calculate_diversification_ratio.
  rewrite np_dot_mv_num by exact Hc. cbn [bind].
  rewrite np_dot_ok by (now rewrite !length_map).
  cbn [bind]. rewrite zip_mul_num. fold (Rquad C w).
  rewrite (fsqrt_num _ Hq). unfold ret. f_equal.
  unfold spec_diversification_ratio.
  destruct (Req_dec_T (sqrt (Rquad C w)) 0) as [Hz|Hnz].
  - replace ((Num (sqrt (Rquad C w)) >? Num 0)%f64) with false;
      [reflexivity|].
    symmetry. unfold fgt; simpl. apply Rltb_false. lra.
  - pose proof (sqrt_pos (Rquad C w)) as Hpos.
    replace ((Num (sqrt (Rquad C w)) >? Num 0)%f64) with true
      by (symmetry; apply fgt_num; lra).
    assert (Hw : w <> []).
    { intros ->. apply Hnz. unfold Rquad. simpl. apply sqrt_0. }
    rewrite np_diag_num. unfold np_mean. rewrite np_sum_num, length_map.
    unfold of_nat.
    rewrite (Rdiag_length C (length w)) by (split; assumption).
    assert (Hn : INR (length w) <> 0).
    { apply not_0_INR. destruct w; [congruence|discriminate]. }
    rewrite fdiv_num by exact Hn.
    assert (Hmean : 0 <= Rsum (Rdiag C) / INR (length w)).
    { apply Rmult_le_pos.
      - now apply Rsum_nonneg.
      - left. apply Rinv_0_lt_compat.
        destruct w; [congruence|]. apply lt_0_INR. simpl; lia. }
    rewrite (fsqrt_num _ Hmean).
    rewrite fdiv_num by exact Hnz.
    unfold Rmean. now rewrite (Rdiag_length C (length w)) by (split; assumption).
Qed.

(** The code's products and sums are those of the formula. *)
Lemma dot_from_spec (u v : vector) (acc : float64) :
  fold_left fadd (zip_mul u v) acc = dot_from acc u v.
Proof.
  revert v acc; induction u as [|x u IH]; intros [|y v] acc;
    cbn [zip_mul fold_left dot_from]; try reflexivity.
  apply IH.
Qed.

Lemma trace_from_spec (C : matrix) (n i : nat) (acc : float64) :
  Forall (fun row => length row = n) C -> (i + length C <= n)%nat ->
  length (np_diag_from i C) = length C /\
  fold_left fadd (np_diag_from i C) acc = trace_from acc i C.
Proof.
  revert i acc; induction C as [|row C IH]; intros i acc HC Hi;
    cbn [np_diag_from trace_from length fold_left] in *;
    [split; reflexivity|].
  inversion HC as [|? ? Hrow HC']; subst.
  destruct (nth_error row i) as [x|] eqn:E.
  - rewrite (nth_error_nth _ _ NaN E).
    cbn [length fold_left].
    destruct (IH (S i) (acc + x)%f64 HC') as [Hl Hf]; [lia|].
    now rewrite Hl, Hf.
  - apply nth_error_None in E. lia.
Qed.

(** A square root is NaN, infinite, or a number that is not negative. *)
Lemma fsqrt_cases (x : float64) :
  fsqrt x = NaN \/ fsqrt x = PInf \/ exists s, fsqrt x = Num s /\ 0 <= s.
Proof.
  destruct x as [a| | |]; cbn [fsqrt]; auto.
  destruct (Rltb a 0); [auto|].
  right; right. exists (sqrt a). split; [reflexivity | apply sqrt_pos].
Qed.

(** C6.  On a square covariance matrix and as many weights the method
    returns, in float64 arithmetic, the square root of the unweighted mean
    of the diagonal divided by the portfolio volatility
    [sqrt (w^T C w)], and 1 when that volatility is 0; this whenever the
    computed portfolio volatility is not NaN.  When it is NaN the method
    returns 1 as well. *)
Theorem diversification_ratio_as_specified (C : matrix) (w : vector) :
  square (length w) C ->
  (notnan (portfolio_volatility C w) ->
   _calculate_diversification_ratio C w
   = inr (diversification_as_specified C w)) /\
  (portfolio_volatility C w = NaN ->
   _calculate_diversification_ratio C w = inr (Num 1)).
Proof.
  intros [Hr Hc].
  assert (E : _calculate_diversification_ratio C w
              = inr (if (portfolio_volatility C w >? Num 0)%f64
                     then (average_individual_volatility C
                           / portfolio_volatility C w)%f64
                     else Num 1)).
  { unfold _calculate_diversification_ratio.
    rewrite np_dot_mv_ok by exact Hc. cbn [bind].
    rewrite np_dot_ok by (now rewrite length_map). cbn [bind].
    assert (Hq : np_sum (zip_mul w
                           (map (fun row => np_sum (zip_mul row w)) C))
                 = quadratic_form C w).
    { unfold np_sum, quadratic_form. rewrite dot_from_spec. f_equal.
      apply map_ext. intros row. apply dot_from_spec. }
    assert (Ha : np_mean (np_diag C)
                 = (trace_from (Num 0) 0 C / of_nat (length C))%f64).
    { unfold np_mean, np_sum, np_diag.
      destruct (trace_from_spec C (length w) 0 (Num 0) Hc) as [Hl Hf];
        [simpl; lia|].
      now rewrite Hl, Hf. }
    rewrite Hq, Ha. reflexivity. }
  rewrite E. unfold diversification_as_specified, notnan.
  unfold portfolio_volatility.
  destruct (fsqrt_cases (quadratic_form C w))
    as [-> | [-> | (s & -> & Hs)]].
  - split; [discriminate | reflexivity].
  - split; [reflexivity | discriminate].
  - split; [|discriminate]. intros _. unfold fgt. cbn [flt feq].
    destruct (Req_dec_T s 0) as [Hz|Hnz].
    + replace (Rltb 0 s) with false by (symmetry; apply Rltb_false; lra).
      replace (Reqb s 0) with true by (symmetry; now apply Reqb_true).
      reflexivity.
    + replace (Rltb 0 s) with true by (symmetry; apply Rltb_true; lra).
      replace (Reqb s 0) with false by (symmetry; now apply Reqb_false).
      reflexivity.
Qed.

(** Variances 4 and 9, covariance 1, equal weights. *)
Lemma diversification_ratio_as_specified_witness :
  _calculate_diversification_ratio
    [[Num 4; Num 1]; [Num 1; Num 9]] [Num (1 / 2); Num (1 / 2)]
  = inr (diversification_as_specified
           [[Num 4; Num 1]; [Num 1; Num 9]] [Num (1 / 2); Num (1 / 2)]).
Proof.
  destruct (diversification_ratio_as_specified
              [[Num 4; Num 1]; [Num 1; Num 9]] [Num (1 / 2); Num (1 / 2)])
    as [H _].
  - split; [reflexivity|]. repeat constructor.
  - apply H. unfold notnan, portfolio_volatility, quadratic_form.
    cbn [map dot_from fadd fmul]. rewrite fsqrt_num by lra. reflexivity.
Defined.

(** C7.  With a single asset of positive variance and weight 1 on it, the
    diversification ratio is exactly 1. *)
Theorem single_asset_diversification (c : R) :
  0 < c ->
  _calculate_diversification_ratio [[Num c]] [Num 1] = inr (Num 1).
Proof.
  intros Hc.
  change [[Num c]] with (finite_matrix [[c]]).
  change [Num 1] with (map Num [1]).
  rewrite diversification_refines.
  - do 2 f_equal. unfold spec_diversification_ratio, Rquad, Rmean. simpl.
    replace (1 * (c * 1 + 0) + 0) with c by lra.
    replace ((c + 0) / 1) with c by (unfold Rdiv; lra).
    pose proof (sqrt_lt_R0 c Hc) as Hs.
    destruct (Req_dec_T (sqrt c) 0); [lra|]. field. lra.
  - split; [reflexivity|]. repeat constructor.
  - simpl. repeat constructor; lra.
  - unfold Rquad. simpl. lra.
Qed.

Lemma single_asset_diversification_witness :
  _calculate_diversification_ratio [[Num 4]] [Num 1] = inr (Num 1).
Proof.
  apply single_asset_diversification. lra.
Defined.



(** ** Reproducibility (C4) *)

Section Determinism.

Variable risk_free_rate : float64.
Variable yf_download : list string -> M PriceData.

Lemma trial_unfold (mean_returns : vector) (cov_matrix : matrix) (n : nat)
    (rs : RandomState) :
  trial risk_free_rate mean_returns cov_matrix n rs
  = (evaluate risk_free_rate mean_returns cov_matrix
       (fst (random_weights n rs)),
     snd (random_weights n rs)).
Proof. unfold trial. now destruct (random_weights n rs). Qed.

(** The samples depend on the generator only through the [k] draws the loop
    consumes. *)
Lemma sample_frontier_ext (mean_returns : vector) (cov_matrix : matrix)
    (n k : nat) (rs1 rs2 : RandomState) :
  (forall i, (i < k)%nat -> draws n rs1 i = draws n rs2 i) ->
  fst (sample_frontier risk_free_rate mean_returns cov_matrix n k rs1)
  = fst (sample_frontier risk_free_rate mean_returns cov_matrix n k rs2).
Proof.
  revert rs1 rs2. induction k as [|k IH]; intros rs1 rs2 H;
    cbn [sample_frontier]; [reflexivity|].
  rewrite !trial_unfold, !random_weights_fst.
  rewrite (H 0%nat) by lia.
  destruct (evaluate _ _ _ _) as [e|p]; [reflexivity|].
  specialize (IH (snd (random_weights n rs1)) (snd (random_weights n rs2))).
  destruct (sample_frontier _ _ _ _ k (snd (random_weights n rs1)))
    as [[e1|ps1] rs1'];
    destruct (sample_frontier _ _ _ _ k (snd (random_weights n rs2)))
    as [[e2|ps2] rs2']; cbn [fst] in *;
    (assert (Hd : forall i, (i < k)%nat ->
                   draws n (snd (random_weights n rs1)) i
                   = draws n (snd (random_weights n rs2)) i)
       by (intros i Hi; rewrite !draws_next; apply H; lia));
    specialize (IH Hd); congruence.
Qed.

Lemma draws_agree (n k : nat) (rs1 rs2 : RandomState) :
  (forall i, (i < k * n)%nat ->
             variates rs1 (cursor rs1 + i) = variates rs2 (cursor rs2 + i)) ->
  forall j, (j < k)%nat -> draws n rs1 j = draws n rs2 j.
Proof.
  intros H j Hj. unfold draws. apply map_ext_in. intros a Ha.
  apply in_seq in Ha. rewrite <- !Nat.add_assoc. apply H. nia.
Qed.

Lemma optimize_ext (tks : list string) (iw : option vector)
    (rs1 rs2 : RandomState) :
  (forall i, (i < num_portfolios)%nat ->
             draws (length tks) rs1 i = draws (length tks) rs2 i) ->
  fst (optimize_portfolio risk_free_rate yf_download tks iw rs1)
  = fst (optimize_portfolio risk_free_rate yf_download tks iw rs2).
Proof.
  unfold optimize_portfolio, optimize_body.
  generalize num_portfolios; intros K H.
  destruct (yf_download tks) as [e|data]; [reflexivity|].
  destruct (empty data); [reflexivity|].
  destruct (bind _ _) as [e|cur]; [reflexivity|].
  pose proof (sample_frontier_ext (frame_mean (n_columns data)
                 (dropna_rows (pct_change data)))
                (frame_cov (n_columns data) (dropna_rows (pct_change data)))
                (length tks) K rs1 rs2 H) as Hs.
  destruct (sample_frontier _ _ _ _ K rs1) as [[e1|ps1] rs1'];
    destruct (sample_frontier _ _ _ _ K rs2) as [[e2|ps2] rs2'];
    cbn [fst] in *; congruence.
Qed.

(** A run that completes consumes [k * n] variates, so a second run
    without reseeding starts from another state. *)
Lemma sample_frontier_consumes (mean_returns : vector) (cov_matrix : matrix)
    (n k : nat) (rs rs' : RandomState) (ps : list portfolio_point) :
  sample_frontier risk_free_rate mean_returns cov_matrix n k rs
  = (inr ps, rs') ->
  rs' = {| variates := variates rs; cursor := cursor rs + k * n |}.
Proof.
  revert rs ps rs'. induction k as [|k IH]; intros rs ps rs';
    cbn [sample_frontier].
  - intros H; injection H as _ <-. destruct rs; simpl. f_equal. lia.
  - rewrite trial_unfold.
    destruct (evaluate _ _ _ _) as [e|p]; [discriminate|].
    destruct (sample_frontier _ _ _ _ k _) as [[e|ps0] rs2] eqn:E;
      [discriminate|].
    intros H; injection H as _ <-.
    rewrite (IH _ _ _ E), random_weights_snd. simpl. f_equal. lia.
Qed.

End Determinism.

(** C4.  Two runs with the same inputs whose generators deliver the same
    variates over the steps the run consumes (as they do when seeded alike)
    produce the same sample set and the same result, distinguished points
    included. *)
Theorem sampler_reproducible (risk_free_rate : float64)
    (yf_download : list string -> M PriceData) (tks : list string)
    (iw : option vector) (mean_returns : vector) (cov_matrix : matrix)
    (rs1 rs2 : RandomState) :
  (forall i, (i < num_portfolios * length tks)%nat ->
             variates rs1 (cursor rs1 + i) = variates rs2 (cursor rs2 + i)) ->
  fst (sample_frontier risk_free_rate mean_returns cov_matrix (length tks)
         num_portfolios rs1)
  = fst (sample_frontier risk_free_rate mean_returns cov_matrix (length tks)
           num_portfolios rs2) /\
  fst (optimize_portfolio risk_free_rate yf_download tks iw rs1)
  = fst (optimize_portfolio risk_free_rate yf_download tks iw rs2).
Proof.
  intros H.
  pose proof (draws_agree (length tks) num_portfolios rs1 rs2 H) as Hd.
  split.
  - now apply sample_frontier_ext.
  - now apply optimize_ext.
Qed.

Lemma sampler_reproducible_witness :
  fst (sample_frontier (Num (4 / 100)) [Num 0] [[Num 1]]
         (length ["AAPL"%string]) num_portfolios all_half)
  = fst (sample_frontier (Num (4 / 100)) [Num 0] [[Num 1]]
           (length ["AAPL"%string]) num_portfolios all_half_later) /\
  fst (optimize_portfolio (Num (4 / 100)) yf_three_days ["AAPL"%string] None
         all_half)
  = fst (optimize_portfolio (Num (4 / 100)) yf_three_days ["AAPL"%string]
           None all_half_later).
Proof.
  apply sampler_reproducible. intros i _. reflexivity.
Defined.

(** ** Failures (C3) *)

(** C3, as stated, fails: a failed download, and caller weights of the
    wrong length, raise inside the method, and the caller receives the empty
    dict and no error; a table with a single row, too short for any return,
    is not treated as a failure at all and a filled result comes back. *)
Lemma failure_is_silent :
  fst (optimize_body (Num (4 / 100)) yf_unavailable ["AAPL"%string] None
         all_half) = inl DownloadError /\
  fst (optimize_portfolio (Num (4 / 100)) yf_unavailable ["AAPL"%string] None
         all_half) = inr EmptyDict /\
  fst (optimize_body (Num (4 / 100)) yf_three_days ["AAPL"%string]
         (Some [Num 1; Num 0]) all_half) = inl ValueError /\
  fst (optimize_portfolio (Num (4 / 100)) yf_three_days ["AAPL"%string]
         (Some [Num 1; Num 0]) all_half) = inr EmptyDict /\
  metrics_body (Num (4 / 100)) yf_unavailable [("AAPL"%string, Num 1)]
  = inl DownloadError /\
  calculate_portfolio_metrics (Num (4 / 100)) yf_unavailable
    [("AAPL"%string, Num 1)] = inr EmptyDict /\
  exists r rs',
    optimize_portfolio (Num (4 / 100)) yf_one_day ["AAPL"%string] None
      all_half = (inr (Dict r), rs').
Proof.
  repeat (split; [reflexivity|]).
  exact (optimize_ok (Num (4 / 100)) yf_one_day ["AAPL"%string] None
           all_half one_day eq_refl eq_refl eq_refl I).
Qed.

(** C3, as amended.  Neither method ever raises: an exception inside
    [optimize_portfolio] or [calculate_portfolio_metrics], an empty price
    table and an empty portfolio are all reported to the caller as the empty
    dict. *)
Theorem failures_return_empty_dict (risk_free_rate : float64)
    (yf_download : list string -> M PriceData) (tks : list string)
    (iw : option vector) (rs : RandomState)
    (portfolio : list (string * float64)) :
  (exists d,
     fst (optimize_portfolio risk_free_rate yf_download tks iw rs) = inr d /\
     (forall e,
        fst (optimize_body risk_free_rate yf_download tks iw rs) = inl e ->
        d = EmptyDict) /\
     (forall data, yf_download tks = inr data -> empty data = true ->
                   d = EmptyDict)) /\
  (exists d,
     calculate_portfolio_metrics risk_free_rate yf_download portfolio
     = inr d /\
     (forall e, metrics_body risk_free_rate yf_download portfolio = inl e ->
                d = EmptyDict) /\
     (portfolio = [] -> d = EmptyDict) /\
     (forall data, yf_download (map fst portfolio) = inr data ->
                   empty data = true -> d = EmptyDict)).
Proof.
  split.
  - unfold optimize_portfolio.
    assert (Hemp : forall data, yf_download tks = inr data ->
                   empty data = true ->
                   fst (optimize_body risk_free_rate yf_download tks iw rs)
                   = inr EmptyDict).
    { intros data Hd He. unfold optimize_body. now rewrite Hd, He. }
    destruct (optimize_body risk_free_rate yf_download tks iw rs)
      as [[e|d] rs'] eqn:E; cbn [fst try_except ret] in *.
    + exists EmptyDict. split; [reflexivity|]. split; reflexivity.
    + exists d. split; [reflexivity|]. split.
      * intros e He. discriminate.
      * intros data Hd He. specialize (Hemp data Hd He). congruence.
  - unfold calculate_portfolio_metrics.
    assert (Hnil : portfolio = [] ->
                   metrics_body risk_free_rate yf_download portfolio
                   = inr EmptyDict) by (now intros ->).
    assert (Hemp : forall data, yf_download (map fst portfolio) = inr data ->
                   empty data = true ->
                   metrics_body risk_free_rate yf_download portfolio
                   = inr EmptyDict).
    { intros data Hd He. unfold metrics_body.
      destruct (map fst portfolio); [reflexivity|].
      rewrite Hd. cbn [bind]. now rewrite He. }
    destruct (metrics_body risk_free_rate yf_download portfolio)
      as [e|d] eqn:E; cbn [try_except ret].
    + exists EmptyDict. split; [reflexivity|]. repeat split.
    + exists d. split; [reflexivity|]. split; [|split].
      * intros e He. discriminate.
      * intros Hp. specialize (Hnil Hp). congruence.
      * intros data Hd He. specialize (Hemp data Hd He). congruence.
Qed.

(** ** The backtest metrics (C8, C10) *)

Lemma zip_pct_length (cur prev : list R) :
  length (zip_pct cur prev) = Nat.min (length cur) (length prev).
Proof.
  revert prev; induction cur as [|p cur IH]; intros [|q prev]; simpl; auto.
Qed.

Lemma pct_change_from_rows (n : nat) (rows : list (list R)) (prev : list R) :
  length prev = n -> Forall (fun row => length row = n) rows ->
  Forall (fun row => length row = n) (pct_change_from prev rows).
Proof.
  intros Hp H; revert prev Hp.
  induction H as [|r rows Hr _ IH]; intros prev Hp; simpl; constructor.
  - rewrite zip_pct_length. lia.
  - now apply IH.
Qed.

Lemma returns_of_rows (data : PriceData) :
  well_formed data ->
  Forall (fun row => length row = n_columns data) (returns_of data).
Proof.
  unfold well_formed, returns_of, dropna_rows, pct_change. intros H.
  apply Forall_forall. intros row Hrow. apply filter_In in Hrow as [Hrow _].
  revert row Hrow. apply Forall_forall.
  destruct (closes data) as [|r0 rows]; [constructor|].
  inversion H as [|? ? H0 Hrows]; subst. constructor.
  - now rewrite length_map.
  - now apply pct_change_from_rows.
Qed.

Section Backtest.

Variable risk_free_rate : float64.
Variable yf_download : list string -> M PriceData.

Lemma sortino_no_downside (pr : vector) :
  negative pr = [] ->
  Metrics.sortino_ratio (metrics_of_returns risk_free_rate pr) = Num 0.
Proof.
  intros H. unfold metrics_of_returns. cbn [Metrics.sortino_ratio].
  rewrite H. cbn [length Nat.ltb Nat.leb]. unfold fgt; simpl.
  replace (Rltb 0 0) with false; [reflexivity|].
  symmetry. apply Rltb_false. lra.
Qed.

Lemma frame_dot_ok (data : PriceData) (w : vector) :
  well_formed data -> n_columns data = length w ->
  frame_dot (n_columns data) (returns_of data) w
  = inr (map (fun row => np_sum (zip_mul row w)) (returns_of data)).
Proof.
  intros Hwf Hn. unfold frame_dot. rewrite Hn, Nat.eqb_refl.
  apply np_dot_mv_ok. rewrite <- Hn. now apply returns_of_rows.
Qed.

(** With a well-formed, non-empty table that has one column per ticker the
    metrics are those of the table's returns weighted by the dict's values
    as they stand. *)
Lemma metrics_ok (portfolio : list (string * float64)) (data : PriceData) :
  portfolio <> [] ->
  yf_download (map fst portfolio) = inr data ->
  empty data = false ->
  well_formed data ->
  n_columns data = length portfolio ->
  calculate_portfolio_metrics risk_free_rate yf_download portfolio
  = inr (Dict (metrics_of_returns risk_free_rate
                 (map (fun row => np_sum (zip_mul row (map snd portfolio)))
                      (returns_of data)))).
Proof.
  intros Hne Hd Hemp Hwf Hn.
  unfold calculate_portfolio_metrics, metrics_body.
  destruct portfolio as [|kv portfolio]; [congruence|].
  cbn [map] in *. rewrite Hd. cbn [bind]. rewrite Hemp.
  fold (returns_of data).
  change (snd kv :: map snd portfolio) with (map snd (kv :: portfolio)).
  rewrite frame_dot_ok; [reflexivity | exact Hwf |].
  now rewrite length_map.
Qed.

End Backtest.

Lemma negative_num (rs : list R) : negative (map Num rs) = map Num (losses rs).
Proof.
  unfold negative, losses.
  induction rs as [|r rs IH]; cbn [map filter flt]; [reflexivity|].
  destruct (Rltb r 0); cbn [map]; now rewrite IH.
Qed.

(** On a series of real returns the Sortino ratio is 0 without a negative
    return, and otherwise divides by a deviation computed from the negative
    returns alone. *)
Lemma sortino_of_losses (risk_free_rate : float64) (rs : list R) :
  let m := metrics_of_returns risk_free_rate (map Num rs) in
  (losses rs = [] -> Metrics.sortino_ratio m = Num 0) /\
  (losses rs <> [] ->
   Metrics.sortino_ratio m
   = guarded_sharpe risk_free_rate (Metrics.annual_return m)
       (fsqrt (np_mean (map (fun x => (x * x)%f64) (map Num (losses rs))))
        * fsqrt (Num 252))%f64).
Proof.
  cbv zeta. split.
  - intros H. apply sortino_no_downside. now rewrite negative_num, H.
  - intros Hne. unfold metrics_of_returns.
    cbn [Metrics.sortino_ratio Metrics.annual_return].
    rewrite negative_num, length_map.
    replace (Nat.ltb 0 (length (losses rs))) with true
      by (symmetry; apply Nat.ltb_lt; destruct (losses rs);
          [congruence | simpl; lia]).
    rewrite map_map. cbn [fmul].
    rewrite <- (map_map (fun x => x * x) Num).
    unfold pd_mean, pd_sum, np_mean. rewrite dropna_num. reflexivity.
Qed.

(** C8.  The metrics of a non-empty portfolio over a well-formed table are
    returned without exception.  When the portfolio returns are real
    numbers, the Sortino ratio is 0 if none of them is negative; otherwise
    it is the excess annual return over the downside deviation, guarded
    like the Sharpe ratio, and the downside deviation is the square root of
    the mean of the squares of the returns below zero, and of no other
    return, times the square root of 252. *)
Theorem sortino_downside_only (risk_free_rate : float64)
    (yf_download : list string -> M PriceData)
    (portfolio : list (string * float64)) (data : PriceData) :
  portfolio <> [] ->
  yf_download (map fst portfolio) = inr data ->
  empty data = false ->
  well_formed data ->
  n_columns data = length portfolio ->
  exists m pr,
    calculate_portfolio_metrics risk_free_rate yf_download portfolio
    = inr (Dict m) /\
    frame_dot (n_columns data) (returns_of data) (map snd portfolio)
    = inr pr /\
    forall rs, pr = map Num rs ->
      (losses rs = [] -> Metrics.sortino_ratio m = Num 0) /\
      (losses rs <> [] ->
       Metrics.sortino_ratio m
       = guarded_sharpe risk_free_rate (Metrics.annual_return m)
           (fsqrt (np_mean (map (fun x => (x * x)%f64)
                              (map Num (losses rs))))
            * fsqrt (Num 252))%f64).
Proof.
  intros Hne Hd Hemp Hwf Hn.
  eexists. eexists. split; [|split].
  - now apply metrics_ok with (data := data).
  - apply frame_dot_ok; [exact Hwf | now rewrite length_map].
  - intros rs ->. apply sortino_of_losses.
Qed.

(** A price that goes from 2 to 1 and back to 2: the returns are -1/2 and
    1, and the downside deviation is computed from -1/2 alone. *)
Lemma sortino_downside_only_witness :
  exists m,
    calculate_portfolio_metrics (Num (4 / 100)) yf_dip
      [("AAPL"%string, Num 1)] = inr (Dict m) /\
    Metrics.sortino_ratio m
    = guarded_sharpe (Num (4 / 100)) (Metrics.annual_return m)
        (fsqrt (np_mean (map (fun x => (x * x)%f64) [Num (- (1 / 2))]))
         * fsqrt (Num 252))%f64.
Proof.
  destruct (sortino_downside_only (Num (4 / 100)) yf_dip
              [("AAPL"%string, Num 1)] dip)
    as (m & pr & E & Hpr & Hall).
  - discriminate.
  - reflexivity.
  - reflexivity.
  - repeat constructor.
  - reflexivity.
  - exists m. split; [exact E|].
    rewrite frame_dot_ok in Hpr; [| repeat constructor | reflexivity].
    assert (Hrs : pr = map Num [- (1 / 2); 1]).
    { assert (H : map (fun row => np_sum (zip_mul row
                                  (map snd [("AAPL"%string, Num 1)])))
                    (returns_of dip) = pr) by congruence.
      rewrite <- H. unfold dip. rewrite single_ticker_returns by lra.
      cbn [map snd zip_mul fmul np_sum fold_left fadd].
      replace (0 + (1 / 2 + - 1) * 1) with (- (1 / 2)) by lra.
      replace (0 + (2 / 1 + - 1) * 1) with 1 by lra.
      reflexivity. }
    assert (Hl : losses [- (1 / 2); 1] = [- (1 / 2)]).
    { unfold losses. cbn [filter].
      replace (Rltb (- (1 / 2)) 0) with true
        by (symmetry; apply Rltb_true; lra).
      replace (Rltb 1 0) with false
        by (symmetry; apply Rltb_false; lra).
      reflexivity. }
    destruct (Hall _ Hrs) as [_ H]. rewrite Hl in H.
    apply H. discriminate.
Defined.

(** C10.  Whatever the weights of a non-empty portfolio are (negative, not
    summing to 1, not even finite), the metrics are those of the returns
    weighted by these very values; the empty portfolio gives the empty
    dict. *)
Theorem raw_weights_used (risk_free_rate : float64)
    (yf_download : list string -> M PriceData)
    (portfolio : list (string * float64)) (data : PriceData) :
  portfolio <> [] ->
  yf_download (map fst portfolio) = inr data ->
  empty data = false ->
  well_formed data ->
  n_columns data = length portfolio ->
  calculate_portfolio_metrics risk_free_rate yf_download portfolio
  = inr (Dict (metrics_of_returns risk_free_rate
                 (map (fun row => np_sum (zip_mul row (map snd portfolio)))
                      (returns_of data)))) /\
  calculate_portfolio_metrics risk_free_rate yf_download [] = inr EmptyDict.
Proof.
  intros Hne Hd Hemp Hwf Hn. split.
  - now apply metrics_ok.
  - reflexivity.
Qed.

Lemma raw_weights_used_witness :
  calculate_portfolio_metrics (Num (4 / 100)) yf_three_days
    [("AAPL"%string, Num (-2))]
  = inr (Dict (metrics_of_returns (Num (4 / 100))
                 (map (fun row =>
                         np_sum (zip_mul row
                                   (map snd [("AAPL"%string, Num (-2))])))
                      (returns_of three_days)))) /\
  calculate_portfolio_metrics (Num (4 / 100)) yf_three_days [] = inr EmptyDict.
Proof.
  apply (raw_weights_used (Num (4 / 100)) yf_three_days
           [("AAPL"%string, Num (-2))] three_days).
  - discriminate.
  - reflexivity.
  - reflexivity.
  - repeat constructor.
  - reflexivity.
Defined.

(** * Further properties of the optimizer *)

(** ** When [optimize_portfolio] returns a filled result *)

Lemma np_dot_mv_shape (row : vector) (m : matrix) (v cw : vector) :
  np_dot_mv (row :: m) v = inr cw -> length row = length v.
Proof.
  cbn [np_dot_mv]. intros H. bind_inv H.
  now apply np_dot_inv in E as [_ E].
Qed.

(** [evaluate] succeeds only on weights that fit a non-empty covariance. *)
Lemma evaluate_shape (risk_free_rate : float64) (mean_returns : vector)
    (cov_matrix : matrix) (w : vector) (p : portfolio_point) (n : nat) :
  evaluate risk_free_rate mean_returns cov_matrix w = inr p ->
  square (S n) cov_matrix ->
  length w = S n.
Proof.
  unfold evaluate. intros H [Hr Hc]. bind_inv H. bind_inv H.
  destruct cov_matrix as [|row m]; [discriminate Hr|].
  cbn [scale map] in E0. apply np_dot_mv_shape in E0.
  rewrite length_map in E0. inversion Hc; subst. congruence.
Qed.

Section Filled.

Variable risk_free_rate : float64.
Variable yf_download : list string -> M PriceData.

Lemma optimize_never_raises (tks : list string) (iw : option vector)
    (rs : RandomState) :
  exists d, fst (optimize_portfolio risk_free_rate yf_download tks iw rs)
            = inr d.
Proof.
  unfold optimize_portfolio.
  destruct (optimize_body _ _ _ _ _) as [[e|d] rs']; cbn; eauto.
Qed.

Lemma filled_shape (tks : list string) (iw : option vector)
    (rs rs' : RandomState) (r : optimization) (data : PriceData) :
  yf_download tks = inr data ->
  optimize_portfolio risk_free_rate yf_download tks iw rs
  = (inr (Dict r), rs') ->
  n_columns data = length tks /\ weights_fit tks iw.
Proof.
  intros Hd E.
  pose proof (optimize_inv_current _ _ _ _ _ _ _ E)
    as (d0 & w0 & Hd0 & Hw0 & Hev).
  rewrite Hd in Hd0. injection Hd0 as <-.
  apply optimize_inv in E as (d1 & samples & Hd1 & Hemp & Es & _).
  rewrite Hd in Hd1. injection Hd1 as <-.
  assert (Hn : exists n, n_columns data = S n).
  { unfold empty in Hemp. destruct (n_columns data); [discriminate|eauto]. }
  destruct Hn as [n Hn].
  pose proof (cov_of_square data) as Hc. rewrite Hn in Hc.
  pose proof (sample_frontier_length _ _ _ _ _ _ _ _ Es) as Hlen.
  destruct num_portfolios_succ as [k Hk]. rewrite Hk in Hlen.
  destruct samples as [|p0 ps]; [discriminate|].
  pose proof (sample_frontier_inv _ _ _ _ _ _ _ _ Es 0%nat p0 eq_refl) as H0.
  apply evaluate_shape with (n := n) in H0; [|exact Hc].
  unfold div_scalar, draws in H0. rewrite !length_map, length_seq in H0.
  apply evaluate_shape with (n := n) in Hev; [|exact Hc].
  split; [congruence|].
  destruct iw as [w|]; [|exact I]. cbn in Hw0. injection Hw0 as ->.
  simpl. congruence.
Qed.

End Filled.

(** X1.  On a downloaded, non-empty table [optimize_portfolio] returns a
    filled result exactly when the table has one column per ticker and the
    caller's weights, if any, have one entry per ticker; in every other
    case it returns the empty dict. *)
Theorem filled_iff_shapes_fit (risk_free_rate : float64)
    (yf_download : list string -> M PriceData) (tks : list string)
    (iw : option vector) (rs : RandomState) (data : PriceData) :
  yf_download tks = inr data ->
  empty data = false ->
  ((n_columns data = length tks /\ weights_fit tks iw) ->
   exists r,
     fst (optimize_portfolio risk_free_rate yf_download tks iw rs)
     = inr (Dict r)) /\
  (~ (n_columns data = length tks /\ weights_fit tks iw) ->
   fst (optimize_portfolio risk_free_rate yf_download tks iw rs)
   = inr EmptyDict).
Proof.
  intros Hd Hemp. split.
  - intros [Hn Hw].
    destruct (optimize_ok risk_free_rate yf_download tks iw rs data Hd Hemp
                Hn Hw) as (r & rs' & E).
    exists r. now rewrite E.
  - intros Hno.
    destruct (optimize_never_raises risk_free_rate yf_download tks iw rs)
      as [[|r] E]; [exact E|].
    exfalso. apply Hno.
    destruct (optimize_portfolio risk_free_rate yf_download tks iw rs)
      as [res rs'] eqn:E'.
    cbn in E. subst res.
    exact (filled_shape _ _ _ _ _ _ _ _ Hd E').
Qed.

(** Two weights for one ticker: the empty dict. *)
Lemma filled_iff_shapes_fit_witness :
  fst (optimize_portfolio (Num (4 / 100)) yf_three_days ["AAPL"%string]
         (Some [Num 1; Num 0]) all_half) = inr EmptyDict.
Proof.
  destruct (filled_iff_shapes_fit (Num (4 / 100)) yf_three_days
              ["AAPL"%string] (Some [Num 1; Num 0]) all_half three_days
              eq_refl eq_refl) as [_ H].
  apply H. intros [_ Hw]. discriminate Hw.
Defined.

(** ** What a run does to the generator *)

Lemma draws_advance (n k : nat) (rs : RandomState) (i : nat) :
  draws n (advance rs (k * n)) i = draws n rs (k + i).
Proof.
  unfold draws, advance; simpl. apply map_ext. intros j. f_equal.
  rewrite Nat.mul_add_distr_r. lia.
Qed.

(** X2.  A run that returns a filled result has consumed exactly
    [num_portfolios * len(tickers)] variates, so that the next run's [i]-th
    draw is what would have been draw [num_portfolios + i] of this one; a
    run stopped by a failed download or an empty table consumes none. *)
Theorem generator_consumption (risk_free_rate : float64)
    (yf_download : list string -> M PriceData) (tks : list string)
    (iw : option vector) (rs : RandomState) :
  (forall r rs',
     optimize_portfolio risk_free_rate yf_download tks iw rs
     = (inr (Dict r), rs') ->
     rs' = advance rs (num_portfolios * length tks) /\
     forall i, draws (length tks) rs' i
               = draws (length tks) rs (num_portfolios + i)) /\
  ((exists e, yf_download tks = inl e) \/
   (exists data, yf_download tks = inr data /\ empty data = true) ->
   snd (optimize_portfolio risk_free_rate yf_download tks iw rs) = rs).
Proof.
  split.
  - intros r rs' E.
    apply optimize_inv in E as (data & samples & _ & _ & Es & _).
    apply sample_frontier_consumes in Es.
    assert (H : rs' = advance rs (num_portfolios * length tks))
      by exact Es.
    split; [exact H|]. intros i. rewrite H. apply draws_advance.
  - unfold optimize_portfolio, optimize_body.
    intros [[e He]|(data & Hd & Hemp)].
    + now rewrite He.
    + now rewrite Hd, Hemp.
Qed.

(** ** The baseline *)

Lemma Rsum_repeat (x : R) (n : nat) : Rsum (repeat x n) = INR n * x.
Proof.
  induction n as [|n IH]; [simpl; lra|].
  cbn [repeat Rsum fold_right]. fold (Rsum (repeat x n)).
  rewrite IH, S_INR. lra.
Qed.

Lemma equal_weights_inv (tks : list string) (w : vector) :
  equal_weights tks = inr w ->
  w = repeat (Num 1 / of_nat (length tks))%f64 (length tks) /\
  on_simplex w.
Proof.
  unfold equal_weights. destruct (length tks) as [|n] eqn:Hn; [discriminate|].
  intros H.
  assert (Hw : repeat (Num 1 / of_nat (S n))%f64 (S n) = w)
    by (unfold ret in H; congruence).
  subst w. clear H. split; [reflexivity|].
  assert (HI : 0 < INR (S n)) by (apply lt_0_INR; lia).
  unfold of_nat. rewrite fdiv_num by lra. split.
  - apply Forall_forall. intros x Hx. apply repeat_spec in Hx. subst x.
    exists (1 / INR (S n)). split; [reflexivity|].
    assert (1 <= INR (S n)) by (rewrite S_INR; pose proof (pos_INR n); lra).
    split.
    + apply Rlt_le, Rdiv_lt_0_compat; lra.
    + apply Rmult_le_reg_r with (INR (S n)); [exact HI|].
      unfold Rdiv. rewrite Rmult_assoc, Rinv_l by lra. lra.
  - rewrite <- map_repeat, np_sum_num, Rsum_repeat. eexists.
    split; [reflexivity|].
    replace (INR (S n) * (1 / INR (S n)) - 1) with 0 by (field; lra).
    rewrite Rabs_R0. apply tolerance_nonneg.
Qed.

(** X3.  The baseline of a filled result carries the caller's weights as
    they were passed, without any normalisation; when none are passed it
    carries the quotient [1/n] for each of the [n] tickers: weights between
    0 and 1 that sum to 1 within the tolerance. *)
Theorem baseline_weights (risk_free_rate : float64)
    (yf_download : list string -> M PriceData) (tks : list string)
    (iw : option vector) (rs : RandomState) (data : PriceData) :
  yf_download tks = inr data ->
  empty data = false ->
  n_columns data = length tks ->
  weights_fit tks iw ->
  exists r rs',
    optimize_portfolio risk_free_rate yf_download tks iw rs
    = (inr (Dict r), rs') /\
    match iw with
    | Some w => weights (current_portfolio r) = w
    | None =>
        weights (current_portfolio r)
        = repeat (Num 1 / of_nat (length tks))%f64 (length tks) /\
        on_simplex (weights (current_portfolio r))
    end.
Proof.
  intros Hd Hemp Hn Hw.
  destruct (optimize_ok risk_free_rate yf_download tks iw rs data Hd Hemp
              Hn Hw) as (r & rs' & E).
  exists r, rs'. split; [exact E|].
  apply optimize_inv_current in E as (d0 & w0 & _ & Hw0 & Hev).
  apply evaluate_inv in Hev as [-> _].
  destruct iw as [w|].
  - now injection Hw0 as <-.
  - now apply equal_weights_inv.
Qed.

(** Weights that are negative and do not sum to 1 are kept as they are. *)
Lemma baseline_weights_witness :
  exists r rs',
    optimize_portfolio (Num (4 / 100)) yf_three_days ["AAPL"%string]
      (Some [Num (-3)]) all_half = (inr (Dict r), rs') /\
    weights (current_portfolio r) = [Num (-3)].
Proof.
  apply (baseline_weights (Num (4 / 100)) yf_three_days ["AAPL"%string]
           (Some [Num (-3)]) all_half three_days); reflexivity.
Defined.

(** ** The reported points *)

Section Reported.

Variable risk_free_rate : float64.
Variable yf_download : list string -> M PriceData.

(** Every sample is [evaluate] at its own weights. *)
Lemma samples_consistent (mean_returns : vector) (cov_matrix : matrix)
    (n k : nat) (rs rs' : RandomState) (ps : list portfolio_point) :
  sample_frontier risk_free_rate mean_returns cov_matrix n k rs
  = (inr ps, rs') ->
  Forall (fun p => evaluate risk_free_rate mean_returns cov_matrix (weights p)
                   = inr p) ps.
Proof.
  intros E. apply Forall_forall. intros p Hp.
  apply In_nth_error in Hp as [i Hi].
  pose proof (sample_frontier_inv _ _ _ _ _ _ _ _ E i p Hi) as Hev.
  pose proof (evaluate_inv _ _ _ _ _ Hev) as [Hw _].
  now rewrite Hw.
Qed.

Lemma samples_on_simplex (mean_returns : vector) (cov_matrix : matrix)
    (n k : nat) (rs rs' : RandomState) (ps : list portfolio_point) :
  sample_frontier risk_free_rate mean_returns cov_matrix n k rs
  = (inr ps, rs') ->
  (forall j, unit_interval (variates rs j)) ->
  (forall i, (i < k)%nat -> 0 < Rsum (draws n rs i)) ->
  Forall (fun p => on_simplex (weights p) /\ length (weights p) = n) ps.
Proof.
  intros E Hu Hs.
  pose proof (sample_frontier_length _ _ _ _ _ _ _ _ E) as Hlen.
  apply Forall_forall. intros p Hp.
  apply In_nth_error in Hp as [i Hi].
  pose proof (sample_frontier_inv _ _ _ _ _ _ _ _ E i p Hi) as Hev.
  apply evaluate_inv in Hev as [-> _]. split.
  - apply normalise_on_simplex; [now apply draws_nonneg|].
    apply Hs. rewrite <- Hlen. apply nth_error_Some. congruence.
  - unfold div_scalar, draws. now rewrite !length_map, length_seq.
Qed.

End Reported.

(** X4.  When every draw of the run has a positive sum, the weights
    reported for the max-Sharpe and for the min-volatility portfolio have
    one entry per ticker, each between 0 and 1, and sum to 1 within the
    tolerance. *)
Theorem reported_weights_on_simplex (risk_free_rate : float64)
    (yf_download : list string -> M PriceData) (tks : list string)
    (iw : option vector) (rs : RandomState) (data : PriceData) :
  yf_download tks = inr data ->
  empty data = false ->
  n_columns data = length tks ->
  weights_fit tks iw ->
  (forall j, unit_interval (variates rs j)) ->
  (forall i, (i < num_portfolios)%nat ->
             0 < Rsum (draws (length tks) rs i)) ->
  exists r rs',
    optimize_portfolio risk_free_rate yf_download tks iw rs
    = (inr (Dict r), rs') /\
    on_simplex (weights (max_sharpe r)) /\
    length (weights (max_sharpe r)) = length tks /\
    on_simplex (weights (min_volatility r)) /\
    length (weights (min_volatility r)) = length tks.
Proof.
  intros Hd Hemp Hn Hw Hu Hs.
  destruct (optimize_ok risk_free_rate yf_download tks iw rs data Hd Hemp
              Hn Hw) as (r & rs' & E).
  exists r, rs'. split; [exact E|].
  apply optimize_inv in E as (d0 & samples & _ & _ & Es & Ea).
  pose proof (samples_on_simplex _ _ _ _ _ _ _ _ Es Hu Hs) as Hall.
  rewrite Forall_forall in Hall.
  apply assemble_inv in Ea as (i & j & _ & _ & Hmax & Hmin & _).
  apply nth_error_In in Hmax, Hmin.
  destruct (Hall _ Hmax) as [H1 H2]. destruct (Hall _ Hmin) as [H3 H4].
  repeat split; trivial; apply H1 || apply H3.
Qed.

Lemma reported_weights_on_simplex_witness :
  exists r rs',
    optimize_portfolio (Num (4 / 100)) yf_four_days
      ["AAPL"; "MSFT"]%string None harmonic = (inr (Dict r), rs') /\
    on_simplex (weights (max_sharpe r)) /\
    length (weights (max_sharpe r)) = length ["AAPL"; "MSFT"]%string /\
    on_simplex (weights (min_volatility r)) /\
    length (weights (min_volatility r)) = length ["AAPL"; "MSFT"]%string.
Proof.
  apply (reported_weights_on_simplex (Num (4 / 100)) yf_four_days
           ["AAPL"; "MSFT"]%string None harmonic four_days).
  - reflexivity.
  - reflexivity.
  - reflexivity.
  - exact I.
  - exact harmonic_unit.
  - intros i _. apply harmonic_positive. discriminate.
Defined.

(** X5.  In a filled result the return, volatility and Sharpe ratio
    reported for the baseline, for the max-Sharpe and for the
    min-volatility portfolio are those the estimated moments give to the
    weights reported with them. *)
Theorem reported_points_consistent (risk_free_rate : float64)
    (yf_download : list string -> M PriceData) (tks : list string)
    (iw : option vector) (rs : RandomState) (data : PriceData) :
  yf_download tks = inr data ->
  empty data = false ->
  n_columns data = length tks ->
  weights_fit tks iw ->
  exists r rs',
    optimize_portfolio risk_free_rate yf_download tks iw rs
    = (inr (Dict r), rs') /\
    let consistent p :=
      evaluate risk_free_rate (mean_of data) (cov_of data) (weights p)
      = inr p in
    consistent (current_portfolio r) /\
    consistent (max_sharpe r) /\
    consistent (min_volatility r).
Proof.
  intros Hd Hemp Hn Hw.
  destruct (optimize_ok risk_free_rate yf_download tks iw rs data Hd Hemp
              Hn Hw) as (r & rs' & E).
  exists r, rs'. split; [exact E|]. cbv zeta.
  pose proof (optimize_inv_current _ _ _ _ _ _ _ E)
    as (d0 & w0 & Hd0 & _ & Hev).
  rewrite Hd in Hd0. injection Hd0 as <-.
  apply optimize_inv in E as (d1 & samples & Hd1 & _ & Es & Ea).
  rewrite Hd in Hd1. injection Hd1 as <-.
  pose proof (samples_consistent _ _ _ _ _ _ _ _ Es) as Hall.
  rewrite Forall_forall in Hall.
  apply assemble_inv in Ea as (i & j & _ & _ & Hmax & Hmin & _).
  apply nth_error_In in Hmax, Hmin.
  split; [|split; [exact (Hall _ Hmax) | exact (Hall _ Hmin)]].
  pose proof (evaluate_inv _ _ _ _ _ Hev) as [Hw0 _]. now rewrite Hw0.
Qed.

Lemma reported_points_consistent_witness :
  exists r rs',
    optimize_portfolio (Num (4 / 100)) yf_three_days ["AAPL"%string] None
      all_half = (inr (Dict r), rs') /\
    let consistent p :=
      evaluate (Num (4 / 100)) (mean_of three_days) (cov_of three_days)
        (weights p) = inr p in
    consistent (current_portfolio r) /\
    consistent (max_sharpe r) /\
    consistent (min_volatility r).
Proof.
  apply (reported_points_consistent (Num (4 / 100)) yf_three_days
           ["AAPL"%string] None all_half three_days).
  - reflexivity.
  - reflexivity.
  - reflexivity.
  - exact I.
Defined.

(** ** The per-stock metrics *)

Lemma dict_get_set_same {A} (d : list (string * A)) (k : string) (v : A) :
  dict_get (dict_set d k v) k = Some v.
Proof.
  induction d as [|[k' v'] d IH]; cbn [dict_set dict_get].
  - now rewrite String.eqb_refl.
  - destruct (String.eqb k' k) eqn:E; cbn [dict_get].
    + now rewrite String.eqb_refl.
    + now rewrite E.
Qed.

Lemma dict_get_set_other {A} (d : list (string * A)) (k k0 : string) (v : A) :
  k0 <> k -> dict_get (dict_set d k v) k0 = dict_get d k0.
Proof.
  intros Hne. induction d as [|[k' v'] d IH]; cbn [dict_set dict_get].
  - destruct (String.eqb k k0) eqn:E; [|reflexivity].
    apply String.eqb_eq in E. congruence.
  - destruct (String.eqb k' k) eqn:E; cbn [dict_get].
    + apply String.eqb_eq in E. subst k'.
      destruct (String.eqb k k0) eqn:E0; [|reflexivity].
      apply String.eqb_eq in E0. congruence.
    + destruct (String.eqb k' k0); [reflexivity|exact IH].
Qed.

Lemma dict_set_new_key {A} (d : list (string * A)) (k : string) (v : A) :
  ~ In k (map fst d) -> map fst (dict_set d k v) = map fst d ++ [k].
Proof.
  induction d as [|[k' v'] d IH]; cbn [dict_set map fst app]; intros Hn;
    [reflexivity|].
  destruct (String.eqb k' k) eqn:E.
  - apply String.eqb_eq in E. subst. exfalso. apply Hn. now left.
  - cbn [map fst]. f_equal. apply IH. intros Hin. apply Hn. now right.
Qed.

Lemma last_occurrence (t : string) (ts : list string) :
  In t ts ->
  exists k, nth_error ts k = Some t /\
            forall j, (k < j)%nat -> nth_error ts j <> Some t.
Proof.
  induction ts as [|t0 ts IH]; [intros []|].
  intros Hin. destruct (in_dec string_dec t ts) as [Hlater|Hnot].
  - destruct (IH Hlater) as (k & Hk & Hlast). exists (S k). split; [exact Hk|].
    intros [|j] Hj; [lia|]. apply Hlast. lia.
  - destruct Hin as [->|Hin]; [|contradiction]. exists 0%nat.
    split; [reflexivity|]. intros [|j] Hj; [lia|]. cbn [nth_error].
    intros H. apply Hnot. eapply nth_error_In; eassumption.
Qed.

Section Stocks.

Variable risk_free_rate : float64.
Variables (mean_returns : vector) (cov_matrix : matrix).
Variables (wmax wmin : vector).

(** One pass of the loop: the entry of position [i] is stored under the
    ticker and the loop goes on. *)
Lemma stock_loop_step (i : nat) (t : string) (ts : list string)
    (acc d : list (string * Stock.t)) :
  stock_loop risk_free_rate mean_returns cov_matrix wmax wmin i (t :: ts) acc
  = inr d ->
  exists e,
    entry_at risk_free_rate mean_returns cov_matrix wmax wmin i e /\
    stock_loop risk_free_rate mean_returns cov_matrix wmax wmin (S i) ts
      (dict_set acc t e) = inr d.
Proof.
  cbn [stock_loop]. intros H. do 5 bind_inv H.
  repeat match goal with
         | E : getitem _ _ = inr _ |- _ => apply getitem_inv in E
         end.
  eexists. split; [|exact H].
  unfold entry_at. cbn. exists f1, l, f2. repeat split; assumption.
Qed.

(** After the loop a ticker that was not met reads as before, and a ticker
    that was met reads as the entry of its last position. *)
Lemma stock_loop_get (ts : list string) :
  forall (i : nat) (acc d : list (string * Stock.t)),
  stock_loop risk_free_rate mean_returns cov_matrix wmax wmin i ts acc
  = inr d ->
  forall t,
    (~ In t ts -> dict_get d t = dict_get acc t) /\
    (forall k, nth_error ts k = Some t ->
               (forall j, (k < j)%nat -> nth_error ts j <> Some t) ->
               exists e,
                 dict_get d t = Some e /\
                 entry_at risk_free_rate mean_returns cov_matrix wmax wmin
                   (i + k) e).
Proof.
  induction ts as [|t0 ts IH]; intros i acc d H t.
  - cbn in H. injection H as <-. split; [reflexivity|].
    intros [|k]; discriminate.
  - apply stock_loop_step in H as (e0 & He0 & H).
    destruct (IH _ _ _ H t) as [IH1 IH2]. split.
    + intros Hn. rewrite IH1 by (intros Hin; apply Hn; now right).
      apply dict_get_set_other. intros ->. apply Hn. now left.
    + intros [|k] Hk Hlast.
      * injection Hk as ->. exists e0. rewrite Nat.add_0_r. split; [|exact He0].
        rewrite IH1; [apply dict_get_set_same|].
        intros Hin. apply In_nth_error in Hin as [j Hj].
        apply (Hlast (S j)); [lia|exact Hj].
      * destruct (IH2 k Hk) as (e & He & Hent).
        { intros j Hj. apply (Hlast (S j)). lia. }
        exists e. split; [exact He|]. now rewrite Nat.add_succ_r.
Qed.

(** New tickers are appended in the order they are met. *)
Lemma stock_loop_keys (ts : list string) :
  forall (i : nat) (acc d : list (string * Stock.t)),
  stock_loop risk_free_rate mean_returns cov_matrix wmax wmin i ts acc
  = inr d ->
  NoDup (map fst acc ++ ts) ->
  map fst d = map fst acc ++ ts.
Proof.
  induction ts as [|t0 ts IH]; intros i acc d H Hnd.
  - cbn in H. injection H as <-. now rewrite app_nil_r.
  - apply stock_loop_step in H as (e0 & _ & H).
    assert (Hnew : ~ In t0 (map fst acc)).
    { intros Hin. apply NoDup_remove_2 in Hnd. apply Hnd.
      apply in_or_app. now left. }
    rewrite (IH _ _ _ H); rewrite dict_set_new_key by exact Hnew.
    + now rewrite <- app_assoc.
    + now rewrite <- app_assoc.
Qed.

End Stocks.

Lemma assemble_inv_stocks (risk_free_rate : float64) (tks : list string)
    (mean_returns : vector) (cov_matrix : matrix) (current : portfolio_point)
    (samples : list portfolio_point) (r : optimization) :
  assemble risk_free_rate tks mean_returns cov_matrix current samples
  = inr r ->
  stock_loop risk_free_rate mean_returns cov_matrix (weights (max_sharpe r))
    (weights (min_volatility r)) 0 tks [] = inr (stock_metrics r).
Proof.
  unfold assemble. intros H. do 12 bind_inv H.
  injection H as <-. cbn. exact E8.
Qed.

(** X6.  In a filled result [stock_metrics] has an entry for each ticker
    and for nothing else; the entry of a ticker holds the max-Sharpe and
    min-volatility weights, 252 times the mean return and the square root
    of 252 times the variance found at the ticker's last position in the
    list (a repeated ticker overwrites its earlier entry), with the guarded
    Sharpe ratio of these two; without repetition the keys are the tickers
    in their order. *)
Theorem stock_metrics_by_ticker (risk_free_rate : float64)
    (yf_download : list string -> M PriceData) (tks : list string)
    (iw : option vector) (rs : RandomState) (data : PriceData) :
  yf_download tks = inr data ->
  empty data = false ->
  n_columns data = length tks ->
  weights_fit tks iw ->
  exists r rs',
    optimize_portfolio risk_free_rate yf_download tks iw rs
    = (inr (Dict r), rs') /\
    (forall t, In t tks <-> dict_get (stock_metrics r) t <> None) /\
    (forall k t,
       nth_error tks k = Some t ->
       (forall j, (k < j)%nat -> nth_error tks j <> Some t) ->
       exists e,
         dict_get (stock_metrics r) t = Some e /\
         entry_at risk_free_rate (mean_of data) (cov_of data)
           (weights (max_sharpe r)) (weights (min_volatility r)) k e) /\
    (NoDup tks -> map fst (stock_metrics r) = tks).
Proof.
  intros Hd Hemp Hn Hw.
  destruct (optimize_ok risk_free_rate yf_download tks iw rs data Hd Hemp
              Hn Hw) as (r & rs' & E).
  exists r, rs'. split; [exact E|].
  apply optimize_inv in E as (d0 & samples & Hd0 & _ & _ & Ea).
  rewrite Hd in Hd0. injection Hd0 as <-.
  apply assemble_inv_stocks in Ea.
  pose proof (stock_loop_get _ _ _ _ _ _ _ _ _ Ea) as Hget.
  split; [|split].
  - intros t. split.
    + intros Hin. destruct (last_occurrence t tks Hin) as (k & Hk & Hlast).
      destruct (proj2 (Hget t) k Hk Hlast) as (e & He & _). congruence.
    + intros Hsome. destruct (in_dec string_dec t tks) as [Hin|Hnot];
        [exact Hin|].
      exfalso. apply Hsome. now rewrite (proj1 (Hget t) Hnot).
  - intros k t Hk Hlast. exact (proj2 (Hget t) k Hk Hlast).
  - intros Hnd. exact (stock_loop_keys _ _ _ _ _ _ _ _ _ Ea Hnd).
Qed.

Lemma stock_metrics_by_ticker_witness :
  exists r rs',
    optimize_portfolio (Num (4 / 100)) yf_three_days ["AAPL"%string] None
      all_half = (inr (Dict r), rs') /\
    (forall t, In t ["AAPL"%string] <-> dict_get (stock_metrics r) t <> None)
    /\
    (forall k t,
       nth_error ["AAPL"%string] k = Some t ->
       (forall j, (k < j)%nat -> nth_error ["AAPL"%string] j <> Some t) ->
       exists e,
         dict_get (stock_metrics r) t = Some e /\
         entry_at (Num (4 / 100)) (mean_of three_days) (cov_of three_days)
           (weights (max_sharpe r)) (weights (min_volatility r)) k e) /\
    (NoDup ["AAPL"%string] -> map fst (stock_metrics r) = ["AAPL"%string]).
Proof.
  apply (stock_metrics_by_ticker (Num (4 / 100)) yf_three_days
           ["AAPL"%string] None all_half three_days).
  - reflexivity.
  - reflexivity.
  - reflexivity.
  - exact I.
Defined.

(** ** No negative volatility *)

Lemma fsqrt_not_negative (x : float64) : flt (fsqrt x) (Num 0) = false.
Proof.
  destruct x as [a| | |]; cbn [fsqrt]; try reflexivity.
  destruct (Rltb a 0); [reflexivity|]. cbn [flt].
  apply Rltb_false. apply sqrt_pos.
Qed.

Lemma evaluate_volatility_sqrt (risk_free_rate : float64)
    (mean_returns : vector) (cov_matrix : matrix) (w : vector)
    (p : portfolio_point) :
  evaluate risk_free_rate mean_returns cov_matrix w = inr p ->
  exists q, volatility p = fsqrt q.
Proof.
  unfold evaluate. intros H. bind_inv H. bind_inv H. bind_inv H.
  injection H as <-. cbn [volatility]. eauto.
Qed.

(** X7.  No volatility of a filled result is negative: the baseline's, the
    10000 sampled ones, those of the two distinguished portfolios and the
    annual volatility of every stock are square roots, hence zero,
    positive or NaN. *)
Theorem volatility_never_negative (risk_free_rate : float64)
    (yf_download : list string -> M PriceData) (tks : list string)
    (iw : option vector) (rs : RandomState) (data : PriceData) :
  yf_download tks = inr data ->
  empty data = false ->
  n_columns data = length tks ->
  weights_fit tks iw ->
  exists r rs',
    optimize_portfolio risk_free_rate yf_download tks iw rs
    = (inr (Dict r), rs') /\
    let not_negative v := flt v (Num 0) = false in
    not_negative (volatility (current_portfolio r)) /\
    Forall not_negative (volatilities (efficient_frontier r)) /\
    not_negative (volatility (max_sharpe r)) /\
    not_negative (volatility (min_volatility r)) /\
    forall t e, dict_get (stock_metrics r) t = Some e ->
                not_negative (Stock.annual_volatility e).
Proof.
  intros Hd Hemp Hn Hw.
  destruct (optimize_ok risk_free_rate yf_download tks iw rs data Hd Hemp
              Hn Hw) as (r & rs' & E).
  exists r, rs'. split; [exact E|]. cbv zeta.
  pose proof (optimize_inv_current _ _ _ _ _ _ _ E)
    as (d0 & w0 & _ & _ & Hev).
  apply optimize_inv in E as (d1 & samples & _ & _ & Es & Ea).
  pose proof (samples_consistent _ _ _ _ _ _ _ _ Es) as Hall.
  assert (Hs : Forall (fun p => flt (volatility p) (Num 0) = false) samples).
  { eapply Forall_impl; [|exact Hall]. intros p Hp. cbv beta in Hp.
    apply evaluate_volatility_sqrt in Hp as [q ->].
    apply fsqrt_not_negative. }
  pose proof (assemble_inv_stocks _ _ _ _ _ _ _ Ea) as Hst.
  apply assemble_inv in Ea as (i & j & _ & _ & Hmax & Hmin & _ & Hf & _).
  rewrite Hf. cbn [volatilities].
  rewrite Forall_forall in Hs.
  split; [|split; [|split; [|split]]].
  - apply evaluate_volatility_sqrt in Hev as [q ->].
    apply fsqrt_not_negative.
  - apply Forall_map, Forall_forall. exact Hs.
  - apply Hs. eapply nth_error_In; eassumption.
  - apply Hs. eapply nth_error_In; eassumption.
  - intros t e He.
    pose proof (stock_loop_get _ _ _ _ _ _ _ _ _ Hst t) as [Hnot Hlast].
    destruct (in_dec string_dec t tks) as [Hin|Hout].
    + destruct (last_occurrence t tks Hin) as (k & Hk & Hl).
      destruct (Hlast k Hk Hl) as (e' & He' & Hent).
      rewrite He in He'. injection He' as <-.
      destruct Hent as (m & row & c & _ & _ & _ & _ & _ & _ & -> & _).
      apply fsqrt_not_negative.
    + rewrite (Hnot Hout) in He. discriminate.
Qed.

Lemma volatility_never_negative_witness :
  exists r rs',
    optimize_portfolio (Num (4 / 100)) yf_three_days ["AAPL"%string] None
      all_half = (inr (Dict r), rs') /\
    let not_negative v := flt v (Num 0) = false in
    not_negative (volatility (current_portfolio r)) /\
    Forall not_negative (volatilities (efficient_frontier r)) /\
    not_negative (volatility (max_sharpe r)) /\
    not_negative (volatility (min_volatility r)) /\
    forall t e, dict_get (stock_metrics r) t = Some e ->
                not_negative (Stock.annual_volatility e).
Proof.
  apply (volatility_never_negative (Num (4 / 100)) yf_three_days
           ["AAPL"%string] None all_half three_days).
  - reflexivity.
  - reflexivity.
  - reflexivity.
  - exact I.
Defined.

(** * Further properties of the backtest metrics *)

(** ** The win rate *)

Lemma filter_length_le {A} (f : A -> bool) (l : list A) :
  (length (filter f l) <= length l)%nat.
Proof.
  induction l as [|x l IH]; simpl; [lia|]. destruct (f x); simpl; lia.
Qed.

(** X9.  Whatever the series of portfolio returns is, NaN and infinite
    entries included, the win rate is a number between 0 and 1 (0 for the
    empty series). *)
Theorem win_rate_bounds (risk_free_rate : float64) (pr : vector) :
  exists x,
    Metrics.win_rate (metrics_of_returns risk_free_rate pr) = Num x /\
    0 <= x <= 1.
Proof.
  unfold metrics_of_returns. cbn [Metrics.win_rate].
  destruct pr as [|r pr]; cbn [length Nat.ltb Nat.leb].
  - exists 0. split; [reflexivity|lra].
  - set (n := S (length pr)).
    pose proof (filter_length_le (fun x => (x >? Num 0)%f64) (r :: pr)) as Hle.
    change (length (r :: pr)) with n in Hle. fold (positive (r :: pr)) in Hle.
    set (k := length (positive (r :: pr))) in *.
    assert (Hn : 0 < INR n) by (apply lt_0_INR; unfold n; lia).
    unfold of_nat. rewrite fdiv_num by lra.
    exists (INR k / INR n). split; [reflexivity|].
    apply le_INR in Hle. pose proof (pos_INR k). split.
    + apply Rmult_le_pos; [assumption|]. left. now apply Rinv_0_lt_compat.
    + apply Rmult_le_reg_r with (INR n); [exact Hn|].
      unfold Rdiv. rewrite Rmult_assoc, Rinv_l by lra. lra.
Qed.

(** ** The maximum drawdown *)

Lemma drawdown_range (rs : list R) :
  Forall (fun r => -1 < r) rs ->
  forall (acc : R) (cur : option float64),
  0 < acc ->
  match cur with
  | None => True
  | Some c => exists m, c = Num m /\ 0 < m
  end ->
  let cumulative := cumprod_from (Num acc) (map (fadd (Num 1)) (map Num rs)) in
  Forall drawdown_in_range
    (zip_drawdown cumulative (expanding_max_from cur cumulative))
  /\ length (zip_drawdown cumulative (expanding_max_from cur cumulative))
     = length rs.
Proof.
  induction 1 as [|r rs Hr _ IH]; intros acc cur Hacc Hcur; cbv zeta.
  - split; [constructor|reflexivity].
  - cbn [map fadd cumprod_from isnan fmul expanding_max_from zip_drawdown].
    set (a := acc * (1 + r)).
    assert (Ha : 0 < a) by (unfold a; nra).
    assert (Hp : exists pv,
               match (match cur with
                      | None => Some (Num a)
                      | Some c => Some (if (c <? Num a)%f64 then Num a else c)
                      end) with
               | None => NaN
               | Some c => c
               end = Num pv /\ a <= pv).
    { destruct cur as [c|]; [|exists a; split; [reflexivity|lra]].
      destruct Hcur as (m & -> & Hm). cbn [flt].
      destruct (Rltb m a) eqn:E.
      - exists a. split; [reflexivity|lra].
      - apply Rltb_false in E. exists m. split; [reflexivity|lra]. }
    destruct Hp as (pv & Hpv & Hle).
    set (cur' := match cur with
                 | None => Some (Num a)
                 | Some c => Some (if (c <? Num a)%f64 then Num a else c)
                 end) in *.
    assert (Hcur' : match cur' with
                    | None => True
                    | Some c => exists m, c = Num m /\ 0 < m
                    end).
    { destruct cur' as [c|]; [|exact I]. exists pv. split; [exact Hpv|lra]. }
    destruct (IH a cur' Ha Hcur') as [IH1 IH2].
    split.
    + constructor; [|exact IH1].
      rewrite Hpv. cbn [fsub fopp fadd]. rewrite fdiv_num by lra.
      eexists. split; [reflexivity|]. split.
      * apply Rmult_le_reg_r with pv; [lra|].
        unfold Rdiv. rewrite Rmult_assoc, Rinv_l by lra. lra.
      * apply Rmult_le_reg_r with pv; [lra|].
        unfold Rdiv. rewrite Rmult_assoc, Rinv_l by lra. lra.
    + cbn [length]. now rewrite IH2.
Qed.

Lemma dropna_in_range (l : vector) :
  Forall drawdown_in_range l -> dropna l = l.
Proof.
  unfold dropna. induction 1 as [|d l (x & -> & _) _ IH]; cbn [filter];
    [reflexivity|].
  cbn [isnan negb]. now rewrite IH.
Qed.

Lemma fold_min_in_range (l : vector) (d : float64) :
  drawdown_in_range d -> Forall drawdown_in_range l ->
  drawdown_in_range
    (fold_left (fun a b => if (b <? a)%f64 then b else a) l d).
Proof.
  intros Hd H; revert d Hd. induction H as [|b l Hb _ IH]; intros d Hd;
    cbn [fold_left]; [exact Hd|].
  apply IH. now destruct (b <? d)%f64.
Qed.

Lemma pd_min_in_range (l : vector) :
  l <> [] -> Forall drawdown_in_range l -> drawdown_in_range (pd_min l).
Proof.
  intros Hne H. unfold pd_min. rewrite (dropna_in_range l H).
  destruct H as [|d l Hd Hl]; [congruence|]. now apply fold_min_in_range.
Qed.

(** X10.  For a non-empty series of real returns, each above -100%, the
    maximum drawdown is a number between -1 and 0, both included. *)
Theorem max_drawdown_bounds (risk_free_rate : float64) (rs : list R) :
  rs <> [] ->
  Forall (fun r => -1 < r) rs ->
  exists x,
    Metrics.max_drawdown (metrics_of_returns risk_free_rate (map Num rs))
    = Num x /\
    -1 <= x <= 0.
Proof.
  intros Hne H. unfold metrics_of_returns. cbn [Metrics.max_drawdown].
  unfold cumprod, expanding_max.
  destruct (drawdown_range rs H 1 None) as [Hall Hlen]; [lra|exact I|].
  cbv zeta in Hall, Hlen.
  apply pd_min_in_range; [|exact Hall].
  intros Hnil. rewrite Hnil in Hlen. destruct rs; [congruence|discriminate].
Qed.

Lemma max_drawdown_bounds_witness :
  exists x,
    Metrics.max_drawdown
      (metrics_of_returns (Num (4 / 100)) (map Num [1 / 10; - (1 / 2)]))
    = Num x /\
    -1 <= x <= 0.
Proof.
  apply max_drawdown_bounds.
  - discriminate.
  - repeat constructor; lra.
Defined.

(** ** A series without losses *)

Lemma drawdown_zero (rs : list R) :
  Forall (fun r => 0 <= r) rs ->
  forall (acc : R) (cur : option float64),
  0 < acc ->
  match cur with
  | None => True
  | Some c => exists m, c = Num m /\ 0 < m <= acc
  end ->
  let cumulative := cumprod_from (Num acc) (map (fadd (Num 1)) (map Num rs)) in
  zip_drawdown cumulative (expanding_max_from cur cumulative)
  = repeat (Num 0) (length rs).
Proof.
  induction 1 as [|r rs Hr _ IH]; intros acc cur Hacc Hcur; cbv zeta;
    [reflexivity|].
  cbn [map fadd cumprod_from isnan fmul expanding_max_from zip_drawdown
       length repeat].
  set (a := acc * (1 + r)).
  assert (Ha : acc <= a) by (unfold a; nra).
  set (cur' := match cur with
               | None => Some (Num a)
               | Some c => Some (if (c <? Num a)%f64 then Num a else c)
               end).
  assert (Hp : exists pv, cur' = Some (Num pv) /\ pv = a).
  { unfold cur'. destruct cur as [c|]; [|exists a; split; reflexivity].
    destruct Hcur as (m & -> & Hm). cbn [flt].
    destruct (Rltb m a) eqn:E.
    - exists a. split; reflexivity.
    - apply Rltb_false in E. exists m. split; [reflexivity|lra]. }
  destruct Hp as (pv & Hcur' & Hpv). rewrite Hcur'. f_equal.
  - cbn [fsub fopp fadd]. rewrite fdiv_num by lra. f_equal. subst pv.
    field. lra.
  - rewrite <- Hcur'. apply IH; [lra|].
    rewrite Hcur'. exists pv. split; [reflexivity|lra].
Qed.

Lemma pd_min_zeros (n : nat) : pd_min (repeat (Num 0) (S n)) = Num 0.
Proof.
  unfold pd_min.
  assert (Hd : dropna (repeat (Num 0) (S n)) = repeat (Num 0) (S n)).
  { unfold dropna. generalize (S n). intros k.
    induction k as [|k IH]; cbn [repeat filter isnan negb]; [reflexivity|].
    now rewrite IH. }
  rewrite Hd. clear Hd. cbn [repeat].
  induction n as [|n IH]; cbn [repeat fold_left]; [reflexivity|].
  replace (Num 0 <? Num 0)%f64 with false; [exact IH|].
  symmetry. cbn [flt]. apply Rltb_false. lra.
Qed.

Lemma negative_of_gains (rs : list R) :
  Forall (fun r => 0 <= r) rs -> negative (map Num rs) = [].
Proof.
  unfold negative. induction 1 as [|r rs Hr _ IH]; cbn [map filter flt];
    [reflexivity|].
  replace (Rltb r 0) with false; [exact IH|].
  symmetry. now apply Rltb_false.
Qed.

(** X11.  For a non-empty series of real returns none of which is
    negative, the maximum drawdown is 0 and the ratios that would divide by
    a loss are 0 by their guards: Calmar, Sortino, average loss and profit
    factor. *)
Theorem gains_only_series (risk_free_rate : float64) (rs : list R) :
  rs <> [] ->
  Forall (fun r => 0 <= r) rs ->
  let m := metrics_of_returns risk_free_rate (map Num rs) in
  Metrics.max_drawdown m = Num 0 /\
  Metrics.calmar_ratio m = Num 0 /\
  Metrics.sortino_ratio m = Num 0 /\
  Metrics.avg_loss m = Num 0 /\
  Metrics.profit_factor m = Num 0.
Proof.
  intros Hne H. cbv zeta.
  assert (Hdd : Metrics.max_drawdown
                  (metrics_of_returns risk_free_rate (map Num rs)) = Num 0).
  { unfold metrics_of_returns. cbn [Metrics.max_drawdown].
    unfold cumprod, expanding_max.
    rewrite (drawdown_zero rs H 1 None) by (lra || exact I).
    destruct rs as [|r rs]; [congruence|]. apply pd_min_zeros. }
  pose proof (negative_of_gains rs H) as Hneg.
  split; [exact Hdd|]. split; [|split; [|split]].
  - unfold metrics_of_returns in *. cbn [Metrics.calmar_ratio].
    cbn [Metrics.max_drawdown] in Hdd. rewrite Hdd.
    unfold fne. cbn [feq].
    replace (Reqb 0 0) with true by (symmetry; now apply Reqb_true).
    reflexivity.
  - now apply sortino_no_downside.
  - unfold metrics_of_returns. cbn [Metrics.avg_loss]. now rewrite Hneg.
  - unfold metrics_of_returns. cbn [Metrics.profit_factor]. now rewrite Hneg.
Qed.

Lemma gains_only_series_witness :
  let m := metrics_of_returns (Num (4 / 100)) (map Num [1 / 10; 0; 1 / 5]) in
  Metrics.max_drawdown m = Num 0 /\
  Metrics.calmar_ratio m = Num 0 /\
  Metrics.sortino_ratio m = Num 0 /\
  Metrics.avg_loss m = Num 0 /\
  Metrics.profit_factor m = Num 0.
Proof.
  apply gains_only_series.
  - discriminate.
  - repeat constructor; lra.
Defined.

(** * Histories too short for a variance *)

Lemma one_over_zero : (Num 1 / Num 0)%f64 = PInf.
Proof.
  cbn [fdiv]. replace (Reqb 0 0) with true by (symmetry; now apply Reqb_true).
  unfold Rsgn. destruct (Rlt_dec 1 0); [lra|].
  destruct (Rlt_dec 0 1); [reflexivity | lra].
Qed.

Lemma zero_times_inf : (Num 0 * PInf)%f64 = NaN.
Proof.
  cbn [fmul fsgn]. unfold Rsgn.
  destruct (Rlt_dec 0 0); [lra | reflexivity].
Qed.

Lemma pct_change_from_length (prev : list R) (rows : list (list R)) :
  length (pct_change_from prev rows) = length rows.
Proof.
  revert prev; induction rows as [|r rows IH]; intros prev;
    cbn [pct_change_from length]; [reflexivity|].
  now rewrite IH.
Qed.

(** The first row of [pct_change] is all NaN and is dropped; a table of [k]
    rows leaves at most [k - 1] rows of returns. *)
Lemma returns_of_length (data : PriceData) :
  well_formed data -> empty data = false ->
  (length (returns_of data) <= length (closes data) - 1)%nat.
Proof.
  unfold well_formed, empty, returns_of, pct_change, dropna_rows.
  intros Hwf Hemp. apply Bool.orb_false_iff in Hemp as [Hn _].
  destruct (closes data) as [|r0 rows]; cbn [length filter]; [lia|].
  inversion Hwf as [|? ? Hr0 _]; subst.
  destruct r0 as [|p r0].
  { cbn [length] in Hr0. rewrite <- Hr0 in Hn. discriminate. }
  cbn [map filter existsb isnan orb negb].
  etransitivity; [apply filter_length_le|].
  rewrite pct_change_from_length. lia.
Qed.

Lemma centred_single (x : float64) :
  (x - np_mean [x])%f64 = NaN \/ (x - np_mean [x])%f64 = Num 0.
Proof.
  unfold np_mean, np_sum, of_nat. cbn [fold_left length INR].
  destruct x as [a| | |]; cbn [fadd].
  - right. rewrite fdiv_num by lra. cbn [fsub fopp fadd]. f_equal. field.
  - left. cbn [fdiv]. replace (Rltb 1 0) with false
      by (symmetry; apply Rltb_false; lra). reflexivity.
  - left. cbn [fdiv]. replace (Rltb 1 0) with false
      by (symmetry; apply Rltb_false; lra). reflexivity.
  - left. reflexivity.
Qed.

(** [returns.cov()] of at most one row of returns: every entry is NaN. *)
Lemma short_cov (ncols : nat) (m : matrix) :
  (length m <= 1)%nat ->
  Forall (Forall (fun c => c = NaN)) (frame_cov ncols m).
Proof.
  intros Hlen. unfold frame_cov.
  apply Forall_forall. intros row Hrow.
  apply in_map_iff in Hrow as (i & <- & _).
  apply Forall_forall. intros c Hc.
  apply in_map_iff in Hc as (j & <- & _).
  unfold cov_fact.
  replace (Nat.leb (length m) 1) with true
    by (symmetry; now apply Nat.leb_le).
  rewrite one_over_zero.
  destruct m as [|row [|row' m]]; [| |cbn [length] in Hlen; lia].
  - cbn [centred column map zip_mul]. apply zero_times_inf.
  - unfold centred. cbn [column map zip_mul].
    unfold np_sum. cbn [fold_left].
    destruct (centred_single (nth i row NaN)) as [-> | ->];
      [reflexivity|].
    destruct (centred_single (nth j row NaN)) as [-> | ->];
      [reflexivity|].
    cbn [fmul fadd fsgn]. replace (0 + 0 * 0) with 0 by lra.
    unfold Rsgn. destruct (Rlt_dec 0 0); [lra | reflexivity].
Qed.

(** The quadratic form of an all-NaN matrix is NaN. *)
Lemma nan_quadratic (cov_matrix : matrix) (w cw : vector) (q : float64) :
  w <> [] ->
  length cov_matrix = length w ->
  Forall (fun row => length row = length w) cov_matrix ->
  Forall (Forall (fun c => c = NaN)) cov_matrix ->
  np_dot_mv cov_matrix w = inr cw ->
  np_dot w cw = inr q ->
  q = NaN.
Proof.
  intros Hne Hrows Hcols Hnan Hcw Hq.
  apply np_dot_mv_inv in Hcw. apply np_dot_inv in Hq as [-> _]. subst cw.
  destruct w as [|y w]; [congruence|].
  destruct cov_matrix as [|row cov_matrix]; [discriminate|].
  inversion Hcols as [|? ? Hr _]; subst.
  inversion Hnan as [|? ? Hrn _]; subst.
  destruct row as [|c row]; [discriminate|].
  inversion Hrn as [|? ? Hc _]; subst.
  cbn [map zip_mul fmul].
  apply np_sum_nan. left.
  rewrite (np_sum_nan (NaN :: zip_mul row w)) by (now left).
  apply fmul_nan_r.
Qed.

Lemma scale_nan (c : float64) (m : matrix) :
  Forall (Forall (fun x => x = NaN)) m ->
  Forall (Forall (fun x => x = NaN)) (scale c m).
Proof.
  intros H. unfold scale. apply Forall_map.
  eapply Forall_impl; [|exact H]. intros row Hrow.
  apply Forall_map. eapply Forall_impl; [|exact Hrow].
  intros x ->. reflexivity.
Qed.

Lemma scale_shape (c : float64) (m : matrix) (n : nat) :
  square n m -> square n (scale c m).
Proof.
  intros [Hr Hc]. unfold scale. split; [now rewrite length_map|].
  apply Forall_map. eapply Forall_impl; [|exact Hc].
  intros row Hrow. now rewrite length_map.
Qed.

Lemma evaluate_nan_cov (risk_free_rate : float64) (mean_returns : vector)
    (cov_matrix : matrix) (w : vector) (p : portfolio_point) :
  w <> [] ->
  square (length w) cov_matrix ->
  Forall (Forall (fun c => c = NaN)) cov_matrix ->
  evaluate risk_free_rate mean_returns cov_matrix w = inr p ->
  volatility p = NaN /\ sharpe_ratio p = Num 0.
Proof.
  intros Hne Hsq Hnan H.
  assert (Hv : volatility p = NaN).
  { unfold evaluate in H. bind_inv H. bind_inv H. bind_inv H.
    injection H as <-. cbn [volatility].
    apply (scale_shape (Num 252)) in Hsq. destruct Hsq as [Hr Hc].
    rewrite (nan_quadratic (scale (Num 252) cov_matrix) w v0 f Hne Hr Hc
               (scale_nan _ _ Hnan) E0 E1).
    reflexivity. }
  split; [exact Hv|].
  apply evaluate_inv in H as [_ ->]. rewrite Hv. reflexivity.
Qed.

Lemma argmax_all_zero (v : vector) (b i : nat) :
  Forall (fun s => s = Num 0) v -> argmax_from b (Num 0) i v = b.
Proof.
  intros H. revert i. induction H as [|x v -> _ IH]; intros i;
    cbn [argmax_from fle]; [reflexivity|].
  replace (Rleb 0 0) with true by (symmetry; apply Rleb_true; lra).
  apply IH.
Qed.

Section ShortHistory.

Variable risk_free_rate : float64.
Variable yf_download : list string -> M PriceData.

(** X12.  On a rectangular table of at most two price rows, with one column
    per ticker, [optimize_portfolio] still returns a filled result, but one
    without information: every sampled volatility is NaN and every sampled
    Sharpe ratio is 0, and so are the baseline's; both distinguished
    portfolios are the first sample drawn; the diversification ratio is 1. *)
Theorem short_history_degenerate (tks : list string) (iw : option vector)
    (rs : RandomState) (data : PriceData) :
  yf_download tks = inr data ->
  empty data = false ->
  well_formed data ->
  n_columns data = length tks ->
  weights_fit tks iw ->
  (length (closes data) <= 2)%nat ->
  exists r rs',
    optimize_portfolio risk_free_rate yf_download tks iw rs
    = (inr (Dict r), rs') /\
    Forall (fun v => v = NaN) (volatilities (efficient_frontier r)) /\
    Forall (fun s => s = Num 0) (sharpe_ratios (efficient_frontier r)) /\
    volatility (current_portfolio r) = NaN /\
    sharpe_ratio (current_portfolio r) = Num 0 /\
    max_sharpe r = min_volatility r /\
    weights (max_sharpe r)
    = div_scalar (map Num (draws (length tks) rs 0))
        (np_sum (map Num (draws (length tks) rs 0))) /\
    diversification_ratio r = Num 1.
Proof.
  intros Hd Hemp Hwf Hn Hfit Hrows.
  destruct (optimize_ok risk_free_rate yf_download tks iw rs data
              Hd Hemp Hn Hfit) as (r & rs' & E).
  exists r, rs'. split; [exact E|].
  assert (Hne : tks <> []).
  { intros ->. unfold empty in Hemp. rewrite Hn in Hemp. discriminate. }
  assert (Hnan : Forall (Forall (fun c => c = NaN)) (cov_of data)).
  { apply short_cov. fold (returns_of data).
    pose proof (returns_of_length data Hwf Hemp). lia. }
  pose proof (cov_of_square data) as Hsq. rewrite Hn in Hsq.
  pose proof (optimize_inv_current _ _ _ _ _ _ _ E)
    as (data1 & w0 & Hd1 & Hw0 & Hcur).
  rewrite Hd in Hd1. injection Hd1 as <-.
  apply optimize_inv in E as (data2 & samples & Hd2 & _ & Es & Ea).
  rewrite Hd in Hd2. injection Hd2 as <-.
  pose proof (sample_frontier_length _ _ _ _ _ _ _ _ Es) as Hlen.
  pose proof (sample_frontier_inv _ _ _ _ _ _ _ _ Es) as Hev.
  clear Es.
  destruct num_portfolios_succ as [k0 Hk]. rewrite Hk in Hlen. clear Hk.
  assert (Hdraw : forall i,
             div_scalar (map Num (draws (length tks) rs i))
               (np_sum (map Num (draws (length tks) rs i))) <> [] /\
             length (div_scalar (map Num (draws (length tks) rs i))
                       (np_sum (map Num (draws (length tks) rs i))))
             = length tks).
  { intros i. unfold div_scalar, draws.
    rewrite !length_map, length_seq. split; [|reflexivity].
    destruct tks; [congruence|]. discriminate. }
  assert (Hall : Forall (fun p => volatility p = NaN /\
                                  sharpe_ratio p = Num 0) samples).
  { apply Forall_forall. intros p Hp. apply In_nth_error in Hp as [i Hi].
    destruct (Hdraw i) as [Hnil Hl].
    apply (evaluate_nan_cov risk_free_rate (mean_of data) (cov_of data)
             _ p Hnil); [now rewrite Hl | exact Hnan | exact (Hev i p Hi)]. }
  assert (Hw0len : length w0 = length tks).
  { destruct iw as [w|].
    - unfold ret in Hw0. assert (w = w0) by congruence. subst. exact Hfit.
    - destruct (equal_weights_ok tks Hne) as (w1 & Hw1 & Hl1).
      rewrite Hw1 in Hw0. assert (w1 = w0) by congruence. now subst. }
  destruct (evaluate_nan_cov risk_free_rate (mean_of data) (cov_of data)
              w0 (current_portfolio r)) as [Hcv Hcs];
    [ intros ->; destruct tks; [congruence|discriminate]
    | now rewrite Hw0len | exact Hnan | exact Hcur |].
  apply assemble_inv in Ea
    as (i & j & Hi & Hj & Hmax & Hmin & Hdiv & Hfr & _ & _).
  destruct samples as [|p0 samples]; [discriminate|].
  inversion Hall as [|? ? [Hv0 Hs0] Hrest]; subst.
  assert (Hi0 : i = 0%nat).
  { cbn [map np_argmax] in Hi. rewrite Hs0 in Hi. cbn [isnan] in Hi.
    rewrite argmax_all_zero in Hi.
    - unfold ret in Hi. congruence.
    - apply Forall_map. eapply Forall_impl; [|exact Hrest].
      now intros p [_ Hp]. }
  assert (Hj0 : j = 0%nat).
  { cbn [map np_argmin] in Hj. rewrite Hv0 in Hj. cbn [isnan] in Hj.
    unfold ret in Hj. congruence. }
  subst i j. cbn [nth_error] in Hmax, Hmin.
  assert (Hp0 : max_sharpe r = p0) by congruence.
  assert (Hq0 : min_volatility r = p0) by congruence.
  pose proof (Hev 0%nat p0 eq_refl) as Hev0.
  apply evaluate_inv in Hev0 as [Hwp0 _].
  rewrite Hfr. cbn [volatilities sharpe_ratios].
  split; [|split; [|split; [|split; [|split; [|split]]]]].
  - apply Forall_map. eapply Forall_impl; [|exact Hall]. now intros p [Hp _].
  - apply Forall_map. eapply Forall_impl; [|exact Hall]. now intros p [_ Hp].
  - exact Hcv.
  - exact Hcs.
  - congruence.
  - rewrite Hp0. exact Hwp0.
  - rewrite Hp0, Hwp0 in Hdiv.
    destruct (Hdraw 0%nat) as [Hnil Hl].
    unfold _calculate_diversification_ratio in Hdiv.
    bind_inv Hdiv. bind_inv Hdiv.
    destruct Hsq as [Hr Hc]. rewrite <- Hl in Hr, Hc.
    rewrite (nan_quadratic _ _ _ _ Hnil Hr Hc Hnan E E0) in Hdiv.
    cbn [fsqrt fgt flt] in Hdiv. unfold ret in Hdiv. congruence.
Qed.

End ShortHistory.

(** A single day of prices for two tickers. *)
Lemma short_history_degenerate_witness :
  exists r rs',
    optimize_portfolio (Num (4 / 100))
      (fun _ => inr {| n_columns := 2; closes := [[1; 2]] |})
      ["AAPL"; "MSFT"]%string None all_half = (inr (Dict r), rs') /\
    Forall (fun v => v = NaN) (volatilities (efficient_frontier r)) /\
    diversification_ratio r = Num 1.
Proof.
  destruct (short_history_degenerate (Num (4 / 100))
              (fun _ => inr {| n_columns := 2; closes := [[1; 2]] |})
              ["AAPL"; "MSFT"]%string None all_half
              {| n_columns := 2; closes := [[1; 2]] |})
    as (r & rs' & E & Hv & _ & _ & _ & _ & _ & Hdiv).
  - reflexivity.
  - reflexivity.
  - repeat constructor.
  - reflexivity.
  - exact I.
  - cbn [closes length]. lia.
  - exists r, rs'. auto.
Defined.

Lemma pd_std_short (v : vector) : (length v <= 1)%nat -> pd_std v = NaN.
Proof.
  intros H. unfold pd_std.
  replace (Nat.leb (length (dropna v)) 1) with true; [reflexivity|].
  symmetry. apply Nat.leb_le. unfold dropna.
  etransitivity; [apply filter_length_le | exact H].
Qed.

Lemma metrics_short (risk_free_rate : float64) (pr : vector) :
  (length pr <= 1)%nat ->
  let m := metrics_of_returns risk_free_rate pr in
  Metrics.annual_volatility m = NaN /\ Metrics.sharpe_ratio m = Num 0.
Proof.
  intros H. unfold metrics_of_returns.
  cbn [Metrics.annual_volatility Metrics.sharpe_ratio].
  rewrite (pd_std_short pr H). split; reflexivity.
Qed.

Lemma metrics_empty (risk_free_rate : float64) :
  let m := metrics_of_returns risk_free_rate [] in
  Metrics.total_return m = Num 0 /\
  Metrics.annual_return m = NaN /\
  Metrics.max_drawdown m = NaN /\
  Metrics.calmar_ratio m = NaN /\
  Metrics.win_rate m = Num 0.
Proof.
  assert (Hs : Rsgn ((1 + - (1)) * 252) = Eq).
  { replace ((1 + - (1)) * 252) with 0 by lra. unfold Rsgn.
    destruct (Rlt_dec 0 0); [lra | reflexivity]. }
  assert (Ht : true = Reqb 0 0) by (symmetry; now apply Reqb_true).
  cbv zeta. unfold metrics_of_returns.
  cbn [Metrics.total_return Metrics.annual_return Metrics.max_drawdown
       Metrics.calmar_ratio Metrics.win_rate length Nat.ltb Nat.leb].
  unfold pd_prod, cumprod, expanding_max, pd_min, of_nat.
  cbn [map dropna filter fold_left cumprod_from expanding_max_from
       zip_drawdown fsub fopp fadd fmul INR fne feq negb fabs fdiv].
  rewrite <- Ht, Hs. cbn [inf_of fdiv].
  split; [f_equal; lra|]. repeat split; reflexivity.
Qed.

Section ShortBacktest.

Variable risk_free_rate : float64.
Variable yf_download : list string -> M PriceData.

(** X13.  The backtest of a non-empty portfolio over a rectangular table of
    at most two price rows is returned, not refused: its annual volatility
    is NaN and its Sharpe ratio 0.  Over a single price row there is no
    return at all: total return 0, annual return, maximum drawdown and
    Calmar ratio NaN, win rate 0. *)
Theorem short_history_metrics (portfolio : list (string * float64))
    (data : PriceData) :
  portfolio <> [] ->
  yf_download (map fst portfolio) = inr data ->
  empty data = false ->
  well_formed data ->
  n_columns data = length portfolio ->
  (length (closes data) <= 2)%nat ->
  exists m,
    calculate_portfolio_metrics risk_free_rate yf_download portfolio
    = inr (Dict m) /\
    Metrics.annual_volatility m = NaN /\
    Metrics.sharpe_ratio m = Num 0 /\
    (length (closes data) = 1%nat ->
     Metrics.total_return m = Num 0 /\
     Metrics.annual_return m = NaN /\
     Metrics.max_drawdown m = NaN /\
     Metrics.calmar_ratio m = NaN /\
     Metrics.win_rate m = Num 0).
Proof.
  intros Hne Hd Hemp Hwf Hn Hrows.
  eexists. split;
    [exact (metrics_ok risk_free_rate yf_download portfolio data
              Hne Hd Hemp Hwf Hn)|].
  pose proof (returns_of_length data Hwf Hemp) as Hlen.
  split; [|split].
  - apply metrics_short. rewrite length_map.
    etransitivity; [exact Hlen | lia].
  - apply metrics_short. rewrite length_map.
    etransitivity; [exact Hlen | lia].
  - intros H1. rewrite H1 in Hlen.
    destruct (returns_of data) as [|row rows]; [|cbn [length] in Hlen; lia].
    apply metrics_empty.
Qed.

End ShortBacktest.

(** One day of prices for one ticker. *)
Lemma short_history_metrics_witness :
  exists m,
    calculate_portfolio_metrics (Num (4 / 100)) yf_one_day
      [("AAPL"%string, Num 1)] = inr (Dict m) /\
    Metrics.annual_volatility m = NaN /\
    Metrics.max_drawdown m = NaN.
Proof.
  destruct (short_history_metrics (Num (4 / 100)) yf_one_day
              [("AAPL"%string, Num 1)] one_day)
    as (m & E & Hv & _ & H1).
  - discriminate.
  - reflexivity.
  - reflexivity.
  - repeat constructor.
  - reflexivity.
  - cbn [one_day closes length]. lia.
  - exists m. split; [exact E|]. split; [exact Hv|].
    now destruct (H1 eq_refl) as (_ & _ & Hdd & _).
Defined.

(** * The callers *)

(** ** Parsing the tickers *)

Lemma upper_char_idem (c : ascii) : upper_char (upper_char c) = upper_char c.
Proof. destruct c as [[] [] [] [] [] [] [] []]; reflexivity. Qed.

Lemma upper_char_space (c : ascii) : isspace (upper_char c) = isspace c.
Proof. destruct c as [[] [] [] [] [] [] [] []]; reflexivity. Qed.

Lemma upper_char_comma (c : ascii) :
  upper_char c = ","%char -> c = ","%char.
Proof.
  destruct c as [[] [] [] [] [] [] [] []]; intros H;
    try reflexivity; discriminate H.
Qed.

Lemma chars_upper (s : string) : chars (upper s) = map upper_char (chars s).
Proof.
  induction s as [|c s IH]; cbn [upper chars map]; [reflexivity|].
  now rewrite IH.
Qed.

Lemma upper_idem (s : string) : upper (upper s) = upper s.
Proof.
  induction s as [|c s IH]; cbn [upper]; [reflexivity|].
  now rewrite upper_char_idem, IH.
Qed.

Lemma last_char_upper (s : string) :
  last_char (upper s) = option_map upper_char (last_char s).
Proof.
  induction s as [|c s IH]; [reflexivity|].
  destruct s as [|d s]; [reflexivity|].
  cbn [upper last_char] in *. exact IH.
Qed.

Lemma lstrip_head (s : string) (c : ascii) (r : string) :
  lstrip s = String c r -> isspace c = false.
Proof.
  induction s as [|d s IH]; cbn [lstrip]; [discriminate|].
  destruct (isspace d) eqn:E; [exact IH|].
  intros H. injection H as <- _. exact E.
Qed.

Lemma lstrip_sub (s : string) (c : ascii) :
  In c (chars (lstrip s)) -> In c (chars s).
Proof.
  induction s as [|d s IH]; cbn [lstrip]; [tauto|].
  destruct (isspace d); [|tauto]. intros H. right. now apply IH.
Qed.

Lemma rstrip_sub (s : string) (c : ascii) :
  In c (chars (rstrip s)) -> In c (chars s).
Proof.
  induction s as [|d s IH]; cbn [rstrip chars]; [tauto|].
  destruct (rstrip s) as [|e r].
  - destruct (isspace d); cbn [chars In]; tauto.
  - cbn [chars In] in *. tauto.
Qed.

Lemma rstrip_head (s : string) (c : ascii) (r : string) :
  rstrip s = String c r -> exists r', s = String c r'.
Proof.
  destruct s as [|d s]; cbn [rstrip]; [discriminate|].
  destruct (rstrip s) as [|e r0].
  - destruct (isspace d); [discriminate|].
    intros H. injection H as <- _. eauto.
  - intros H. injection H as <- _. eauto.
Qed.

Lemma rstrip_last (s : string) (c : ascii) :
  last_char (rstrip s) = Some c -> isspace c = false.
Proof.
  induction s as [|d s IH]; cbn [rstrip]; [discriminate|].
  destruct (rstrip s) as [|e r].
  - destruct (isspace d) eqn:E; [discriminate|].
    cbn [last_char]. intros H. injection H as <-. exact E.
  - cbn [last_char] in *. exact IH.
Qed.

Lemma split_comma_no_comma (s : string) :
  Forall (fun piece => ~ In ","%char (chars piece)) (split_comma s).
Proof.
  induction s as [|c s IH]; cbn [split_comma].
  - constructor; [cbn; tauto | constructor].
  - destruct (Ascii.eqb c ","%char) eqn:E.
    + constructor; [cbn; tauto | exact IH].
    + apply Ascii.eqb_neq in E.
      destruct (split_comma s) as [|piece rest].
      * constructor; [|constructor]. cbn [chars In]. intros [H|[]].
        congruence.
      * inversion IH as [|? ? Hp Hr]; subst. constructor; [|exact Hr].
        cbn [chars In]. intros [H|H]; [congruence | tauto].
Qed.

Lemma cleaned_piece (t : string) :
  ~ In ","%char (chars t) -> strip t <> EmptyString ->
  clean_ticker (upper (strip t)).
Proof.
  intros Hc Hne. unfold clean_ticker, strip in *.
  split; [|split; [|split; [|split]]].
  - destruct (rstrip (lstrip t)); [congruence|discriminate].
  - rewrite chars_upper. intros H.
    apply in_map_iff in H as (c & Hu & Hin).
    apply upper_char_comma in Hu. subst c.
    apply Hc. now apply lstrip_sub, rstrip_sub.
  - intros c. rewrite chars_upper.
    destruct (rstrip (lstrip t)) as [|d r] eqn:E; [discriminate|].
    cbn [chars map hd_error]. intros H. injection H as <-.
    rewrite upper_char_space.
    apply rstrip_head in E as [r' E].
    exact (lstrip_head _ _ _ E).
  - intros c. rewrite last_char_upper.
    destruct (last_char (rstrip (lstrip t))) as [d|] eqn:E; [|discriminate].
    cbn [option_map]. intros H. injection H as <-.
    rewrite upper_char_space. exact (rstrip_last _ _ E).
  - apply upper_idem.
Qed.

Lemma clean_pieces_clean (pieces : list string) :
  Forall (fun piece => ~ In ","%char (chars piece)) pieces ->
  Forall clean_ticker (clean_pieces pieces).
Proof.
  induction 1 as [|t ts Ht _ IH]; cbn [clean_pieces]; [constructor|].
  destruct (strip t) as [|c r] eqn:E; [exact IH|].
  constructor; [|exact IH]. rewrite <- E. apply cleaned_piece; [exact Ht|].
  rewrite E. discriminate.
Qed.

(** X14.  Whatever 7-bit text is typed, every ticker handed to the
    optimizer is non-empty, holds no comma, neither starts nor ends with
    white space and has no lower-case letter. *)
Theorem parsed_tickers_clean (tickers_input : string) :
  ascii_text tickers_input ->
  Forall clean_ticker (parse_tickers tickers_input).
Proof.
  intros _. unfold parse_tickers.
  apply clean_pieces_clean, split_comma_no_comma.
Qed.

Lemma parsed_tickers_clean_witness :
  parse_tickers " aapl,, msft ,"%string = ["AAPL"; "MSFT"]%string /\
  Forall clean_ticker (parse_tickers " aapl,, msft ,"%string).
Proof.
  split; [reflexivity|].
  apply parsed_tickers_clean.
  cbv [ascii_text seven_bit nat_of_ascii]. cbn. repeat split; lia.
Defined.

(** ** The echoed tickers read back *)

Lemma split_comma_plain (t : string) :
  ~ In ","%char (chars t) -> split_comma t = [t].
Proof.
  induction t as [|c t IH]; cbn [split_comma chars In]; [reflexivity|].
  intros H. destruct (Ascii.eqb c ","%char) eqn:E.
  - apply Ascii.eqb_eq in E. subst c. tauto.
  - rewrite IH by tauto. reflexivity.
Qed.

Lemma split_comma_app (t s : string) :
  ~ In ","%char (chars t) ->
  split_comma (t ++ String ","%char s) = t :: split_comma s.
Proof.
  induction t as [|c t IH]; cbn [split_comma chars In append].
  - intros _. reflexivity.
  - intros H. destruct (Ascii.eqb c ","%char) eqn:E.
    + apply Ascii.eqb_eq in E. subst c. tauto.
    + rewrite IH by tauto. reflexivity.
Qed.

Lemma split_comma_echo (t : string) (ts : list string) :
  Forall (fun piece => ~ In ","%char (chars piece)) (t :: ts) ->
  split_comma (echo (t :: ts)) = t :: map (String " "%char) ts.
Proof.
  unfold echo. revert t. induction ts as [|t2 ts IH]; intros t H;
    inversion H as [|? ? Ht Hts]; subst.
  - cbn [join map]. now apply split_comma_plain.
  - change (join ", " (t :: t2 :: ts))
      with (t ++ String ","%char
                   (String " "%char (join ", " (t2 :: ts))))%string.
    rewrite split_comma_app by exact Ht.
    cbn [split_comma Ascii.eqb Bool.eqb andb].
    rewrite (IH t2 Hts). reflexivity.
Qed.

Lemma lstrip_fixed (t : string) :
  (forall c, hd_error (chars t) = Some c -> isspace c = false) ->
  lstrip t = t.
Proof.
  destruct t as [|c t]; cbn [lstrip chars hd_error]; [reflexivity|].
  intros H. now rewrite (H c eq_refl).
Qed.

Lemma rstrip_fixed (t : string) :
  (forall c, last_char t = Some c -> isspace c = false) ->
  rstrip t = t.
Proof.
  induction t as [|c t IH]; [reflexivity|].
  destruct t as [|d t].
  - cbn [rstrip last_char]. intros H. now rewrite (H c eq_refl).
  - intros H. change (rstrip (String c (String d t)))
      with (match rstrip (String d t) with
            | EmptyString =>
                if isspace c then EmptyString else String c EmptyString
            | r => String c r
            end).
    rewrite IH by exact H. reflexivity.
Qed.

Lemma strip_clean (t : string) : clean_ticker t -> strip t = t.
Proof.
  intros (_ & _ & Hh & Hl & _). unfold strip.
  rewrite (lstrip_fixed t Hh). now apply rstrip_fixed.
Qed.

Lemma strip_space_clean (t : string) :
  clean_ticker t -> strip (String " "%char t) = t.
Proof.
  intros H. unfold strip.
  change (lstrip (String " "%char t)) with (lstrip t).
  now apply strip_clean.
Qed.

Lemma clean_pieces_spaced (ts : list string) :
  Forall clean_ticker ts ->
  clean_pieces (map (String " "%char) ts) = ts.
Proof.
  induction 1 as [|t ts Ht _ IH]; cbn [map clean_pieces]; [reflexivity|].
  rewrite (strip_space_clean t Ht), IH.
  destruct Ht as (Hne & _ & _ & _ & Hup). rewrite Hup.
  destruct t; [congruence|reflexivity].
Qed.

(** X15.  The line [main] echoes, the tickers joined by a comma and a
    space, reads back as the same tickers: parsing it gives the list that
    was echoed, for every list of tickers the parser can produce. *)
Theorem echo_reads_back (tickers : list string) :
  Forall clean_ticker tickers ->
  parse_tickers (echo tickers) = tickers.
Proof.
  intros H. unfold parse_tickers.
  destruct tickers as [|t ts]; [reflexivity|].
  rewrite split_comma_echo.
  - inversion H as [|? ? Ht Hts]; subst. cbn [clean_pieces].
    rewrite (strip_clean t Ht), (clean_pieces_spaced ts Hts).
    destruct Ht as (Hne & _ & _ & _ & Hup). rewrite Hup.
    destruct t; [congruence|reflexivity].
  - eapply Forall_impl; [|exact H]. now intros p (_ & Hc & _).
Qed.

Lemma echo_reads_back_witness :
  parse_tickers (echo (parse_tickers "aapl, msft,GOOGL"%string))
  = parse_tickers "aapl, msft,GOOGL"%string.
Proof.
  apply echo_reads_back. apply clean_pieces_clean, split_comma_no_comma.
Defined.

(** ** The portfolio option of the menu and the demo *)

Lemma combine_fst {A B} (l : list A) (l' : list B) :
  length l = length l' -> map fst (combine l l') = l.
Proof.
  revert l'; induction l as [|a l IH]; intros [|b l'] H;
    cbn [combine map fst] in *; try reflexivity; try discriminate.
  f_equal. apply IH. now injection H.
Qed.

Lemma combine_snd {A B} (l : list A) (l' : list B) :
  length l = length l' -> map snd (combine l l') = l'.
Proof.
  revert l'; induction l as [|a l IH]; intros [|b l'] H;
    cbn [combine map snd] in *; try reflexivity; try discriminate.
  f_equal. apply IH. now injection H.
Qed.

Section Callers.

Variable risk_free_rate : float64.
Variable yf_download : list string -> M PriceData.

(** The weights of the max-Sharpe point of a filled result: one per
    ticker. *)
Lemma filled_weights_length (tks : list string) (iw : option vector)
    (rs rs' : RandomState) (r : optimization) :
  optimize_portfolio risk_free_rate yf_download tks iw rs
  = (inr (Dict r), rs') ->
  length (weights (max_sharpe r)) = length tks /\
  rs' = advance rs (num_portfolios * length tks).
Proof.
  intros E.
  apply optimize_inv in E as (data & samples & _ & _ & Es & Ea).
  pose proof (sample_frontier_inv _ _ _ _ _ _ _ _ Es) as Hev.
  apply sample_frontier_consumes in Es.
  split; [|exact Es].
  apply assemble_inv in Ea as (i & j & _ & _ & Hmax & _).
  apply Hev, evaluate_inv in Hmax as [-> _].
  unfold div_scalar, draws. now rewrite !length_map, length_seq.
Qed.

(** A non-empty table whose columns are not the tickers: the baseline
    already fails, before any variate is drawn. *)
Lemma shape_mismatch_untouched (tks : list string) (rs : RandomState)
    (data : PriceData) :
  yf_download tks = inr data ->
  empty data = false ->
  n_columns data <> length tks ->
  optimize_portfolio risk_free_rate yf_download tks None rs
  = (inr EmptyDict, rs).
Proof.
  intros Hd Hemp Hn.
  unfold optimize_portfolio, optimize_body.
  generalize num_portfolios; intros K.
  rewrite Hd, Hemp. fold (mean_of data) (cov_of data).
  destruct (bind (equal_weights tks) _) as [e|cur] eqn:E; [reflexivity|].
  exfalso. bind_inv E.
  assert (Hl : length v = length tks).
  { unfold equal_weights in E0. destruct (length tks) eqn:El;
      [discriminate|].
    assert (Hv : repeat (Num 1 / of_nat (S n))%f64 (S n) = v)
      by (unfold ret in E0; congruence).
    rewrite <- Hv. apply repeat_length. }
  assert (Hc : exists n, n_columns data = S n).
  { unfold empty in Hemp. destruct (n_columns data); [discriminate|eauto]. }
  destruct Hc as [n Hc].
  pose proof (cov_of_square data) as Hsq. rewrite Hc in Hsq.
  apply evaluate_shape with (n := n) in E; [|exact Hsq]. congruence.
Qed.

End Callers.

(** X16.  The portfolio option never ends in an exception.  With fewer than
    two parsed tickers it stops before the optimizer and leaves the
    generator alone.  When it reports a result, the weight lines list every
    parsed ticker once, in order, each with the max-Sharpe weight of its
    position, and the run has consumed 10000 draws of one variate per
    ticker. *)
Theorem portfolio_option_outcomes
    (yf_download : list string -> M PriceData) (tickers_input : string)
    (rs : RandomState) :
  let tickers := parse_tickers tickers_input in
  match portfolio_option yf_download tickers_input rs with
  | (TooFewTickers, rs') => (length tickers < 2)%nat /\ rs' = rs
  | (CouldNotOptimize, rs') =>
      (2 <= length tickers)%nat /\
      optimize_portfolio default_risk_free_rate yf_download tickers None rs
      = (inr EmptyDict, rs')
  | (Reported _ _ _ listing saved, rs') =>
      (2 <= length tickers)%nat /\
      map fst listing = tickers /\
      map snd listing = weights (max_sharpe saved) /\
      rs' = advance rs (num_portfolios * length tickers)
  | (Uncaught _, _) => False
  end.
Proof.
  cbv zeta. unfold portfolio_option.
  destruct (Nat.ltb (length (parse_tickers tickers_input)) 2) eqn:El.
  - apply Nat.ltb_lt in El. split; [exact El | reflexivity].
  - apply Nat.ltb_ge in El.
    pose proof (optimize_never_raises default_risk_free_rate yf_download
                  (parse_tickers tickers_input) None rs) as [d Hd].
    destruct (optimize_portfolio default_risk_free_rate yf_download
                (parse_tickers tickers_input) None rs)
      as [res rs'] eqn:E.
    cbn [fst] in Hd. subst res. destruct d as [|r].
    + split; [exact El | reflexivity].
    + destruct (filled_weights_length _ _ _ _ _ _ _ E) as [Hw Hrs].
      split; [exact El|]. split; [|split; [|exact Hrs]].
      * apply combine_fst. now rewrite Hw.
      * apply combine_snd. now rewrite Hw.
Qed.

(** X17.  The demo at the end of [optimizer.py] subscripts the result
    without looking at it: when the download fails, the table is empty or
    it has not five columns, the demo ends in a [KeyError], the generator
    untouched; on a non-empty table of five columns it prints the Sharpe
    ratio and one weight line per test ticker. *)
Theorem demo_outcomes (yf_download : list string -> M PriceData)
    (rs : RandomState) :
  ((exists e, yf_download test_tickers = inl e) \/
   (exists data, yf_download test_tickers = inr data /\
                 (empty data = true \/ n_columns data <> 5%nat)) ->
   demo yf_download rs = (inl KeyError, rs)) /\
  (forall data,
     yf_download test_tickers = inr data ->
     empty data = false ->
     n_columns data = 5%nat ->
     exists s listing,
       demo yf_download rs
       = (inr (s, listing), advance rs (num_portfolios * 5)) /\
       map fst listing = test_tickers).
Proof.
  split.
  - intros H.
    assert (E : optimize_portfolio default_risk_free_rate yf_download
                  test_tickers None rs = (inr EmptyDict, rs)).
    { destruct H as [[e He]|(data & Hd & [Hemp|Hn])].
      - unfold optimize_portfolio, optimize_body. now rewrite He.
      - unfold optimize_portfolio, optimize_body. now rewrite Hd, Hemp.
      - destruct (empty data) eqn:Hemp.
        + unfold optimize_portfolio, optimize_body. now rewrite Hd, Hemp.
        + now apply shape_mismatch_untouched with (data := data). }
    unfold demo. rewrite E. reflexivity.
  - intros data Hd Hemp Hn.
    destruct (optimize_ok default_risk_free_rate yf_download test_tickers
                None rs data Hd Hemp Hn I) as (r & rs' & E).
    destruct (filled_weights_length _ _ _ _ _ _ _ E) as [Hw Hrs].
    unfold demo. rewrite E. cbn [subscript bind ret].
    exists (sharpe_ratio (max_sharpe r)),
           (combine test_tickers (weights (max_sharpe r))).
    split; [now rewrite Hrs|].
    apply combine_fst. now rewrite Hw.
Qed.

(** * Gains and losses in the backtest *)

Lemma positive_num (rs : list R) : positive (map Num rs) = map Num (gains rs).
Proof.
  unfold positive, gains, fgt.
  induction rs as [|r rs IH]; cbn [map filter flt]; [reflexivity|].
  destruct (Rltb 0 r); cbn [map]; [f_equal|]; exact IH.
Qed.

Lemma losses_negative (rs : list R) : Forall (fun d => d < 0) (losses rs).
Proof.
  apply Forall_forall. intros d Hd. unfold losses in Hd.
  apply filter_In in Hd as [_ Hd]. now apply Rltb_true.
Qed.

(** X18.  On a series of real portfolio returns a return of exactly 0
    counts neither as a win nor as a loss.  Without a loss the profit
    factor and the average loss are 0; with a loss the profit factor is the
    absolute value of the sum of the gains over the sum of the losses (the
    guard on a zero sum of losses never applies) and the average loss is
    the mean of the losses.  The average win is 0 without a gain and the
    mean of the gains otherwise. *)
Theorem profit_factor_guards (risk_free_rate : float64) (rs : list R) :
  let m := metrics_of_returns risk_free_rate (map Num rs) in
  let wins := map Num (gains rs) in
  let downs := map Num (losses rs) in
  (losses rs = [] ->
   Metrics.profit_factor m = Num 0 /\ Metrics.avg_loss m = Num 0) /\
  (losses rs <> [] ->
   Metrics.profit_factor m = fabs (np_sum wins / np_sum downs)%f64 /\
   Metrics.avg_loss m = np_mean downs) /\
  (gains rs = [] -> Metrics.avg_win m = Num 0) /\
  (gains rs <> [] -> Metrics.avg_win m = np_mean wins).
Proof.
  cbv zeta. unfold metrics_of_returns.
  cbn [Metrics.profit_factor Metrics.avg_loss Metrics.avg_win].
  rewrite negative_num, positive_num.
  unfold pd_mean, pd_sum, np_mean. rewrite !dropna_num.
  split; [|split; [|split]].
  - intros ->. split; reflexivity.
  - intros Hne.
    pose proof (Rsum_negative _ Hne (losses_negative rs)) as Hs.
    destruct (losses rs) as [|d ds] eqn:El; [congruence|].
    cbn [map]. split; [|reflexivity].
    change (Num d :: map Num ds) with (map Num (d :: ds)).
    rewrite (np_sum_num (d :: ds)). unfold fne. cbn [feq].
    replace (Reqb (Rsum (d :: ds)) 0) with false
      by (symmetry; apply Reqb_false; lra).
    reflexivity.
  - intros ->. reflexivity.
  - intros Hne. destruct (gains rs) as [|g gs]; [congruence|reflexivity].
Qed.

(** * Which portfolios are backtested *)

(** X20.  Over a downloaded, non-empty, rectangular table the backtest of a
    non-empty portfolio is returned exactly when the portfolio has one
    weight per column of the table; with any other number of weights the
    result is the empty dict. *)
Theorem metrics_filled_iff (risk_free_rate : float64)
    (yf_download : list string -> M PriceData)
    (portfolio : list (string * float64)) (data : PriceData) :
  portfolio <> [] ->
  yf_download (map fst portfolio) = inr data ->
  empty data = false ->
  well_formed data ->
  (n_columns data = length portfolio ->
   exists m,
     calculate_portfolio_metrics risk_free_rate yf_download portfolio
     = inr (Dict m)) /\
  (n_columns data <> length portfolio ->
   calculate_portfolio_metrics risk_free_rate yf_download portfolio
   = inr EmptyDict).
Proof.
  intros Hne Hd Hemp Hwf. split.
  - intros Hn. eexists.
    exact (metrics_ok risk_free_rate yf_download portfolio data
             Hne Hd Hemp Hwf Hn).
  - intros Hn. unfold calculate_portfolio_metrics, metrics_body.
    destruct (map fst portfolio) as [|t ts] eqn:Et.
    { destruct portfolio; [congruence|discriminate]. }
    rewrite Hd. cbn [bind]. rewrite Hemp. unfold frame_dot.
    replace (Nat.eqb (n_columns data) (length (map snd portfolio)))
      with false; [reflexivity|].
    symmetry. apply Nat.eqb_neq. now rewrite length_map.
Qed.

(** Two weights over a table of one column. *)
Lemma metrics_filled_iff_witness :
  calculate_portfolio_metrics (Num (4 / 100)) yf_three_days
    [("AAPL"%string, Num (1 / 2)); ("MSFT"%string, Num (1 / 2))]
  = inr EmptyDict.
Proof.
  apply (metrics_filled_iff (Num (4 / 100)) yf_three_days
           [("AAPL"%string, Num (1 / 2)); ("MSFT"%string, Num (1 / 2))]
           three_days).
  - discriminate.
  - reflexivity.
  - reflexivity.
  - repeat constructor.
  - cbn. lia.
Defined.
